(** * Highcharts indicators, 3D renderer paths and grid axis: a shallow embedding

    The development follows the TypeScript sources:

    - [indicators.src.ts] (SMA), [stochastic.src.ts], [dema.src.ts],
      [tema.src.ts], [ppo.src.ts]: technical indicators;
    - [parts-3d/SVGRenderer.ts]: [face3d], [cuboidPath], [arc3dPath];
    - [parts-gantt/GridAxis.ts]: [isOuterAxis] and the
      [afterGetLabelPosition] handler of [Tick]; further on
      [getMaxLabelDimensions], the [afterTickSize] and [trimTicks] handlers,
      the column axes of [onGridAxisAfterInit] and the tick positioner of a
      linked axis;
    - [parts-3d/SVGRenderer.ts], further on: [toLineSegments], [polyhedron],
      [curveTo], the paths of [arc3dPath] and the animation of [arc3d];
    - [modules/variwide.src.ts]: [processData], [postTranslate],
      [translate] and [Tick.prototype.postTranslate];
    - [indicators.src.ts]: [requireIndicators];
    - [export-data.src.ts]: [htmlencode] and [getCSV].

    JavaScript numbers are modelled as exact rationals ([Q]) in the
    indicator, face and grid code, and as real numbers ([R]) in the arc code,
    which needs [Math.PI].  IEEE-754 rounding, [NaN] and the infinities are
    outside these models: a read that JavaScript answers with [undefined] is
    answered with [0], and so is a division by zero.  The theorems on
    computed values state the shape of the data (parallel arrays, OHLC rows,
    a window whose highest high exceeds its lowest low) under which the
    source reads inside its arrays and divides by a non-zero number.

    The running sum of [SMAIndicator.getValues] keeps its rounding errors
    from one window to the next, so the values of SMA are settled on a
    second model of the same function in IEEE-754 double precision
    ([SMAIndicator64], over the primitive binary64 numbers), where a read
    answered with [undefined] is [NaN].

    Periods, indexes and loop counters are natural numbers.  The periods of
    the indicators are positive; a difference the source takes between
    counters is written so that it is the same in the naturals as in the
    integers. *)

From Stdlib Require Import List Arith ZArith QArith Qround Qabs Qminmax Qpower.
From Stdlib Require Import Lia Bool.
From Stdlib Require Import Reals Lra.
From Stdlib Require Ascii String.
From Stdlib Require Floats Uint63.
Import ListNotations.

(* ================================================================== *)
(** * Part I: definitions *)
(* ================================================================== *)

(** ** JavaScript values shared by the indicators *)

Module JS.

Local Open Scope Q_scope.

(** An entry of [series.yData]: a number, or an array of numbers and
    [null]s (an OHLC row, or a [[K, D]] row of the stochastic indicator). *)
Inductive yval : Type :=
| YNum (q : Q)
| YArr (row : list (option Q)).

(** [U.isArray(yVal[0])]. *)
Definition isArray (v : option yval) : bool :=
  match v with
  | Some (YArr _) => true
  | _ => false
  end.

(** A nullable number used in arithmetic: [null] counts as [0]. *)
Definition toNumber (v : option Q) : Q :=
  match v with
  | Some q => q
  | None => 0
  end.

(** [row[k]] read as a number. *)
Definition rowAt (row : list (option Q)) (k : nat) : Q :=
  match nth_error row k with
  | Some v => toNumber v
  | None => 0
  end.

(** [index < 0 ? v : v[index]] for an entry [v] that is present. *)
Definition pickIndex (index : Z) (v : yval) : Q :=
  if (index <? 0)%Z then
    match v with
    | YNum q => q
    | YArr _ => 0
    end
  else
    match v with
    | YNum _ => 0
    | YArr row => rowAt row (Z.to_nat index)
    end.

(** [index < 0 ? yVal[i] : yVal[i][index]]. *)
Definition yAt (index : Z) (yVal : list yval) (i : nat) : Q :=
  match nth_error yVal i with
  | Some v => pickIndex index v
  | None => 0
  end.

(** The read [index < 0 ? v : v[index]] stays inside the data: [v] is a
    number when [index] is negative, and otherwise an array that has an
    entry at [index]. *)
Definition readableAt (index : Z) (v : yval) : Prop :=
  match v with
  | YNum _ => (index < 0)%Z
  | YArr row => (0 <= index)%Z /\ (Z.to_nat index < length row)%nat
  end.

(** An OHLC row: an array of four numbers. *)
Definition isOhlcRow (v : yval) : Prop :=
  exists o h l c, v = YArr [Some o; Some h; Some l; Some c].

(** [xVal[i]]. *)
Definition xAt (xVal : list Q) (i : nat) : Q := nth i xVal 0.

(** [params.index ? params.index : 0]. *)
Definition indexOrZero (index : option nat) : Z :=
  match index with
  | Some k => Z.of_nat k
  | None => 0%Z
  end.

(** [Math.round]: the nearest integer, halves going up. *)
Definition round (q : Q) : Z := Qfloor (q + (1 # 2)).

End JS.

(** ** SMA in exact arithmetic: [SMAIndicator.getValues]

    The loop with its numbers read as rationals: the counts, the dates and
    a call on a single window are the same as in double precision (see
    [SMAIndicator64] for the values of a running sum). *)

Module SMAIndicator.

Import JS.
Local Open Scope Q_scope.

Record Series : Type := mkSeries {
  xData : list Q;
  yData : list yval
}.

Record Params : Type := mkParams {
  period : nat;
  index : option nat
}.

(** The object [{values, xData, yData}] a successful call returns. *)
Record Values : Type := mkValues {
  values : list (Q * Q);
  outX : list Q;
  outY : list Q
}.

(** The variables the main loop updates: [sum], [SMA], [xData], [yData]. *)
Record Loop : Type := mkLoop {
  sum : Q;
  SMA : list (Q * Q);
  accX : list Q;
  accY : list Q
}.

(** [period] as a number. *)
Definition num (n : nat) : Q := inject_Z (Z.of_nat n).

(** The [while (range < period - 1)] loop: [sum] after it. *)
Definition accumulate (idx : Z) (yVal : list yval) (period : nat) : Q :=
  fold_left (fun s range => s + yAt idx yVal range) (seq 0 (period - 1)) 0.

(** One turn of [for (i = range; i < yValLen; i++)]. *)
Definition step (period range : nat) (idx : Z) (xVal : list Q)
    (yVal : list yval) (st : Loop) (i : nat) : Loop :=
  let sum1 := sum st + yAt idx yVal i in
  let SMAPoint := (xAt xVal i, sum1 / num period) in
  {| sum := sum1 - yAt idx yVal (i - range);
     SMA := SMA st ++ [SMAPoint];
     accX := accX st ++ [fst SMAPoint];
     accY := accY st ++ [snd SMAPoint] |}.

(** [index] after "Switch index for OHLC / Candlestick / Arearange":
    [-1], or [params.index ? params.index : 0] when [yVal[0]] is an array. *)
Definition switchIndex (yVal : list yval) (index : option nat) : Z :=
  if isArray (nth_error yVal 0) then indexOrZero index else (-1)%Z.

(** [getValues(series, params)]; [None] is the value [false]. *)
Definition getValues (series : Series) (params : Params) : option Values :=
  let period := period params in
  let xVal := xData series in
  let yVal := yData series in
  let yValLen := length yVal in
  if (length xVal <? period)%nat then None
  else
    let idx := switchIndex yVal (index params) in
    let range := (period - 1)%nat in
    let st0 := {| sum := accumulate idx yVal period;
                  SMA := []; accX := []; accY := [] |} in
    let st := fold_left (step period range idx xVal yVal)
                        (seq range (yValLen - range)) st0 in
    Some {| values := SMA st; outX := accX st; outY := accY st |}.

End SMAIndicator.

(** ** The words of the claims: sums, means and windows *)

Module Spec.

Local Open Scope Q_scope.

Definition Qsum (l : list Q) : Q := fold_right Qplus 0 l.

(** The arithmetic mean of a list of numbers. *)
Definition mean (l : list Q) : Q := Qsum l / inject_Z (Z.of_nat (length l)).

(** The [len] consecutive entries of [l] that start at position [from]. *)
Definition window (len from : nat) (l : list Q) : list Q :=
  firstn len (skipn from l).

(** Two lists of numbers that agree entry by entry as rationals. *)
Definition sameNumbers (l1 l2 : list Q) : Prop := Forall2 Qeq l1 l2.

(** The series of the end-to-end example: [yData = [1,2,3,4,5]] over
    [xData = [0,1,2,3,4]]. *)
Definition smaExample : SMAIndicator.Series :=
  SMAIndicator.mkSeries [0; 1; 2; 3; 4] (map JS.YNum [1; 2; 3; 4; 5]).

End Spec.

(** ** JavaScript numbers as IEEE-754 doubles *)

Module Double.

Import PrimFloat.
Local Open Scope float_scope.

(** The double of an integer (exact below [2^53]). *)
Definition ofInt (z : Z) : float := of_uint63 (Uint63.of_Z z).

(** An entry of [series.yData]: a number, or an array of numbers and
    [null]s. *)
Inductive yval : Type :=
| YNum (f : float)
| YArr (row : list (option float)).

(** [U.isArray(yVal[0])]. *)
Definition isArray (v : option yval) : bool :=
  match v with
  | Some (YArr _) => true
  | _ => false
  end.

(** A nullable number used in arithmetic: [null] counts as [0]. *)
Definition toNumber (v : option float) : float :=
  match v with
  | Some f => f
  | None => 0
  end.

(** [row[k]] read as a number; [undefined] counts as [NaN]. *)
Definition rowAt (row : list (option float)) (k : nat) : float :=
  match nth_error row k with
  | Some v => toNumber v
  | None => nan
  end.

(** [index < 0 ? v : v[index]] for an entry [v] that is present, as a
    summand: an entry of the other kind makes the sum [NaN]. *)
Definition pickIndex (index : Z) (v : yval) : float :=
  if (index <? 0)%Z then
    match v with
    | YNum f => f
    | YArr _ => nan
    end
  else
    match v with
    | YNum _ => nan
    | YArr row => rowAt row (Z.to_nat index)
    end.

(** [index < 0 ? yVal[i] : yVal[i][index]] as a summand. *)
Definition yAt (index : Z) (yVal : list yval) (i : nat) : float :=
  match nth_error yVal i with
  | Some v => pickIndex index v
  | None => nan
  end.

(** The read [index < 0 ? v : v[index]] stays inside the data. *)
Definition readableAt (index : Z) (v : yval) : Prop :=
  match v with
  | YNum _ => (index < 0)%Z
  | YArr row => (0 <= index)%Z /\ (Z.to_nat index < length row)%nat
  end.

(** [xVal[i]]. *)
Definition xAt (xVal : list float) (i : nat) : float := nth i xVal nan.

End Double.

(** ** Binary64 numbers that are integers *)

Module Binary64.

Import SpecFloat FloatOps.
Local Open Scope Z_scope.

(** [v] shifted left by [k] bits. *)
Definition shl (v : positive) (k : nat) : positive := Nat.iter k xO v.

(** The double of a positive integer of at most 53 bits: the mantissa
    shifted up to 53 bits. *)
Definition canon (v : positive) : spec_float :=
  let d := Zpos (digits2_pos v) in
  S754_finite false (shl v (Z.to_nat (53 - d))) (d - 53).

(** The integer [n] rounded to a double, as [of_uint63] is specified. *)
Definition SFofInt (n : Z) : spec_float :=
  binary_normalize prec emax n 0 false.

End Binary64.

(** ** SMA in double precision: [SMAIndicator.getValues] *)

Module SMAIndicator64.

Import PrimFloat Double.
Local Open Scope float_scope.

Record Series : Type := mkSeries {
  xData : list float;
  yData : list yval
}.

Record Params : Type := mkParams {
  period : nat;
  index : option nat
}.

(** The object [{values, xData, yData}] a successful call returns. *)
Record Values : Type := mkValues {
  values : list (float * float);
  outX : list float;
  outY : list float
}.

(** The variables the main loop updates: [sum], [SMA], [xData], [yData]. *)
Record Loop : Type := mkLoop {
  sum : float;
  SMA : list (float * float);
  accX : list float;
  accY : list float
}.

(** [period] as a number. *)
Definition num (n : nat) : float := ofInt (Z.of_nat n).

(** The [while (range < period - 1)] loop: [sum] after it. *)
Definition accumulate (idx : Z) (yVal : list yval) (period : nat) : float :=
  fold_left (fun s range => s + yAt idx yVal range) (seq 0 (period - 1)) 0.

(** One turn of [for (i = range; i < yValLen; i++)]. *)
Definition step (period range : nat) (idx : Z) (xVal : list float)
    (yVal : list yval) (st : Loop) (i : nat) : Loop :=
  let sum1 := sum st + yAt idx yVal i in
  let SMAPoint := (xAt xVal i, sum1 / num period) in
  {| sum := sum1 - yAt idx yVal (i - range);
     SMA := SMA st ++ [SMAPoint];
     accX := accX st ++ [fst SMAPoint];
     accY := accY st ++ [snd SMAPoint] |}.

(** [index] after the switch for OHLC rows: [-1], or
    [params.index ? params.index : 0] when [yVal[0]] is an array. *)
Definition switchIndex (yVal : list yval) (index : option nat) : Z :=
  if isArray (nth_error yVal 0) then JS.indexOrZero index else (-1)%Z.

(** [getValues(series, params)]; [None] is the value [false]. *)
Definition getValues (series : Series) (params : Params) : option Values :=
  let period := period params in
  let xVal := xData series in
  let yVal := yData series in
  let yValLen := length yVal in
  if (length xVal <? period)%nat then None
  else
    let idx := switchIndex yVal (index params) in
    let range := (period - 1)%nat in
    let st0 := {| sum := accumulate idx yVal period;
                  SMA := []; accX := []; accY := [] |} in
    let st := fold_left (step period range idx xVal yVal)
                        (seq range (yValLen - range)) st0 in
    Some {| values := SMA st; outX := accX st; outY := accY st |}.

End SMAIndicator64.

(** ** The words of the claims in double precision *)

Module Spec64.

Import PrimFloat Double.
Local Open Scope float_scope.

(** The [len] consecutive entries of [l] that start at position [from]. *)
Definition window {A : Type} (len from : nat) (l : list A) : list A :=
  firstn len (skipn from l).

(** The sum of a list of integers. *)
Definition Zsum (l : list Z) : Z := fold_right Z.add 0%Z l.

(** The running sum of a window of [p] values that moves along [ys]: the
    values of the first window added from left to right, and from then on
    the running sum of the window before, less the value that leaves it,
    plus the value that enters. *)
Fixpoint runningSum (ys : list float) (p j : nat) : float :=
  match j with
  | O => fold_left add (firstn p ys) 0
  | S k => runningSum ys p k - nth k ys nan + nth (p + k) ys nan
  end.

(** [sum] at the start of turn [k] of the main loop, for [range] values
    added before it: what the [while] loop has added, or the running sum
    of the turn before less the value that has left. *)
Definition sumBefore (ys : list float) (range k : nat) : float :=
  match k with
  | O => fold_left add (firstn range ys) 0
  | S j => runningSum ys (S range) j - nth j ys nan
  end.

(** The series of the end-to-end example: [yData = [1,2,3,4,5]] over
    [xData = [0,1,2,3,4]]. *)
Definition smaExample : SMAIndicator64.Series :=
  SMAIndicator64.mkSeries [0; 1; 2; 3; 4] (map YNum [1; 2; 3; 4; 5]).

(** A series whose first value absorbs the second: [yData = [1e16,1,1,1]]
    over [xData = [0,1,2,3]]. *)
Definition absorbingExample : SMAIndicator64.Series :=
  SMAIndicator64.mkSeries [0; 1; 2; 3] (map YNum [1e16; 1; 1; 1]).

End Spec64.

(** ** Stochastic oscillator: [StochasticIndicator.getValues] *)

Module StochasticIndicator.

Import JS.
Local Open Scope Q_scope.

(** Columns of an OHLC row. *)
Definition close : nat := 3.
Definition low : nat := 2.
Definition high : nat := 1.

(** [arr.slice(start, end)] for [0 <= start]. *)
Definition slice {A : Type} (start stop : nat) (arr : list A) : list A :=
  firstn (stop - start) (skipn start arr).

(** [arr.slice(-k)]: the last [k] entries; [slice(-0)] is the whole array. *)
Definition sliceLast {A : Type} (k : nat) (arr : list A) : list A :=
  if (k =? 0)%nat then arr else skipn (length arr - k) arr.

(** Modelled from the spec: [getArrayExtremes] of [mixins/reduce-array.js]
    is not among the sources.  The spec gives its two results as the lowest
    low and the highest high of the window: the least entry of column
    [minIndex] and the greatest entry of column [maxIndex] over the rows of
    [arr]. *)
Definition getArrayExtremes (arr : list yval) (minIndex maxIndex : nat)
    : Q * Q :=
  match arr with
  | [] => (0, 0)
  | first :: rest =>
      fold_left
        (fun prev target =>
           (Qmin (fst prev) (pickIndex (Z.of_nat minIndex) target),
            Qmax (snd prev) (pickIndex (Z.of_nat maxIndex) target)))
        rest
        (pickIndex (Z.of_nat minIndex) first,
         pickIndex (Z.of_nat maxIndex) first)
  end.

Record Params : Type := mkParams {
  periods : nat * nat
}.

(** The object [{values, xData, yData}] a successful call returns; a row of
    [values] is [[x, K, D]] and a row of [yData] is [[K, D]], [D] being
    [null] ([None]) or a number. *)
Record Values : Type := mkValues {
  values : list (Q * Q * option Q);
  outX : list Q;
  outY : list yval
}.

(** The variables the loop updates: [SO], [xData], [yData] and [D]. *)
Record Loop : Type := mkLoop {
  SO : list (Q * Q * option Q);
  accX : list Q;
  accY : list yval;
  D : option Q
}.

(** The window [yVal.slice(i - periodK + 1, i + 1)] of turn [i]; the start
    is written [i + 1 - periodK] so that it is computed in the naturals as
    in the integers ([periodK - 1 <= i] in the loop). *)
Definition slicedY (periodK : nat) (yVal : list yval) (i : nat) : list yval :=
  slice (i + 1 - periodK) (i + 1) yVal.

(** [K] of turn [i]: [CL / HL * 100]. *)
Definition percentK (periodK : nat) (yVal : list yval) (i : nat) : Q :=
  let extremes := getArrayExtremes (slicedY periodK yVal i) low high in
  let LL := fst extremes in
  let CL := yAt (Z.of_nat close) yVal i - LL in
  let HL := snd extremes - LL in
  CL / HL * 100.

(** [points.yData[0]] of the nested SMA call; [points] is never [false]
    there (the slices hold [periodD] entries), and the model answers [null]
    where JavaScript would throw. *)
Definition smoothed (periodD : nat) (xData : list Q) (yData : list yval)
    : option Q :=
  match SMAIndicator.getValues
          (SMAIndicator.mkSeries (sliceLast periodD xData)
                                 (sliceLast periodD yData))
          (SMAIndicator.mkParams periodD None) with
  | Some points => nth_error (SMAIndicator.outY points) 0
  | None => None
  end.

(** One turn of [for (i = periodK - 1; i < yValLen; i++)].  The last field
    update is [yData[yData.length - 1][1] = D]: the row pushed as
    [[K, null]] ends as [[K, D]]. *)
Definition step (periodK periodD : nat) (xVal : list Q) (yVal : list yval)
    (st : Loop) (i : nat) : Loop :=
  let K := percentK periodK yVal i in
  let xData1 := accX st ++ [xAt xVal i] in
  let yData1 := accY st ++ [YArr [Some K; None]] in
  let D1 := if ((periodK - 1) + (periodD - 1) <=? i)%nat
            then smoothed periodD xData1 yData1
            else D st in
  {| SO := SO st ++ [(xAt xVal i, K, D1)];
     accX := xData1;
     accY := accY st ++ [YArr [Some K; D1]];
     D := D1 |}.

(** [yVal[0].length !== 4], for an entry that is an array. *)
Definition firstRowHasFour (yVal : list yval) : bool :=
  match nth_error yVal 0 with
  | Some (YArr row) => (length row =? 4)%nat
  | _ => false
  end.

(** [getValues(series, params)] for positive periods; [None] is [false]. *)
Definition getValues (series : SMAIndicator.Series) (params : Params)
    : option Values :=
  let periodK := fst (periods params) in
  let periodD := snd (periods params) in
  let xVal := SMAIndicator.xData series in
  let yVal := SMAIndicator.yData series in
  let yValLen := length yVal in
  if (yValLen <? periodK)%nat
     || negb (isArray (nth_error yVal 0))
     || negb (firstRowHasFour yVal)
  then None
  else
    let st := fold_left (step periodK periodD xVal yVal)
                (seq (periodK - 1) (yValLen - (periodK - 1)))
                {| SO := []; accX := []; accY := []; D := None |} in
    Some {| values := SO st; outX := accX st; outY := accY st |}.

End StochasticIndicator.

(** ** Inputs used in examples *)

Module Examples.

Import JS.
Local Open Scope Q_scope.

(** An OHLC row [[open, high, low, close]]. *)
Definition ohlc (o h l c : Q) : yval := YArr [Some o; Some h; Some l; Some c].

(** One four-component row whose close (5) lies above its high (2). *)
Definition closeAboveHigh : SMAIndicator.Series :=
  SMAIndicator.mkSeries [0] [ohlc 1 2 1 5].

(** Five consistent OHLC rows. *)
Definition fiveRows : SMAIndicator.Series :=
  SMAIndicator.mkSeries [0; 1; 2; 3; 4]
    [ohlc 1 2 1 2; ohlc 2 4 2 3; ohlc 3 5 1 2; ohlc 1 2 1 2; ohlc 1 3 0 1].

End Examples.

(** ** [H.correctFloat] *)

Module Utilities.

Local Open Scope Q_scope.

(** [expUp fuel num den e]: the greatest [e + k] with
    [den * 10 ^ k <= num], searched upwards. *)
Fixpoint expUp (fuel : nat) (num den e : Z) : Z :=
  match fuel with
  | O => e
  | S f =>
      if (den * 10 <=? num)%Z then expUp f num (den * 10) (e + 1) else e
  end.

(** [expDown fuel num den e]: the greatest [e - k] with
    [den <= num * 10 ^ k], searched downwards. *)
Fixpoint expDown (fuel : nat) (num den e : Z) : Z :=
  match fuel with
  | O => e
  | S f =>
      if (den <=? num)%Z then e else expDown f (num * 10) den (e - 1)
  end.

(** The decimal exponent of a non-zero number: the [e] with
    [10 ^ e <= |q| < 10 ^ (e + 1)]. *)
Definition exponent10 (q : Q) : Z :=
  let num := Z.abs (Qnum q) in
  let den := Zpos (Qden q) in
  if (den <=? num)%Z
  then expUp (S (Z.to_nat (Z.log2 num))) num den 0
  else expDown (S (S (Z.to_nat (Z.log2 den)))) num den 0.

(** [num.toPrecision(prec)] read back as a number: [q] rounded to [prec]
    significant decimal digits, a tie going away from zero. *)
Definition toPrecision (prec : Z) (q : Q) : Q :=
  if Qeq_bool q 0 then 0
  else
    let scale := Qpower 10 (prec - 1 - exponent10 q) in
    let n := Qfloor (Qabs q * scale + (1 # 2)) in
    let magnitude := inject_Z n / scale in
    if Qle_bool 0 q then magnitude else - magnitude.

(** Modelled from the spec: [H.correctFloat] of [parts/Utilities] is not
    among the sources.  The spec says that float outputs are "rounded to a
    fixed decimal precision"; the model rounds to 14 significant decimal
    digits, the precision [correctFloat] passes to [toPrecision] when it is
    called with one argument.  The final [parseFloat], which goes back to a
    binary double, is outside the exact model. *)
Definition correctFloat (num : Q) : Q := toPrecision 14 num.

End Utilities.

(** ** The EMA prototype that DEMA, TEMA and PPO call *)

Module EMAIndicator.

Import JS Utilities.
Local Open Scope Q_scope.

(** [H.seriesTypes.ema.prototype], whose source ([ema.src.ts]) is not among
    the files: the three methods the other indicators call.  The indicators
    below take it as a parameter.

    - [calculateEma xVal yVal i EMApercent calEMA index SMA] returns the
      point [[x, y]];
    - [accumulatePeriodPoints period index yVal] returns a sum;
    - [getValues series params] returns a result or [false]. *)
Record Prototype : Type := mkPrototype {
  calculateEma :
    list Q -> list yval -> nat -> Q -> option Q -> Z -> Q -> Q * Q;
  accumulatePeriodPoints : nat -> Z -> list yval -> Q;
  getValues :
    SMAIndicator.Series -> SMAIndicator.Params -> option SMAIndicator.Values
}.

(** The linked series' [EMApercent] and the one the chart's first series
    carries: [getValues] of DEMA and TEMA writes [series.EMApercent] and
    [getEMA] reads [this.chart.series[0].EMApercent]; the two are the same
    cell when the linked series is the first series of the chart. *)
Record Chart : Type := mkChart {
  linkedIsFirstSeries : bool;
  firstSeriesEMApercent : Q
}.

(** [this.chart.series[0].EMApercent] after
    [series.EMApercent = 2 / (period + 1)]. *)
Definition readEMApercent (chart : Chart) (period : nat) : Q :=
  if linkedIsFirstSeries chart
  then 2 / (SMAIndicator.num period + 1)
  else firstSeriesEMApercent chart.

(** [getEMA(yVal, prevEMA, SMA, index, i, xVal)[1]] of DEMA and TEMA, which
    share its text; an argument left out is [None]. *)
Definition getEMA (proto : Prototype) (chart : Chart) (period : nat)
    (yVal : list yval) (prevEMA : option Q) (SMA : Q)
    (index : option Z) (i : option nat) (xVal : option (list Q)) : Q :=
  snd (calculateEma proto
         (match xVal with Some xs => xs | None => [] end)
         yVal
         (match i with Some k => k | None => 1%nat end)
         (readEMApercent chart period)
         prevEMA
         (match index with Some k => k | None => (-1)%Z end)
         SMA).

(** Modelled from the spec: the EMA recurrence
    [EMA[i] = value[i] * factor + EMA[i-1] * (1 - factor)], seeded by the
    SMA of the first [period] points, with outputs rounded to the fixed
    precision.  Used to run the indicators on examples. *)
Definition specCalculateEma (xVal : list Q) (yVal : list yval) (i : nat)
    (EMApercent : Q) (calEMA : option Q) (index : Z) (SMA : Q) : Q * Q :=
  (xAt xVal (i - 1),
   match calEMA with
   | None => SMA
   | Some prev =>
       correctFloat (yAt index yVal (i - 1) * EMApercent
                     + prev * (1 - EMApercent))
   end).

(** Modelled from the spec: the sum of the first [period] points. *)
Definition specAccumulatePeriodPoints (period : nat) (index : Z)
    (yVal : list yval) : Q :=
  fold_left (fun sum i => sum + yAt index yVal i) (seq 0 period) 0.

(** Modelled from the spec: EMA over a series, [false] when the series is
    shorter than the period. *)
Definition specGetValues (series : SMAIndicator.Series)
    (params : SMAIndicator.Params) : option SMAIndicator.Values :=
  let period := SMAIndicator.period params in
  let xVal := SMAIndicator.xData series in
  let yVal := SMAIndicator.yData series in
  let yValLen := length yVal in
  if (yValLen <? period)%nat then None
  else
    let index := SMAIndicator.switchIndex yVal (SMAIndicator.index params) in
    let SMA := specAccumulatePeriodPoints period index yVal
               / SMAIndicator.num period in
    let EMApercent := 2 / (SMAIndicator.num period + 1) in
    let st :=
      fold_left
        (fun (st : list (Q * Q) * option Q) i =>
           let EMAPoint :=
             specCalculateEma xVal yVal i EMApercent (snd st) index SMA in
           (fst st ++ [EMAPoint], Some (snd EMAPoint)))
        (seq period (yValLen + 1 - period))
        ([], None) in
    Some {| SMAIndicator.values := fst st;
            SMAIndicator.outX := map fst (fst st);
            SMAIndicator.outY := map snd (fst st) |}.

Definition specPrototype : Prototype :=
  mkPrototype specCalculateEma specAccumulatePeriodPoints specGetValues.

End EMAIndicator.

(** ** DEMA: [DEMAIndicator.getValues] *)

Module DEMAIndicator.

Import JS Utilities EMAIndicator.
Local Open Scope Q_scope.

(** The variables the loop updates. *)
Record Loop : Type := mkLoop {
  accumulatePeriodPoints : Q;
  SMA : Q;
  DEMA : list (Q * Q);
  xDataDema : list Q;
  yDataDema : list Q;
  EMA : Q;
  prevEMA : option Q;
  prevEMAlevel2 : option Q;
  EMAvalues : list Q
}.

(** One turn of [for (i = period; i < yValLen + 2; i++)]. *)
Definition step (proto : Prototype) (chart : Chart) (period : nat)
    (index : Z) (xVal : list Q) (yVal : list yval) (st : Loop) (i : nat)
    : Loop :=
  let doubledPeriod := (2 * period)%nat in
  let yValLen := length yVal in
  (* if (i < yValLen + 1) { EMA = getEMA(...)[1]; EMAvalues.push(EMA); } *)
  let EMA1 :=
    if (i <? yValLen + 1)%nat
    then getEMA proto chart period yVal (prevEMA st) (SMA st)
                (Some index) (Some i) None
    else EMA st in
  let EMAvalues1 :=
    if (i <? yValLen + 1)%nat then EMAvalues st ++ [EMA1] else EMAvalues st in
  (* prevEMA = EMA; *)
  let prevEMA1 := Some EMA1 in
  if (i <? doubledPeriod)%nat then
    {| accumulatePeriodPoints := accumulatePeriodPoints st + EMA1;
       SMA := SMA st;
       DEMA := DEMA st; xDataDema := xDataDema st; yDataDema := yDataDema st;
       EMA := EMA1; prevEMA := prevEMA1;
       prevEMAlevel2 := prevEMAlevel2 st;
       EMAvalues := EMAvalues1 |}
  else
    let SMA1 := if (i =? doubledPeriod)%nat
                then accumulatePeriodPoints st / SMAIndicator.num period
                else SMA st in
    let EMA2 := nth (i - period - 1) EMAvalues1 0 in
    let EMAlevel2 :=
      getEMA proto chart period [YNum EMA2] (prevEMAlevel2 st) SMA1
             None None None in
    let DEMAPoint := (xAt xVal (i - 2), correctFloat (2 * EMA2 - EMAlevel2)) in
    {| accumulatePeriodPoints := accumulatePeriodPoints st;
       SMA := SMA1;
       DEMA := DEMA st ++ [DEMAPoint];
       xDataDema := xDataDema st ++ [fst DEMAPoint];
       yDataDema := yDataDema st ++ [snd DEMAPoint];
       EMA := EMA2; prevEMA := prevEMA1;
       prevEMAlevel2 := Some EMAlevel2;
       EMAvalues := EMAvalues1 |}.

(** [getValues(series, params)]; [None] is the value [false]. *)
Definition getValues (proto : Prototype) (chart : Chart)
    (series : SMAIndicator.Series) (params : SMAIndicator.Params)
    : option SMAIndicator.Values :=
  let period := SMAIndicator.period params in
  let xVal := SMAIndicator.xData series in
  let yVal := SMAIndicator.yData series in
  let yValLen := length yVal in
  if (yValLen <? 2 * period - 1)%nat then None
  else
    let index := SMAIndicator.switchIndex yVal (SMAIndicator.index params) in
    let SMA0 := EMAIndicator.accumulatePeriodPoints proto period index yVal
                / SMAIndicator.num period in
    let st :=
      fold_left (step proto chart period index xVal yVal)
        (seq period (yValLen + 2 - period))
        {| accumulatePeriodPoints := 0; SMA := SMA0;
           DEMA := []; xDataDema := []; yDataDema := [];
           EMA := 0; prevEMA := None; prevEMAlevel2 := None;
           EMAvalues := [] |} in
    Some {| SMAIndicator.values := DEMA st;
            SMAIndicator.outX := xDataDema st;
            SMAIndicator.outY := yDataDema st |}.

End DEMAIndicator.

(** ** TEMA: [TEMAIndicator.getValues] *)

Module TEMAIndicator.

Import JS Utilities EMAIndicator.
Local Open Scope Q_scope.

(** The object [EMAlevels]; a field not yet written is [None]. *)
Record EMAIndicatorLevelsObject : Type := mkLevels {
  level1 : option Q;
  level2 : option Q;
  level3 : option Q;
  prevLevel3 : option Q
}.

(** [getTemaPoint(xVal, tripledPeriod, EMAlevels, i)]. *)
Definition getTemaPoint (xVal : list Q) (tripledPeriod : nat)
    (EMAlevels : EMAIndicatorLevelsObject) (i : nat) : Q * Q :=
  (xAt xVal (i - 3),
   correctFloat (3 * toNumber (level1 EMAlevels)
                 - 3 * toNumber (level2 EMAlevels)
                 + toNumber (level3 EMAlevels))).

(** The variables the loop updates. *)
Record Loop : Type := mkLoop {
  accumulatePeriodPoints : Q;
  SMA : Q;
  TEMA : list (Q * Q);
  xDataTema : list Q;
  yDataTema : list Q;
  prevEMA : option Q;
  prevEMAlevel2 : option Q;
  EMAvalues : list Q;
  EMAlevel2values : list Q;
  EMAlevels : EMAIndicatorLevelsObject
}.

(** One turn of [for (i = period; i < yValLen + 3; i++)]. *)
Definition step (proto : Prototype) (chart : Chart) (period : nat)
    (index : Z) (xVal : list Q) (yVal : list yval) (st : Loop) (i : nat)
    : Loop :=
  let doubledPeriod := (2 * period)%nat in
  let tripledPeriod := (3 * period)%nat in
  let yValLen := length yVal in
  let lv := EMAlevels st in
  (* if (i < yValLen + 1) { level1 = getEMA(...)[1]; EMAvalues.push(level1) } *)
  let l1 :=
    if (i <? yValLen + 1)%nat
    then Some (getEMA proto chart period yVal (prevEMA st) (SMA st)
                      (Some index) (Some i) None)
    else level1 lv in
  let EMAvalues1 :=
    if (i <? yValLen + 1)%nat
    then EMAvalues st ++ [toNumber l1] else EMAvalues st in
  (* prevEMA = EMAlevels.level1; *)
  let prevEMA1 := l1 in
  if (i <? doubledPeriod)%nat then
    {| accumulatePeriodPoints := accumulatePeriodPoints st + toNumber l1;
       SMA := SMA st;
       TEMA := TEMA st; xDataTema := xDataTema st; yDataTema := yDataTema st;
       prevEMA := prevEMA1; prevEMAlevel2 := prevEMAlevel2 st;
       EMAvalues := EMAvalues1; EMAlevel2values := EMAlevel2values st;
       EMAlevels := mkLevels l1 (level2 lv) (level3 lv) (prevLevel3 lv) |}
  else
    (* if (i === doubledPeriod) { SMA = acc / period; acc = 0; } *)
    let SMA1 := if (i =? doubledPeriod)%nat
                then accumulatePeriodPoints st / SMAIndicator.num period
                else SMA st in
    let acc1 := if (i =? doubledPeriod)%nat
                then 0 else accumulatePeriodPoints st in
    let l1a := nth (i - period - 1) EMAvalues1 0 in
    let l2a := getEMA proto chart period [YNum l1a] (prevEMAlevel2 st) SMA1
                      None None None in
    let EMAlevel2values1 := EMAlevel2values st ++ [l2a] in
    let prevEMAlevel2a := Some l2a in
    if (i <? tripledPeriod)%nat then
      {| accumulatePeriodPoints := acc1 + l2a;
         SMA := SMA1;
         TEMA := TEMA st; xDataTema := xDataTema st; yDataTema := yDataTema st;
         prevEMA := prevEMA1; prevEMAlevel2 := prevEMAlevel2a;
         EMAvalues := EMAvalues1; EMAlevel2values := EMAlevel2values1;
         EMAlevels := mkLevels (Some l1a) (Some l2a) (level3 lv) (prevLevel3 lv) |}
    else
      let SMA2 := if (i =? tripledPeriod)%nat
                  then acc1 / SMAIndicator.num period else SMA1 in
      (* if (i === yValLen + 1) { the last ema and emaEMA points } *)
      let EMAlevel2values2 :=
        if (i =? yValLen + 1)%nat
        then EMAlevel2values1
             ++ [getEMA proto chart period
                   [YNum (nth (i - period - 1) EMAvalues1 0)]
                   prevEMAlevel2a SMA2 None None None]
        else EMAlevel2values1 in
      let l1b := nth (i - period - 2) EMAvalues1 0 in
      let l2b := nth (i - 2 * period - 1) EMAlevel2values2 0 in
      let l3 := getEMA proto chart period [YNum l2b] (prevLevel3 lv) SMA2
                       None None None in
      let lv1 := mkLevels (Some l1b) (Some l2b) (Some l3) (prevLevel3 lv) in
      let TEMAPoint := getTemaPoint xVal tripledPeriod lv1 i in
      {| accumulatePeriodPoints := acc1;
         SMA := SMA2;
         TEMA := TEMA st ++ [TEMAPoint];
         xDataTema := xDataTema st ++ [fst TEMAPoint];
         yDataTema := yDataTema st ++ [snd TEMAPoint];
         prevEMA := prevEMA1; prevEMAlevel2 := prevEMAlevel2a;
         EMAvalues := EMAvalues1; EMAlevel2values := EMAlevel2values2;
         EMAlevels := mkLevels (Some l1b) (Some l2b) (Some l3) (Some l3) |}.

(** [getValues(series, params)]; [None] is the value [false]. *)
Definition getValues (proto : Prototype) (chart : Chart)
    (series : SMAIndicator.Series) (params : SMAIndicator.Params)
    : option SMAIndicator.Values :=
  let period := SMAIndicator.period params in
  let xVal := SMAIndicator.xData series in
  let yVal := SMAIndicator.yData series in
  let yValLen := length yVal in
  if (yValLen <? 3 * period - 2)%nat then None
  else
    let index := SMAIndicator.switchIndex yVal (SMAIndicator.index params) in
    let SMA0 := EMAIndicator.accumulatePeriodPoints proto period index yVal
                / SMAIndicator.num period in
    let st :=
      fold_left (step proto chart period index xVal yVal)
        (seq period (yValLen + 3 - period))
        {| accumulatePeriodPoints := 0; SMA := SMA0;
           TEMA := []; xDataTema := []; yDataTema := [];
           prevEMA := None; prevEMAlevel2 := None;
           EMAvalues := []; EMAlevel2values := [];
           EMAlevels := mkLevels None None None None |} in
    Some {| SMAIndicator.values := TEMA st;
            SMAIndicator.outX := xDataTema st;
            SMAIndicator.outY := yDataTema st |}.

End TEMAIndicator.

(** ** PPO: [PPOIndicator.getValues] *)

Module PPOIndicator.

Import JS Utilities EMAIndicator.
Local Open Scope Q_scope.

Record Params : Type := mkParams {
  periods : list nat;
  index : option nat
}.

(** [periods.length !== 2 || periods[1] <= periods[0]]. *)
Definition periodsIncorrect (periods : list nat) : bool :=
  negb (length periods =? 2)%nat
  || (nth 1 periods 0 <=? nth 0 periods 0)%nat.

(** One turn of [for (i = 0; i < LPE.yData.length; i++)] on the triple
    [(PPO, xData, yData)]. *)
Definition step (SPE LPE : SMAIndicator.Values) (periodsOffset : nat)
    (st : list (Q * Q) * list Q * list Q) (i : nat)
    : list (Q * Q) * list Q * list Q :=
  let '(PPO, xData, yData) := st in
  let oscillator :=
    correctFloat
      ((nth (i + periodsOffset) (SMAIndicator.outY SPE) 0
        - nth i (SMAIndicator.outY LPE) 0)
       / nth i (SMAIndicator.outY LPE) 0 * 100) in
  (PPO ++ [(nth i (SMAIndicator.outX LPE) 0, oscillator)],
   xData ++ [nth i (SMAIndicator.outX LPE) 0],
   yData ++ [oscillator]).

(** [getValues(series, params)]; [None] is the value [false]. *)
Definition getValues (proto : Prototype) (series : SMAIndicator.Series)
    (params : Params) : option SMAIndicator.Values :=
  let periods := periods params in
  if periodsIncorrect periods then None
  else
    let SPE := EMAIndicator.getValues proto series
                 (SMAIndicator.mkParams (nth 0 periods 0%nat) (index params)) in
    let LPE := EMAIndicator.getValues proto series
                 (SMAIndicator.mkParams (nth 1 periods 0%nat) (index params)) in
    match SPE, LPE with
    | Some SPE, Some LPE =>
        let periodsOffset := (nth 1 periods 0 - nth 0 periods 0)%nat in
        let '(PPO, xData, yData) :=
          fold_left (step SPE LPE periodsOffset)
                    (seq 0 (length (SMAIndicator.outY LPE)))
                    ([], [], []) in
        Some {| SMAIndicator.values := PPO;
                SMAIndicator.outX := xData;
                SMAIndicator.outY := yData |}
    | _, _ => None
    end.

End PPOIndicator.

(** ** Rounded values *)

Module Rounding.

Import Utilities.
Local Open Scope Q_scope.

(** [v] is a result of [correctFloat]. *)
Definition isCorrectFloat (v : Q) : Prop := exists num, v = correctFloat num.

(** [v] has at most 14 significant decimal digits: rounding leaves it as it
    is. *)
Definition rounded (v : Q) : Prop := correctFloat v == v.

(** The test behind [rounded]. *)
Definition roundedb (v : Q) : bool := Qeq_bool (correctFloat v) v.

End Rounding.

(** ** Result objects *)

Module Results.

Import SMAIndicator.

(** A result object whose three arrays hold [size] entries, [values]
    pairing [xData] with [yData]. *)
Definition wellFormed (size : nat) (r : Values) : Prop :=
  length (outX r) = size /\ length (outY r) = size /\
  values r = combine (outX r) (outY r).

End Results.

(** ** 3D shapes of the renderer: [toLinePath], [face3d], [cuboidPath] *)

Module Renderer3D.

Local Open Scope Q_scope.

(** [Highcharts.Position3dObject]; a projected point keeps the shape and is
    read through [x] and [y]. *)
Record Position3dObject : Type := mkPosition {
  x : Q;
  y : Q;
  z : Q
}.

(** An entry of an [SVGPathArray]: a command letter or a number. *)
Inductive SVGPathItem : Type :=
| M
| L
| Z
| Num (q : Q).

Definition SVGPathArray : Type := list SVGPathItem.

(** What the 3D code reads of the chart: [options.chart.options3d.alpha]
    and [plotHeight]. *)
Record Chart : Type := mkChart {
  alpha : Q;
  plotHeight : Q
}.

(** [H.perspective(points, chart, insidePlotArea)], defined in
    [parts-3d/Math.js], which is not among the sources: a parameter. *)
Definition Perspective : Type :=
  list Position3dObject -> Chart -> bool -> list Position3dObject.

(** Modelled from the spec: [H.shapeArea] of [parts-3d/Math.js] is not
    among the sources.  The spec calls its result the signed area of the
    projected 2D polygon: half the sum, over the edges of the closed
    polygon, of [x_i * y_j - x_j * y_i], [j] following [i]. *)
Definition shapeArea (vertexes : list Position3dObject) : Q :=
  let n := length vertexes in
  let origin := mkPosition 0 0 0 in
  fold_left
    (fun area i =>
       let j := ((i + 1) mod n)%nat in
       area
       + (x (nth i vertexes origin) * y (nth j vertexes origin)
          - x (nth j vertexes origin) * y (nth i vertexes origin)))
    (seq 0 n) 0
  / 2.

(** [SVGRenderer.prototype.toLinePath(points, closed)]. *)
Definition toLinePath (points : list Position3dObject) (closed : bool)
    : SVGPathArray :=
  let result := flat_map (fun point => [L; Num (x point); Num (y point)])
                         points in
  match result with
  | [] => []
  | _ :: rest => (M :: rest) ++ (if closed then [Z] else [])
  end.

(** *** [face3d] *)

Inductive Visibility : Type := visible | hidden.

(** The attributes [face3d] handles in a hash: its own three, and [d] and
    [visibility], which it writes before it hands the hash on.  [None] is
    an attribute that is undefined or null. *)
Record SVGAttributes : Type := mkAttributes {
  a_enabled : option bool;
  a_vertexes : option (list Position3dObject);
  a_insidePlotArea : option bool;
  a_d : option SVGPathArray;
  a_visibility : option Visibility
}.

(** The face element: the fields [face3d] adds and the two attributes it
    sets. *)
Record Face : Type := mkFace {
  enabled : bool;
  vertexes : list Position3dObject;
  insidePlotArea : bool;
  d : option SVGPathArray;
  visibility : option Visibility
}.

(** [U.pick(a, b)] for a second argument that is defined. *)
Definition pick {A : Type} (a : option A) (b : A) : A :=
  match a with
  | Some v => v
  | None => b
  end.

(** [U.defined]. *)
Definition defined {A : Type} (a : option A) : bool :=
  match a with
  | Some _ => true
  | None => false
  end.

(** [SVGElement.prototype.attr(hash)] is outside the sources; of it the
    model keeps that an attribute present in the hash is stored on the
    element. *)
Definition baseAttr (el : Face) (hash : SVGAttributes) : Face :=
  {| enabled := enabled el;
     vertexes := vertexes el;
     insidePlotArea := insidePlotArea el;
     d := match a_d hash with Some p => Some p | None => d el end;
     visibility := match a_visibility hash with
                   | Some v => Some v
                   | None => visibility el
                   end |}.

(** [(this.enabled && area > 0) ? 'visible' : 'hidden']. *)
Definition faceVisibility (en : bool) (area : Q) : Visibility :=
  if en && negb (Qle_bool area 0) then visible else hidden.

(** The fresh element of [face3d]: [vertexes = []],
    [insidePlotArea = false], [enabled = true]. *)
Definition newFace : Face :=
  {| enabled := true; vertexes := []; insidePlotArea := false;
     d := None; visibility := None |}.

(** [ret.attr(hash)] for a hash that is an object. *)
Definition attr (perspective : Perspective) (chart : Chart) (this : Face)
    (hash : SVGAttributes) : Face :=
  if defined (a_enabled hash) || defined (a_vertexes hash)
     || defined (a_insidePlotArea hash)
  then
    let this1 :=
      {| enabled := pick (a_enabled hash) (enabled this);
         vertexes := pick (a_vertexes hash) (vertexes this);
         insidePlotArea := pick (a_insidePlotArea hash) (insidePlotArea this);
         d := d this;
         visibility := visibility this |} in
    let vertexes2d :=
      perspective (vertexes this1) chart (insidePlotArea this1) in
    let path := toLinePath vertexes2d true in
    let area := shapeArea vertexes2d in
    let vis := faceVisibility (enabled this1) area in
    baseAttr this1
      {| a_enabled := None; a_vertexes := None; a_insidePlotArea := None;
         a_d := Some path; a_visibility := Some vis |}
  else baseAttr this hash.

(** [ret.animate(params)]: the same recomputation; the visibility is set at
    once by [this.attr('visibility', visibility)] and the path [params.d] is
    handed to [SVGElement.prototype.animate], of which the model keeps the
    path the animation ends on. *)
Definition animate (perspective : Perspective) (chart : Chart) (this : Face)
    (params : SVGAttributes) : Face :=
  if defined (a_enabled params) || defined (a_vertexes params)
     || defined (a_insidePlotArea params)
  then
    let this1 :=
      {| enabled := pick (a_enabled params) (enabled this);
         vertexes := pick (a_vertexes params) (vertexes this);
         insidePlotArea := pick (a_insidePlotArea params) (insidePlotArea this);
         d := d this;
         visibility := visibility this |} in
    let vertexes2d :=
      perspective (vertexes this1) chart (insidePlotArea this1) in
    let path := toLinePath vertexes2d true in
    let area := shapeArea vertexes2d in
    let vis := faceVisibility (enabled this1) area in
    let this2 :=
      baseAttr this1
        {| a_enabled := None; a_vertexes := None; a_insidePlotArea := None;
           a_d := None; a_visibility := Some vis |} in
    baseAttr this2
      {| a_enabled := None; a_vertexes := None; a_insidePlotArea := None;
         a_d := Some path; a_visibility := a_visibility params |}
  else baseAttr this params.

(** *** [cuboidPath] *)

Record CuboidArgs : Type := mkCuboidArgs {
  c_x : Q;
  c_y : Q;
  c_z : Q;
  c_height : Q;
  c_width : Q;
  c_depth : Q;
  c_insidePlotArea : bool
}.

Record CuboidPathsObject : Type := mkCuboidPaths {
  front : SVGPathArray;
  top : SVGPathArray;
  side : SVGPathArray;
  zIndexGroup : BinInt.Z;
  isFront : BinInt.Z;
  isTop : BinInt.Z
}.

(** The 8 corners of the cube. *)
Definition corners (a : CuboidArgs) : list Position3dObject :=
  let x := c_x a in let y := c_y a in let z := c_z a in
  let h := c_height a in let w := c_width a in let d := c_depth a in
  [ mkPosition x y z;
    mkPosition (x + w) y z;
    mkPosition (x + w) (y + h) z;
    mkPosition x (y + h) z;
    mkPosition x (y + h) (z + d);
    mkPosition (x + w) (y + h) (z + d);
    mkPosition (x + w) y (z + d);
    mkPosition x y (z + d) ].

(** [mapPath]: [pArr[i]]. *)
Definition mapPath (pArr : list Position3dObject) (i : nat)
    : Position3dObject :=
  nth i pArr (mkPosition 0 0 0).

(** [pickShape(path1, path2)]: the chosen path with [0] for [path1], [1]
    for [path2], and [[]] with [-1] when no path is chosen. *)
Definition pickShape (pArr : list Position3dObject) (path1 path2 : list nat)
    : list Position3dObject * BinInt.Z :=
  let path1 := map (mapPath pArr) path1 in
  let path2 := map (mapPath pArr) path2 in
  if negb (Qle_bool 0 (shapeArea path1)) then (path1, 0%Z)
  else if negb (Qle_bool 0 (shapeArea path2)) then (path2, 1%Z)
  else ([], (-1)%Z).

(** The vertex lists of the six faces. *)
Definition frontFace : list nat := [3; 2; 1; 0]%nat.
Definition backFace : list nat := [7; 6; 5; 4]%nat.
Definition topFace : list nat := [1; 6; 7; 0]%nat.
Definition bottomFace : list nat := [4; 5; 2; 3]%nat.
Definition rightFace : list nat := [1; 2; 5; 6]%nat.
Definition leftFace : list nat := [0; 7; 4; 3]%nat.

(** [cuboidPath(shapeArgs)]. *)
Definition cuboidPath (perspective : Perspective) (chart : Chart)
    (shapeArgs : CuboidArgs) : CuboidPathsObject :=
  let x := c_x shapeArgs in
  let y := c_y shapeArgs in
  let z := c_z shapeArgs in
  let incrementX := 10000 in
  let incrementY := 10 in
  let incrementZ := 100 in
  let pArr :=
    perspective (corners shapeArgs) chart (c_insidePlotArea shapeArgs) in
  let '(path1, isFront) := pickShape pArr frontFace backFace in
  let '(path2, isTop) := pickShape pArr topFace bottomFace in
  let '(path3, isRight) := pickShape pArr rightFace leftFace in
  let zIndex0 := 0 in
  let zIndex1 :=
    if (isRight =? 1)%Z then zIndex0 + incrementX * (1000 - x)
    else if (isRight =? 0)%Z then zIndex0 + incrementX * x
    else zIndex0 in
  let zIndex2 :=
    zIndex1 + incrementY *
      (if (isTop =? 0)%Z
          || (Qle_bool 0 (alpha chart) && Qle_bool (alpha chart) 180)
          || (negb (Qle_bool 360 (alpha chart))
              && negb (Qle_bool (alpha chart) (715 # 2)))
       then plotHeight chart - y else 10 + y) in
  let zIndex3 :=
    if (isFront =? 1)%Z then zIndex2 + incrementZ * z
    else if (isFront =? 0)%Z then zIndex2 + incrementZ * (1000 - z)
    else zIndex2 in
  {| front := toLinePath path1 true;
     top := toLinePath path2 true;
     side := toLinePath path3 true;
     zIndexGroup := JS.round zIndex3;
     isFront := isFront;
     isTop := isTop |}.

(** *** Projections used in examples *)

(** An oblique projection: [x] and [y] shifted by a share of [z]. *)
Definition oblique (kx ky : Q) : Perspective :=
  fun points _ _ =>
    map (fun p => mkPosition (x p + kx * z p) (y p + ky * z p) (z p)) points.

End Renderer3D.

(** ** The words of the 3D claims *)

Module Spec3D.

Import Renderer3D.
Local Open Scope Q_scope.

(** [path] is the closed line path of the member of the pair
    [(first, second)] whose polygon has negative signed area, the first
    member tested first; with no such member it is the empty path. *)
Definition picksNegative (first second : list Position3dObject)
    (path : SVGPathArray) : Prop :=
  (shapeArea first < 0 -> path = toLinePath first true) /\
  (~ shapeArea first < 0 -> shapeArea second < 0 ->
   path = toLinePath second true) /\
  (~ shapeArea first < 0 -> ~ shapeArea second < 0 -> path = []).

(** A cuboid and a chart used in examples. *)
Definition box : CuboidArgs := mkCuboidArgs 10 20 0 30 40 50 false.
Definition chart15 : Chart := mkChart 15 400.

(** A face whose three vertexes coincide. *)
Definition pointFace : list Position3dObject :=
  repeat (mkPosition 1 2 3) 3.

End Spec3D.

(** ** 3D arcs: the z-indexes of [arc3dPath] *)

Module Arc3D.

Local Open Scope R_scope.

(** The arguments [arc3dPath] reads; [innerR] and [depth] may be left out
    ([shapeArgs.innerR || 0], [shapeArgs.depth || 0]). *)
Record ArcArgs : Type := mkArcArgs {
  x : R;
  y : R;
  start : R;
  end_ : R;
  r : R;
  innerR : option R;
  depth : option R;
  alpha : R;
  beta : R
}.

(** The five z-indexes of the returned object.  Its five paths ([top],
    [out], [inn], [side1], [side2]) are built from the same arguments and
    have no part in the z-indexes; they are not modelled. *)
Record Arc3dZIndexes : Type := mkZIndexes {
  zTop : R;
  zOut : R;
  zInn : R;
  zSide1 : R;
  zSide2 : R
}.

(** [v || 0] for an optional number. *)
Definition orZero (v : option R) : R :=
  match v with
  | Some q => q
  | None => 0
  end.

(** The integer part of a real, towards zero. *)
Definition truncate (a : R) : Z :=
  if Rle_dec 0 a then Int_part a else (- Int_part (- a))%Z.

(** [a % m]: the remainder that has the sign of [a]. *)
Definition remainder (a m : R) : R := a - m * IZR (truncate (a / m)).

(** [toZeroPIRange(angle)]. *)
Definition toZeroPIRange (angle : R) : R :=
  let angle := remainder angle (2 * PI) in
  if Rlt_dec PI angle then 2 * PI - angle else angle.

(** [Math.max(a1, a2, a3)]. *)
Definition max3 (a1 a2 a3 : R) : R := Rmax (Rmax a1 a2) a3.

(** The corrected angles [angleEnd], [angleStart], [angleMid] after
    [toZeroPIRange]; [atan2] is [Math.atan2]. *)
Definition angleCorr (atan2 : R -> R -> R) (shapeArgs : ArcArgs) : R :=
  let d := orZero (depth shapeArgs) in
  let dx := d * sin (beta shapeArgs) in
  let dy := d * sin (alpha shapeArgs) in
  atan2 dy (- dx).

Definition angleEnd (atan2 : R -> R -> R) (shapeArgs : ArcArgs) : R :=
  let end1 := end_ shapeArgs - 1 / 100000 in
  toZeroPIRange (Rabs (end1 + angleCorr atan2 shapeArgs)).

Definition angleStart (atan2 : R -> R -> R) (shapeArgs : ArcArgs) : R :=
  toZeroPIRange (Rabs (start shapeArgs + angleCorr atan2 shapeArgs)).

Definition angleMid (atan2 : R -> R -> R) (shapeArgs : ArcArgs) : R :=
  let end1 := end_ shapeArgs - 1 / 100000 in
  toZeroPIRange
    (Rabs ((start shapeArgs + end1) / 2 + angleCorr atan2 shapeArgs)).

(** The z-indexes [arc3dPath(shapeArgs)] returns. *)
Definition arc3dPath (atan2 : R -> R -> R) (shapeArgs : ArcArgs)
    : Arc3dZIndexes :=
  let incPrecision := 100000 in
  let a1 := angleMid atan2 shapeArgs * incPrecision in
  let a2 := angleStart atan2 shapeArgs * incPrecision in
  let a3 := angleEnd atan2 shapeArgs * incPrecision in
  {| zTop := PI * incPrecision + 1;
     zOut := max3 a1 a2 a3;
     zInn := max3 a1 a2 a3;
     zSide1 := a3 * (99 / 100);
     zSide2 := a2 * (99 / 100) |}.

End Arc3D.

(** ** Grid axis: [isOuterAxis] and the cell of a tick label *)

Module GridAxis.

Local Open Scope Q_scope.

(** [axis.side], with the names of the [axisSide] enum. *)
Inductive Side : Type := Top | Right | Bottom | Left.

(** The code of a side: [top: 0, right: 1, bottom: 2, left: 3]. *)
Definition sideCode (s : Side) : nat :=
  match s with
  | Top => 0
  | Right => 1
  | Bottom => 2
  | Left => 3
  end.

Definition sameSide (a b : Side) : bool := (sideCode a =? sideCode b)%nat.

(** *** [Axis.prototype.isOuterAxis] *)

(** What [isOuterAxis] reads of [axis.linkedParent]: the identity of the
    object ([===]) and its [columns], the identities of the column axes. *)
Record LinkedParent : Type := mkLinkedParent {
  p_ident : nat;
  p_columns : option (list nat)
}.

(** What [isOuterAxis] reads of an axis; [isInternal] is
    [options.isInternal]. *)
Record Axis : Type := mkAxis {
  ident : nat;
  side : Side;
  isInternal : bool;
  columnIndex : option nat;
  columns : option (list nat);
  linkedParent : option LinkedParent
}.

(** An axis as the value of [parentAxis]. *)
Definition asParent (a : Axis) : LinkedParent :=
  mkLinkedParent (ident a) (columns a).

(** [otherAxis === parentAxis]. *)
Definition sameObject (otherAxis : Axis) (parentAxis : option LinkedParent)
    : bool :=
  match parentAxis with
  | Some p => (ident otherAxis =? p_ident p)%nat
  | None => false
  end.

(** [axis.linkedParent && axis.linkedParent.columns || axis.columns]. *)
Definition columnsOf (axis : Axis) : option (list nat) :=
  match linkedParent axis with
  | Some p =>
      match p_columns p with
      | Some c => Some c
      | None => columns axis
      end
  | None => columns axis
  end.

(** [columnIndex ? axis.linkedParent : axis]. *)
Definition parentAxisOf (axis : Axis) : option LinkedParent :=
  match columnIndex axis with
  | Some (S _) => linkedParent axis
  | _ => Some (asParent axis)
  end.

(** [otherAxis.side === axis.side && !otherAxis.options.isInternal]. *)
Definition counts (axis otherAxis : Axis) : bool :=
  sameSide (side otherAxis) (side axis) && negb (isInternal otherAxis).

(** The callback of [chart[axis.coll].forEach] on the pair
    [(thisIndex, lastIndex)]. *)
Definition visit (axis : Axis) (parentAxis : option LinkedParent)
    (st : Z * Z) (entry : nat * Axis) : Z * Z :=
  let '(index, otherAxis) := entry in
  let '(thisIndex, lastIndex) := st in
  if counts axis otherAxis then
    if sameObject otherAxis parentAxis
    then (Z.of_nat index, Z.of_nat index)
    else (thisIndex, Z.of_nat index)
  else (thisIndex, lastIndex).

(** [axis.isOuterAxis()] over the collection [chart[axis.coll]]; [None] is
    the [TypeError] of reading [length] of [columns] when it is
    undefined. *)
Definition isOuterAxis (coll : list Axis) (axis : Axis) : option bool :=
  let columnIndex := columnIndex axis in
  let columns := columnsOf axis in
  let parentAxis := parentAxisOf axis in
  let '(thisIndex, lastIndex) :=
    fold_left (visit axis parentAxis)
              (combine (seq 0 (length coll)) coll)
              ((-1)%Z, 0%Z) in
  if (lastIndex =? thisIndex)%Z then
    match columnIndex with
    | Some k =>
        match columns with
        | Some c => Some (length c =? k)%nat
        | None => None
        end
    | None => Some true
    end
  else Some false.

(** *** The [afterGetLabelPosition] handler of [Tick] *)

Record Chart : Type := mkChart {
  chartHeight : Q;
  chartWidth : Q
}.

(** What the handler reads of the axis of the tick.  [tickSize] is the
    result of [axis.tickSize('tick', true)], an array or undefined;
    [gridEnabled] is [options.grid.enabled === true]. *)
Record TickAxis : Type := mkTickAxis {
  t_reversed : bool;
  t_side : Side;
  t_left : Q;
  t_right : Q;
  t_top : Q;
  t_bottom : Q;
  t_len : Q;
  t_offset : Q;
  t_max : Q;
  t_tickPositions : list Q;
  t_translate : Q -> Q;
  t_tickSize : option (list Q);
  t_gridEnabled : bool
}.

(** The cell of a tick label.  [left] and [right] are [None] where
    JavaScript computes [NaN] (a [tickSize] that is undefined or has no
    second entry, on a horizontal axis). *)
Record Cell : Type := mkCell {
  c_bottom : Q;
  c_top : Q;
  c_left : option Q;
  c_right : option Q
}.

(** [tickSize && tickSize[1] / 2]; [None] is undefined or [NaN]. *)
Definition crispCorrOf (tickSize : option (list Q)) : option Q :=
  match tickSize with
  | Some ts =>
      match nth_error ts 1 with
      | Some w => Some (w / 2)
      | None => None
      end
  | None => None
  end.

(** [isArray(tickSize) ? tickSize[0] : 0]. *)
Definition tickWidthOf (tickSize : option (list Q)) : Q :=
  match tickSize with
  | Some ts => nth 0 ts 0
  | None => 0
  end.

(** [Math.round(v) - crispCorr]. *)
Definition crisp (v : Q) (crispCorr : option Q) : option Q :=
  match crispCorr with
  | Some c => Some (inject_Z (JS.round v) - c)
  | None => None
  end.

(** [nextTickPos]: the next tick position less the offset, or, after the
    last tick, [axis.max + tickmarkOffset]. *)
Definition nextTickPosOf (axis : TickAxis) (tickmarkOffset : Q) (index : nat)
    : Q :=
  match nth_error (t_tickPositions axis) (index + 1) with
  | Some next => next - tickmarkOffset
  | None => t_max axis + tickmarkOffset
  end.

(** The cell the handler computes for the tick at [pos] when the grid is
    enabled: [e.tickmarkOffset] and [e.index] are the event's. *)
Definition cellBounds (chart : Chart) (axis : TickAxis) (pos : Q)
    (tickmarkOffset : Q) (index : nat) : Cell :=
  let reversed := t_reversed axis in
  let tickPos := pos - tickmarkOffset in
  let nextTickPos := nextTickPosOf axis tickmarkOffset index in
  let tickSize := t_tickSize axis in
  let tickWidth := tickWidthOf tickSize in
  let crispCorr := crispCorrOf tickSize in
  let translate := t_translate axis in
  let '(bottom, top) :=
    match t_side axis with
    | Top =>
        let bottom := t_top axis + t_offset axis in
        (bottom, bottom - tickWidth)
    | Bottom =>
        let top := chartHeight chart - t_bottom axis + t_offset axis in
        (top + tickWidth, top)
    | _ =>
        (t_top axis + t_len axis
         - translate (if reversed then nextTickPos else tickPos),
         t_top axis + t_len axis
         - translate (if reversed then tickPos else nextTickPos))
    end in
  let '(left_, right_) :=
    match t_side axis with
    | Right =>
        let left_ := chartWidth chart - t_right axis + t_offset axis in
        (Some left_, Some (left_ + tickWidth))
    | Left =>
        let right_ := t_left axis + t_offset axis in
        (Some (right_ - tickWidth), Some right_)
    | _ =>
        (crisp (t_left axis
                + translate (if reversed then nextTickPos else tickPos))
               crispCorr,
         crisp (t_left axis
                + translate (if reversed then tickPos else nextTickPos))
               crispCorr)
    end in
  {| c_bottom := bottom; c_top := top; c_left := left_; c_right := right_ |}.

(** The handler: nothing is computed unless the grid is enabled.  Of its
    results the model keeps the cell; the label anchor [e.pos], which is
    derived from the cell, the alignment and the font metrics, is left
    out. *)
Definition labelCell (chart : Chart) (axis : TickAxis) (pos : Q)
    (tickmarkOffset : Q) (index : nat) : option Cell :=
  if t_gridEnabled axis
  then Some (cellBounds chart axis pos tickmarkOffset index)
  else None.

(** [tick.slotWidth = right - left]. *)
Definition slotWidth (cell : Cell) : option Q :=
  match c_left cell, c_right cell with
  | Some l, Some r => Some (r - l)
  | _, _ => None
  end.

(** *** Axes used in examples *)

(** Three axes on the left side, none internal, none a column. *)
Definition mockAxis (i : nat) : Axis := mkAxis i Left false None None None.
Definition mockAxes : list Axis := [mockAxis 0; mockAxis 1; mockAxis 2].


End GridAxis.

(** ** The words of the grid claims *)

Module SpecGrid.

Import GridAxis.

(** Among the axes of [coll] that count for [axis] (same side, not
    internal), the one with the highest index is the object [parent]. *)
Definition highestCounting (coll : list Axis) (axis : Axis)
    (parent : option LinkedParent) : Prop :=
  exists k a,
    nth_error coll k = Some a /\
    counts axis a = true /\
    sameObject a parent = true /\
    forall j b, (k < j)%nat -> nth_error coll j = Some b ->
                counts axis b = false.

(** An axis with a numeric [columnIndex] is the last column:
    [columns.length === columnIndex]. *)
Definition lastColumn (axis : Axis) : Prop :=
  forall k, columnIndex axis = Some k ->
    exists c, columnsOf axis = Some c /\ length c = k.

End SpecGrid.

(** ** Inputs whose quotients have no finite decimal expansion *)

Module ExamplesRounding.

Import JS.
Local Open Scope Q_scope.

(** [yData = [1, 1, 2]] over [xData = [0, 1, 2]]: the mean of the three
    values is 4/3. *)
Definition thirds : SMAIndicator.Series :=
  SMAIndicator.mkSeries [0; 1; 2] (map YNum [1; 1; 2]).

(** One OHLC row with high 3, low 0 and close 1: [K] is 100/3. *)
Definition oneThird : SMAIndicator.Series :=
  SMAIndicator.mkSeries [0] [Examples.ohlc 1 3 0 1].

(** A chart whose first series is the linked series. *)
Definition chart : EMAIndicator.Chart := EMAIndicator.mkChart true 0.

End ExamplesRounding.

(** ** A projection without rotation *)

Module Orthographic.

Import Renderer3D.

(** The projection that leaves every point where it is: the view along
    the z axis. *)
Definition orthographic : Perspective := fun points _ _ => points.

End Orthographic.

Module Variwide.

Import JS.
Local Open Scope Q_scope.

(** What the series code reads of [this.xAxis]; [variwide] is the flag
    [processData] sets on an axis that has categories. *)
Record XAxis : Type := mkXAxis {
  reversed : bool;
  len : Q;
  variwide : bool
}.

(** The two fields [processData] computes: [relZ] and [totalZ]. *)
Record Series : Type := mkSeries {
  relZ : list Q;
  totalZ : Q
}.

(** The callback of [forEach] in [processData]:
    [relZ[i] = totalZ; totalZ += z], [i] being the next index of [relZ]. *)
Definition accumulateZ (s : Series) (z : Q) : Series :=
  {| relZ := relZ s ++ [totalZ s]; totalZ := totalZ s + z |}.

(** [zData] in the order of the axis:
    [xAxis.reversed ? zData.slice().reverse() : zData]. *)
Definition axisOrder (reversed : bool) (zData : list Q) : list Q :=
  if reversed then rev zData else zData.

(** [processData()], after [column.prototype.processData] has filled
    [zData]. *)
Definition processData (reversed : bool) (zData : list Q) : Series :=
  fold_left accumulateZ (axisOrder reversed zData)
            {| relZ := []; totalZ := 0 |}.

(** [arr[i]] for an integer [i]; [None] is undefined. *)
Definition at_ (arr : list Q) (i : Z) : option Q :=
  if (i <? 0)%Z then None else nth_error arr (Z.to_nat i).

(** The slot of [postTranslate]: [i], [goRight] and the four edges. *)
Definition slotIndex (axis : XAxis) (s : Series) (index : Z) : Z :=
  if reversed axis then (Z.of_nat (length (relZ s)) - index)%Z else index.

Definition goRight (axis : XAxis) : Z :=
  if reversed axis then (-1)%Z else 1%Z.

Definition slotLeft (axis : XAxis) (s : Series) (index : Z) : Q :=
  Renderer3D.pick (at_ (relZ s) (slotIndex axis s index)) (totalZ s)
  / totalZ s * len axis.

Definition slotRight (axis : XAxis) (s : Series) (index : Z) : Q :=
  Renderer3D.pick (at_ (relZ s) (slotIndex axis s index + goRight axis))
                  (totalZ s)
  / totalZ s * len axis.

(** [postTranslate(index, x, point)]: the returned position. *)
Definition postTranslate (axis : XAxis) (s : Series) (index : Z) (x : Q) : Q :=
  let n := inject_Z (Z.of_nat (length (relZ s))) in
  let i := slotIndex axis s index in
  let linearSlotLeft := inject_Z i / n * len axis in
  let linearSlotRight := inject_Z (i + goRight axis) / n * len axis in
  let xInsideLinearSlot := x - linearSlotLeft in
  slotLeft axis s index
  + xInsideLinearSlot * (slotRight axis s index - slotLeft axis s index)
    / (linearSlotRight - linearSlotLeft).

(** [point.crosshairWidth] as [postTranslate] sets it when it is given a
    point. *)
Definition crosshairWidth (axis : XAxis) (s : Series) (index : Z) : Q :=
  slotRight axis s index - slotLeft axis s index.

(** [a % m] on numbers: the remainder that has the sign of [a]. *)
Definition truncate (q : Q) : Z :=
  if Qle_bool 0 q then Qfloor q else Qceiling q.

Definition remainder (a m : Q) : Q := a - m * inject_Z (truncate (a / m)).

(** What [translate] reads and writes of a point: [shapeArgs.x],
    [shapeArgs.width], [plotX], [x], [z], [tooltipPos[0]], [tooltipPos[1]]
    and [crosshairWidth] ([None] while it is not set). *)
Record Point : Type := mkPoint {
  shapeX : Q;
  shapeWidth : Q;
  plotX : Q;
  px : Q;
  pz : Q;
  tooltipPos : Q * Q;
  pointCrosshairWidth : option Q
}.

(** What [translate] reads of the series and the chart: [options.crisp],
    [borderWidth] and [chart.inverted]. *)
Record Options : Type := mkOptions {
  crisp : bool;
  borderWidth : Q;
  inverted : bool
}.

(** The callback of [this.points.forEach] in [translate], after
    [column.prototype.translate] has computed the undistorted shapes;
    [translate] is [xAxis.translate(v, 0, 0, 0, 1)]. *)
Definition distort (axis : XAxis) (s : Series) (translate : Q -> Q)
    (options : Options) (i : nat) (point : Point) : Point :=
  let crispCorr := remainder (borderWidth options) 2 / 2 in
  let left0 :=
    if variwide axis
    then postTranslate axis s (Z.of_nat i) (shapeX point)
    else plotX point in
  let right0 :=
    if variwide axis
    then postTranslate axis s (Z.of_nat i) (shapeX point + shapeWidth point)
    else translate (px point + pz point) in
  let left_ :=
    if crisp options then inject_Z (JS.round left0) - crispCorr else left0 in
  let right_ :=
    if crisp options then inject_Z (JS.round right0) - crispCorr else right0 in
  let x1 := left_ in
  let width1 := Qmax (right_ - left_) 1 in
  {| shapeX := x1;
     shapeWidth := width1;
     plotX := (left_ + right_) / 2;
     px := px point;
     pz := pz point;
     tooltipPos :=
       if negb (inverted options)
       then (x1 + width1 / 2, snd (tooltipPos point))
       else (fst (tooltipPos point), len axis - x1 - width1 / 2);
     pointCrosshairWidth :=
       if variwide axis
       then Some (crosshairWidth axis s (Z.of_nat i))
       else pointCrosshairWidth point |}.

(** [translate()]: every point distorted, with its index. *)
Definition translate (axis : XAxis) (s : Series) (axisTranslate : Q -> Q)
    (options : Options) (points : list Point) : list Point :=
  map (fun ip => distort axis s axisTranslate options (fst ip) (snd ip))
      (combine (seq 0 (length points)) points).

(** [Tick.prototype.postTranslate(xy, xOrY, index)]: the new value of
    [xy[xOrY]]; [axisPos] is [axis.pos], [horiz] is [axis.horiz] and [s] is
    [axis.series[0]]. *)
Definition tickPostTranslate (axis : XAxis) (axisPos : Q) (horiz : bool)
    (s : Series) (v : Q) (index : Z) : Q :=
  let pos0 := v - axisPos in
  let pos1 := if negb horiz then len axis - pos0 else pos0 in
  let pos2 := postTranslate axis s index pos1 in
  let pos3 := if negb horiz then len axis - pos2 else pos2 in
  axisPos + pos3.

(** *** A series used in examples: three columns of [z] 1, 2 and 1 on an
    axis of 400 pixels. *)
Definition exampleZ : list Q := [1; 2; 1].
Definition exampleAxis : XAxis := mkXAxis false 400 true.
Definition examplePoint : Point :=
  mkPoint ((1 + 0) / 3 * 400) (1 / 3 * 400) 0 1 2 (0, 0) None.

End Variwide.

Module SpecVariwide.

Import Variwide.
Local Open Scope Q_scope.

(** The pixel at which the first [k] columns end: the share of their [z]
    in the total, times the axis length. *)
Definition share (zs : list Q) (len : Q) (k : nat) : Q :=
  Spec.Qsum (firstn k zs) / Spec.Qsum zs * len.

End SpecVariwide.

(** ** Required indicators *)

Module RequiredIndicators.

(** [Highcharts.SMAIndicatorRequireIndicatorsObject]; [needed] is [None]
    while it is not set. *)
Record RequireIndicatorsObject (Name : Type) : Type := mkRequire {
  allLoaded : bool;
  needed : option Name
}.

Arguments mkRequire {Name} _ _.
Arguments allLoaded {Name} _.
Arguments needed {Name} _.

(** The callback of [this.requiredIndicators.forEach]; [loaded indicator]
    is the truth of [seriesTypes[indicator]].  For a loaded indicator the
    callback calls its [requireIndicators] and drops the answer. *)
Definition check {Name : Type} (loaded : Name -> bool)
    (obj : RequireIndicatorsObject Name) (indicator : Name)
    : RequireIndicatorsObject Name :=
  if loaded indicator then obj
  else {| allLoaded := false; needed := Some indicator |}.

(** [requireIndicators()]. *)
Definition requireIndicators {Name : Type} (loaded : Name -> bool)
    (requiredIndicators : list Name) : RequireIndicatorsObject Name :=
  fold_left (check loaded) requiredIndicators
            {| allLoaded := true; needed := None |}.

End RequiredIndicators.

(** ** Grid axis: label dimensions, tick size and trimmed ticks *)

Module GridLabels.

Local Open Scope Q_scope.

(** What [getMaxLabelDimensions] reads of a label element: its bounding box
    ([getBBox().width], [getBBox().height]), whether [textStr] is truthy,
    and [textPxLength] ([None] when it is not a number). *)
Record SVGElement : Type := mkLabel {
  bboxWidth : Q;
  bboxHeight : Q;
  textStr : bool;
  textPxLength : option Q
}.

(** A tick object; [label] is [None] when [tick.label] is not an object, in
    which case the code works on [{}]. *)
Record Tick : Type := mkTick {
  label : option SVGElement
}.

(** [Highcharts.SizeObject]. *)
Record SizeObject : Type := mkSize {
  width : Q;
  height : Q
}.

(** [label.textPxLength] after
    [if (label.textStr && !isNumber(label.textPxLength))
       label.textPxLength = label.getBBox().width]. *)
Definition measuredTextPxLength (l : SVGElement) : option Q :=
  match textPxLength l with
  | Some w => Some w
  | None => if textStr l then Some (bboxWidth l) else None
  end.

(** [tickHeight]: [label.getBBox ? label.getBBox().height : 0]. *)
Definition tickHeight (tick : Tick) : Q :=
  match label tick with
  | Some l => bboxHeight l
  | None => 0
  end.

(** [tickWidth]:
    [isNumber(label.textPxLength) ? Math.round(label.textPxLength) : 0]. *)
Definition tickWidth (tick : Tick) : Q :=
  match label tick with
  | Some l =>
      match measuredTextPxLength l with
      | Some w => inject_Z (JS.round w)
      | None => 0
      end
  | None => 0
  end.

(** The callback of [tickPositions.forEach]; [ticks pos] is [ticks[pos]],
    [None] when it is not an object. *)
Definition visitTick {K : Type} (ticks : K -> option Tick)
    (dimensions : SizeObject) (pos : K) : SizeObject :=
  match ticks pos with
  | Some tick =>
      {| width := Qmax (tickWidth tick) (width dimensions);
         height := Qmax (tickHeight tick) (height dimensions) |}
  | None => dimensions
  end.

(** [axis.getMaxLabelDimensions(ticks, tickPositions)].  The width the call
    caches in [label.textPxLength] is the one it would measure again, so
    the cache has no part in the result. *)
Definition getMaxLabelDimensions {K : Type} (ticks : K -> option Tick)
    (tickPositions : list K) : SizeObject :=
  fold_left (visitTick ticks) tickPositions {| width := 0; height := 0 |}.

(** The [afterTickSize] handler: [e.tickSize] after it.  [labelsX] is
    [axis.defaultLeftAxisOptions.labels.x] and [dimensions] is
    [axis.maxLabelDimensions]. *)
Definition afterTickSize (gridEnabled : bool) (labelsX : Q) (horiz : bool)
    (dimensions : SizeObject) (tickSize : option (list Q))
    : option (list Q) :=
  if gridEnabled then
    let labelPadding := Qabs labelsX * 2 in
    let distance :=
      labelPadding + (if horiz then height dimensions else width dimensions) in
    match tickSize with
    | Some (_ :: rest) => Some (distance :: rest)
    | Some [] => Some [distance]
    | None => Some [distance]
    end
  else tickSize.

End GridLabels.

Module GridTicks.

Local Open Scope Q_scope.

(** What the [trimTicks] handler reads of the axis.  [linkedMin] and
    [linkedMax] are [axis.linkedParent && axis.linkedParent.min] (and
    [.max]), [None] when there is no linked parent or the value is not set;
    [axisMin] and [axisMax] are [axis.min] and [axis.max]. *)
Record Axis : Type := mkAxis {
  gridEnabled : bool;
  categories : bool;
  horiz : bool;
  isLinked : bool;
  startOnTick : bool;
  endOnTick : bool;
  tickPositions : list Q;
  tickInterval : Q;
  linkedMin : option Q;
  linkedMax : option Q;
  axisMin : option Q;
  axisMax : option Q
}.

(** [a || b] on optional numbers: [a] unless it is undefined or [0]. *)
Definition orElse (a b : option Q) : option Q :=
  match a with
  | Some v => if Qeq_bool v 0 then b else Some v
  | None => b
  end.

(** [a < b] when a side may be undefined: a comparison with undefined is
    false. *)
Definition ltOpt (a b : option Q) : bool :=
  match a, b with
  | Some x, Some y => negb (Qle_bool y x)
  | _, _ => false
  end.

(** [a + d] and [a - d] for a position that may be undefined. *)
Definition plusOpt (a : option Q) (d : Q) : option Q :=
  match a with
  | Some x => Some (x + d)
  | None => None
  end.

(** [arr[i] = v] on an array that has an entry at [i]. *)
Fixpoint setAt (arr : list Q) (i : nat) (v : Q) : list Q :=
  match arr, i with
  | [], _ => []
  | _ :: rest, O => v :: rest
  | a :: rest, S j => a :: setAt rest j v
  end.

(** [tickPositions[i] = v] for a value that may be undefined; the handler
    writes only when the comparisons have found the value defined. *)
Definition setAtOpt (arr : list Q) (i : nat) (v : option Q) : list Q :=
  match v with
  | Some q => setAt arr i q
  | None => arr
  end.

(** The [trimTicks] handler: [axis.tickPositions] after it. *)
Definition trimTicks (axis : Axis) : list Q :=
  let tickPositions := tickPositions axis in
  let firstPos := nth_error tickPositions 0 in
  let lastPos := nth_error tickPositions (length tickPositions - 1) in
  let min := orElse (linkedMin axis) (axisMin axis) in
  let max := orElse (linkedMax axis) (axisMax axis) in
  let tickInterval := tickInterval axis in
  let endMoreThanMin :=
    ltOpt firstPos min && ltOpt min (plusOpt firstPos tickInterval) in
  let startLessThanMax :=
    ltOpt max lastPos && ltOpt (plusOpt lastPos (- tickInterval)) max in
  if gridEnabled axis && negb (categories axis)
     && (horiz axis || isLinked axis)
  then
    let tickPositions1 :=
      if endMoreThanMin && negb (startOnTick axis)
      then setAtOpt tickPositions 0 min
      else tickPositions in
    if startLessThanMax && negb (endOnTick axis)
    then setAtOpt tickPositions1 (length tickPositions1 - 1) max
    else tickPositions1
  else tickPositions.

End GridTicks.

Module SpecGridLabels.

Import GridAxis.

(** The sides of a horizontal axis: [top] and [bottom]. *)
Definition horizontalSide (s : Side) : bool :=
  match s with
  | Top | Bottom => true
  | _ => false
  end.

(** *** A vertical grid axis used in examples: labels 30 pixels wide and
    12 high at the ticks 0 and 1, on the left side, with the tick size the
    [afterTickSize] handler leaves for a label offset of -15. *)
Definition exampleTicks (pos : nat) : option GridLabels.Tick :=
  Some (GridLabels.mkTick (Some (GridLabels.mkLabel 30 12 true None))).

Definition exampleColumnAxis : TickAxis :=
  {| t_reversed := false; t_side := Left;
     t_left := 100; t_right := 10; t_top := 10; t_bottom := 40;
     t_len := 300; t_offset := 0; t_max := 1;
     t_tickPositions := [0; 1]%Q;
     t_translate := fun v => (v * 150)%Q;
     t_tickSize :=
       GridLabels.afterTickSize true (- (15))%Q false
         (GridLabels.getMaxLabelDimensions exampleTicks [0%nat; 1%nat])
         (Some [10; 1]%Q);
     t_gridEnabled := true |}.

End SpecGridLabels.

(** ** Grid axis: the column axes of [onGridAxisAfterInit] *)

Module GridColumns.

Import GridAxis.

Section Columns.

(** The type of the entries of [gridOptions.columns] (axis options). *)
Context {Opt : Type}.

(** [new Axis(axis.chart, merge(userOptions, columnOptions, {linkedTo: 0,
    type: 'category'}), true)], which is outside the sources: the axis
    object built for an entry of [gridOptions.columns] (undefined is
    [None]). *)
Variable construct : option Opt -> Axis.

(** [column.columnIndex = columnIndex]. *)
Definition withColumnIndex (a : Axis) (k : nat) : Axis :=
  mkAxis (ident a) (side a) (isInternal a) (Some k) (columns a)
         (linkedParent a).

(** The axes pushed to [columns] by
    [while (++columnIndex < gridOptions.columns.length)], in the order of
    the pushes; the entry used is
    [gridOptions.columns[length - columnIndex - 1]]. *)
Definition createColumns (gridColumns : list Opt) : list Axis :=
  let len := length gridColumns in
  map (fun columnIndex =>
         withColumnIndex
           (construct (nth_error gridColumns (len - columnIndex - 1)))
           columnIndex)
      (seq 1 (len - 1)).

(** [onGridAxisAfterInit]: the axis and its column axes after the handler;
    without [gridOptions.columns] nothing is created. *)
Definition onGridAxisAfterInit (axis : Axis) (gridColumns : option (list Opt))
    : Axis * list Axis :=
  match gridColumns with
  | Some cols =>
      let created := createColumns cols in
      (mkAxis (ident axis) (side axis) (isInternal axis) (Some 0%nat)
              (Some (map ident created)) (linkedParent axis),
       created)
  | None => (axis, [])
  end.

(** [onGridAxisAfterSetOptions]: the entry merged into the options of the
    axis itself, [columns[columns.length - 1]]. *)
Definition parentColumnOptions (gridColumns : list Opt) : option Opt :=
  match gridColumns with
  | [] => None
  | _ => nth_error gridColumns (length gridColumns - 1)
  end.

End Columns.

End GridColumns.

(** ** Grid axis: the tick positioner of a secondary axis *)

Module GridUnits.

Import String.
Local Open Scope string_scope.
Local Open Scope Q_scope.

(** An entry of [units]: the name of a time unit and the multiples that are
    allowed of it, or null. *)
Definition Unit : Type := (string * option (list Q))%type.

(** The [units] of the default grid axis options. *)
Definition defaultUnits : list Unit :=
  [ ("millisecond", Some [1; 10; 100]);
    ("second", Some [1; 10]);
    ("minute", Some [1; 5; 15]);
    ("hour", Some [1; 6]);
    ("day", Some [1]);
    ("week", Some [1]);
    ("month", Some [1]);
    ("year", None) ].

(** [for (i = 0; i < units.length; i++)
      if (units[i][0] === unitName) { unitIdx = i; break; }]: [unitIdx],
    [None] when it stays undefined; [i] is the index of the head of
    [units]. *)
Fixpoint findUnit (units : list Unit) (unitName : string) (i : nat)
    : option nat :=
  match units with
  | [] => None
  | (name, _) :: rest =>
      if String.eqb name unitName then Some i
      else findUnit rest unitName (S i)
  end.

(** What the positioner does: it throws a [TypeError], returns undefined
    (the default ticks are used), or sets [tickInterval] and returns the
    time ticks of a normalised interval
    [{unitRange, count, unitName}]; a field is [None] where JavaScript has
    undefined or [NaN]. *)
Inductive Answer : Type :=
| TypeError
| Undefined
| TimeTicks (unitRange count : option Q) (unitName : option string)
            (tickInterval : option Q).

(** [a * b] where a factor may be undefined. *)
Definition times (a b : option Q) : option Q :=
  match a, b with
  | Some x, Some y => Some (x * y)
  | _, _ => None
  end.

(** The [tickPositioner] of a linked grid axis.  [units] is
    [gridAxisOptions.units], [timeUnits] is [H.timeUnits] and
    [parentUnitName] is the [unitName] of the [info] of the tick positions
    of the linked parent, [None] when there is no such [info]. *)
Definition tickPositioner (units : list Unit) (timeUnits : string -> option Q)
    (parentUnitName : option string) : Answer :=
  match parentUnitName with
  | None => Undefined
  | Some parentName =>
      match findUnit units parentName 0 with
      | None => TypeError
      | Some unitIdx =>
          match nth_error units unitIdx with
          | None => TypeError
          | Some (_, None) => Undefined
          | Some (_, Some _) =>
              let next := nth_error units (unitIdx + 1) in
              let unitName := option_map fst next in
              let count :=
                match next with
                | Some (_, Some allowed) => nth_error allowed 0
                | Some (_, None) => Some 1
                | None => None
                end in
              let unitRange :=
                match unitName with
                | Some name => timeUnits name
                | None => None
                end in
              TimeTicks unitRange count unitName (times unitRange count)
          end
      end
  end.

(** One unit of [name]: the interval [{unitRange: timeUnits[name],
    count: 1, unitName: name}]. *)
Definition oneUnitOf (timeUnits : string -> option Q) (name : string)
    : Answer :=
  TimeTicks (timeUnits name) (Some 1) (Some name)
            (times (timeUnits name) (Some 1)).

End GridUnits.

(** ** 3D shapes: [toLineSegments] and the faces of a polyhedron *)

Module Polyhedron.

Import Renderer3D.
Local Open Scope Q_scope.

(** The callback of [points.forEach] in [toLineSegments] on the pair
    [(result, m)]: [result.push(m ? 'M' : 'L', point.x, point.y); m = !m]. *)
Definition pushSegmentPoint (st : SVGPathArray * bool)
    (point : Position3dObject) : SVGPathArray * bool :=
  let '(result, m) := st in
  (result ++ [if m then M else L; Num (x point); Num (y point)], negb m).

(** [SVGRenderer.prototype.toLineSegments(points)]. *)
Definition toLineSegments (points : list Position3dObject) : SVGPathArray :=
  fst (fold_left pushSegmentPoint points ([], true)).

(** [while (result.faces.length > n) result.faces.pop().destroy()] on the
    pair of the faces and the faces destroyed so far; [surplus] is the
    number of turns. *)
Fixpoint popFaces (surplus : nat) (st : list Face * list Face)
    : list Face * list Face :=
  match surplus with
  | O => st
  | S k =>
      let '(faces, destroyed) := st in
      popFaces k (removelast faces,
                  destroyed ++ match rev faces with
                               | last :: _ => [last]
                               | [] => []
                               end)
  end.

(** [while (result.faces.length < n)
      result.faces.push(renderer.face3d().add(result))]. *)
Fixpoint pushFaces (missing : nat) (faces : list Face) : list Face :=
  match missing with
  | O => faces
  | S k => pushFaces k (faces ++ [newFace])
  end.

(** [for (i = 0; i < hash.faces.length; i++)
      result.faces[i].attr(hash.faces[i], ...)], with the method [update]
    of the face ([attr] or [animate]). *)
Fixpoint updateFaces (update : Face -> SVGAttributes -> Face)
    (faces : list Face) (hashes : list SVGAttributes) : list Face :=
  match hashes, faces with
  | h :: hashes', f :: faces' => update f h :: updateFaces update faces' hashes'
  | _, _ => faces
  end.

(** The faces of the polyhedron and the faces destroyed after
    [result.attr(hash)] ([update] is the [attr] of a face) or
    [result.animate(params)] ([update] is its [animate]); [hashFaces] is
    [hash.faces], [None] when it is not defined. *)
Definition setFaces (update : Face -> SVGAttributes -> Face)
    (faces : list Face) (hashFaces : option (list SVGAttributes))
    : list Face * list Face :=
  match hashFaces with
  | Some hf =>
      let '(faces1, destroyed) :=
        popFaces (length faces - length hf) (faces, []) in
      let faces2 := pushFaces (length hf - length faces1) faces1 in
      (updateFaces update faces2 hf, destroyed)
  | None => (faces, [])
  end.

(** [polyhedron.attr(hash)] and [polyhedron.animate(params)]. *)
Definition attr (perspective : Perspective) (chart : Chart)
    (faces : list Face) (hashFaces : option (list SVGAttributes))
    : list Face * list Face :=
  setFaces (Renderer3D.attr perspective chart) faces hashFaces.

Definition animate (perspective : Perspective) (chart : Chart)
    (faces : list Face) (paramsFaces : option (list SVGAttributes))
    : list Face * list Face :=
  setFaces (Renderer3D.animate perspective chart) faces paramsFaces.

End Polyhedron.

Module SpecCuboid.

Import Renderer3D.
Local Open Scope Q_scope.

(** The weight of [y] in the z-index of a cuboid whose top is not picked
    first:
    [(alpha >= 0 && alpha <= 180 || alpha < 360 && alpha > 357.5)
       ? plotHeight - y : 10 + y]. *)
Definition yTerm (chart : Chart) (y0 : Q) : Q :=
  if (Qle_bool 0 (alpha chart) && Qle_bool (alpha chart) 180)
     || (negb (Qle_bool 360 (alpha chart))
         && negb (Qle_bool (alpha chart) (715 # 2)))
  then plotHeight chart - y0 else 10 + y0.

(** A second cuboid, five units behind the one of module [Spec3D]. *)
Definition boxBehind : CuboidArgs := mkCuboidArgs 10 20 5 30 40 50 false.

(** A disabled face and an update that gives it three vertexes. *)
Definition disabledFace : Face := mkFace false [] false None None.
Definition triangleUpdate : SVGAttributes :=
  mkAttributes None
    (Some [mkPosition 0 0 0; mkPosition 0 1 0; mkPosition 1 0 0])
    None None None.

End SpecCuboid.

(** ** 3D arcs: [curveTo] and the paths of [arc3dPath] *)

Module ArcPaths.

Import Arc3D.
Local Open Scope R_scope.

(** An entry of the path arrays of the arc code: a command letter or a
    number. *)
Inductive SVGPathItem : Type :=
| M
| L
| C
| Z
| Num (v : R).

(** [dFactor = (4 * (Math.sqrt(2) - 1) / 3) / (PI / 2)]. *)
Definition dFactor : R := (4 * (sqrt 2 - 1) / 3) / (PI / 2).

(** The curve [curveTo] returns when it does not split the arc: one
    ['C'] command from the angle [start] to the angle [end_]. *)
Definition curveSegment (cx cy rx ry start end_ dx dy : R)
    : list SVGPathItem :=
  let arcAngle := end_ - start in
  [ C;
    Num (cx + (rx * cos start) - ((rx * dFactor * arcAngle) * sin start) + dx);
    Num (cy + (ry * sin start) + ((ry * dFactor * arcAngle) * cos start) + dy);
    Num (cx + (rx * cos end_) + ((rx * dFactor * arcAngle) * sin end_) + dx);
    Num (cy + (ry * sin end_) - ((ry * dFactor * arcAngle) * cos end_) + dy);
    Num (cx + (rx * cos end_) + dx);
    Num (cy + (ry * sin end_) + dy) ].

(** [curveTo(cx, cy, rx, ry, start, end, dx, dy)] with a bound on the depth
    of the recursion; [None] when the bound is reached. *)
Fixpoint curveToFuel (fuel : nat) (cx cy rx ry start end_ dx dy : R)
    : option (list SVGPathItem) :=
  match fuel with
  | O => None
  | S f =>
      if Rlt_dec start end_ then
        if Rlt_dec (PI / 2 + 1 / 10000) (end_ - start) then
          match curveToFuel f cx cy rx ry start (start + PI / 2) dx dy,
                curveToFuel f cx cy rx ry (start + PI / 2) end_ dx dy with
          | Some p1, Some p2 => Some (p1 ++ p2)
          | _, _ => None
          end
        else Some (curveSegment cx cy rx ry start end_ dx dy)
      else if Rlt_dec end_ start then
        if Rlt_dec (PI / 2 + 1 / 10000) (start - end_) then
          match curveToFuel f cx cy rx ry start (start - PI / 2) dx dy,
                curveToFuel f cx cy rx ry (start - PI / 2) end_ dx dy with
          | Some p1, Some p2 => Some (p1 ++ p2)
          | _, _ => None
          end
        else Some (curveSegment cx cy rx ry start end_ dx dy)
      else Some (curveSegment cx cy rx ry start end_ dx dy)
  end.

(** A depth that the recursion does not reach: one more than the number of
    quarter turns in the arc, rounded up. *)
Definition curveDepth (start end_ : R) : nat :=
  S (Z.to_nat (up (Rabs (end_ - start) / (PI / 2)))).

(** [curveTo(cx, cy, rx, ry, start, end, dx, dy)]. *)
Definition curveTo (cx cy rx ry start end_ dx dy : R) : list SVGPathItem :=
  match curveToFuel (curveDepth start end_) cx cy rx ry start end_ dx dy with
  | Some p => p
  | None => []
  end.

(** [a < b] as a test. *)
Definition ltb (a b : R) : bool := if Rlt_dec a b then true else false.

(** ['L', x, y]. *)
Definition lineTo (px py : R) : list SVGPathItem := [L; Num px; Num py].

(** The path [out] of [arc3dPath]: the outer wall from [start2] to [end2]
    and back along the lower edge, with the extra walls of a slice that
    crosses the right edge ([midEnd]) or only the left edge ([PI - a]). *)
Definition outPath (cx cy rx ry dx dy start end_ start2 end2 midEnd a : R)
    : list SVGPathItem :=
  let out0 :=
    [M; Num (cx + (rx * cos start2)); Num (cy + (ry * sin start2))]
    ++ curveTo cx cy rx ry start2 end2 0 0 in
  let out1 :=
    if ltb midEnd end_ && ltb start midEnd then
      out0
      ++ lineTo (cx + (rx * cos end2) + dx) (cy + (ry * sin end2) + dy)
      ++ curveTo cx cy rx ry end2 midEnd dx dy
      ++ lineTo (cx + (rx * cos midEnd)) (cy + (ry * sin midEnd))
      ++ curveTo cx cy rx ry midEnd end_ 0 0
      ++ lineTo (cx + (rx * cos end_) + dx) (cy + (ry * sin end_) + dy)
      ++ curveTo cx cy rx ry end_ midEnd dx dy
      ++ lineTo (cx + (rx * cos midEnd)) (cy + (ry * sin midEnd))
      ++ curveTo cx cy rx ry midEnd end2 0 0
    else if ltb (PI - a) end_ && ltb start (PI - a) then
      out0
      ++ lineTo (cx + (rx * cos end2) + dx) (cy + (ry * sin end2) + dy)
      ++ curveTo cx cy rx ry end2 end_ dx dy
      ++ lineTo (cx + (rx * cos end_)) (cy + (ry * sin end_))
      ++ curveTo cx cy rx ry end_ end2 0 0
    else out0 in
  out1
  ++ lineTo (cx + (rx * cos end2) + dx) (cy + (ry * sin end2) + dy)
  ++ curveTo cx cy rx ry end2 start2 dx dy
  ++ [Z].

(** The five paths of the object [arc3dPath] returns. *)
Record Arc3dPaths : Type := mkPaths {
  top : list SVGPathItem;
  out : list SVGPathItem;
  inn : list SVGPathItem;
  side1 : list SVGPathItem;
  side2 : list SVGPathItem
}.

(** The paths [arc3dPath(shapeArgs)] returns. *)
Definition arc3dPaths (shapeArgs : ArcArgs) : Arc3dPaths :=
  let cx := x shapeArgs in
  let cy := y shapeArgs in
  let start := start shapeArgs in
  let end_ := end_ shapeArgs - 1 / 100000 in
  let r := r shapeArgs in
  let ir := orZero (innerR shapeArgs) in
  let d := orZero (depth shapeArgs) in
  let alpha := alpha shapeArgs in
  let beta := beta shapeArgs in
  let cs := cos start in
  let ss := sin start in
  let ce := cos end_ in
  let se := sin end_ in
  let rx := r * cos beta in
  let ry := r * cos alpha in
  let irx := ir * cos beta in
  let iry := ir * cos alpha in
  let dx := d * sin beta in
  let dy := d * sin alpha in
  (* TOP *)
  let top :=
    [M; Num (cx + (rx * cs)); Num (cy + (ry * ss))]
    ++ curveTo cx cy rx ry start end_ 0 0
    ++ lineTo (cx + (irx * ce)) (cy + (iry * se))
    ++ curveTo cx cy irx iry end_ start 0 0
    ++ [Z] in
  (* OUTSIDE *)
  let b := if ltb 0 beta then PI / 2 else 0 in
  let a := if ltb 0 alpha then 0 else PI / 2 in
  let start2 :=
    if ltb (- b) start then start
    else if ltb (- b) end_ then - b else start in
  let end2 :=
    if ltb end_ (PI - a) then end_
    else if ltb start (PI - a) then PI - a else end_ in
  let midEnd := 2 * PI - a in
  let out := outPath cx cy rx ry dx dy start end_ start2 end2 midEnd a in
  (* INSIDE *)
  let inn :=
    [M; Num (cx + (irx * cs)); Num (cy + (iry * ss))]
    ++ curveTo cx cy irx iry start end_ 0 0
    ++ lineTo (cx + (irx * cos end_) + dx) (cy + (iry * sin end_) + dy)
    ++ curveTo cx cy irx iry end_ start dx dy
    ++ [Z] in
  (* SIDES *)
  let side1 :=
    [M; Num (cx + (rx * cs)); Num (cy + (ry * ss))]
    ++ lineTo (cx + (rx * cs) + dx) (cy + (ry * ss) + dy)
    ++ lineTo (cx + (irx * cs) + dx) (cy + (iry * ss) + dy)
    ++ lineTo (cx + (irx * cs)) (cy + (iry * ss))
    ++ [Z] in
  let side2 :=
    [M; Num (cx + (rx * ce)); Num (cy + (ry * se))]
    ++ lineTo (cx + (rx * ce) + dx) (cy + (ry * se) + dy)
    ++ lineTo (cx + (irx * ce) + dx) (cy + (iry * se) + dy)
    ++ lineTo (cx + (irx * ce)) (cy + (iry * se))
    ++ [Z] in
  {| top := top; out := out; inn := inn; side1 := side1; side2 := side2 |}.

(** *** Well-formed paths *)

(** The commands of a closed subpath after its ['M']: ['C'] with six
    numbers or ['L'] with two, any number of times, then ['Z']. *)
Fixpoint isBody (p : list SVGPathItem) : bool :=
  match p with
  | [Z] => true
  | C :: Num _ :: Num _ :: Num _ :: Num _ :: Num _ :: Num _ :: rest =>
      isBody rest
  | L :: Num _ :: Num _ :: rest => isBody rest
  | _ => false
  end.

(** A closed subpath: ['M'] with a point, curves and lines, ['Z']. *)
Definition isClosedPath (p : list SVGPathItem) : bool :=
  match p with
  | M :: Num _ :: Num _ :: rest => isBody rest
  | _ => false
  end.

(** The curve segments over the consecutive angles of a list. *)
Fixpoint curveSegments (cx cy rx ry dx dy : R) (from : R) (angles : list R)
    : list SVGPathItem :=
  match angles with
  | [] => []
  | a :: rest =>
      curveSegment cx cy rx ry from a dx dy
      ++ curveSegments cx cy rx ry dx dy a rest
  end.

(** Every step of the angles from [from] on is at most a quarter turn and
    [1 / 10000] wide. *)
Fixpoint quarterSteps (from : R) (angles : list R) : Prop :=
  match angles with
  | [] => True
  | a :: rest => Rabs (a - from) <= PI / 2 + 1 / 10000 /\ quarterSteps a rest
  end.

End ArcPaths.

(** ** 3D arcs: the steps of [arc3d.animate] *)

Module ArcAnimation.

Import Arc3D.
Local Open Scope R_scope.

(** The custom attributes [suckOutCustom] takes out of the parameters:
    [x], [y], [r], [innerR], [start], [end]; [None] is a key that is not
    given. *)
Record CustomAttribs : Type := mkCustom {
  ca_x : option R;
  ca_y : option R;
  ca_r : option R;
  ca_innerR : option R;
  ca_start : option R;
  ca_end : option R
}.

(** [pick(to[key], from[key])]. *)
Definition pickR (a : option R) (b : R) : R :=
  match a with
  | Some v => v
  | None => b
  end.

(** [interpolate(key)] at [fx.pos = pos]:
    [from[key] + (pick(to[key], from[key]) - from[key]) * fx.pos]. *)
Definition interpolate (from : R) (to : option R) (pos : R) : R :=
  from + (pickR to from - from) * pos.

(** [interpolate('innerR')]: [NaN] ([None], read back as [0] by
    [shapeArgs.innerR || 0]) when [from.innerR] is not set. *)
Definition interpolateOpt (from to : option R) (pos : R) : option R :=
  match from with
  | Some f => Some (interpolate f to pos)
  | None => None
  end.

(** The attributes [anim.step] hands to [setPaths] at [fx.pos = pos]:
    [merge(from, {x: interpolate('x'), ...})]. *)
Definition step (from : ArcArgs) (to : CustomAttribs) (pos : R) : ArcArgs :=
  {| x := interpolate (x from) (ca_x to) pos;
     y := interpolate (y from) (ca_y to) pos;
     start := interpolate (start from) (ca_start to) pos;
     end_ := interpolate (end_ from) (ca_end to) pos;
     r := interpolate (r from) (ca_r to) pos;
     innerR := interpolateOpt (innerR from) (ca_innerR to) pos;
     depth := depth from;
     alpha := alpha from;
     beta := beta from |}.

(** The attributes [wrapper.attr(params)] hands to [setPaths]:
    [extend(wrapper.attribs, ca)]. *)
Definition extendAttribs (attribs : ArcArgs) (ca : CustomAttribs) : ArcArgs :=
  {| x := pickR (ca_x ca) (x attribs);
     y := pickR (ca_y ca) (y attribs);
     start := pickR (ca_start ca) (start attribs);
     end_ := pickR (ca_end ca) (end_ attribs);
     r := pickR (ca_r ca) (r attribs);
     innerR := match ca_innerR ca with
               | Some v => Some v
               | None => innerR attribs
               end;
     depth := depth attribs;
     alpha := alpha attribs;
     beta := beta attribs |}.

End ArcAnimation.

(** ** Export of data: [htmlencode] and the delimiters of [getCSV] *)

Module ExportData.

Import Ascii String.
Local Open Scope string_scope.

(** [s.replace(/c/g, by)] for a single character [c]. *)
Fixpoint replaceAll (c : ascii) (by_ : string) (s : string) : string :=
  match s with
  | EmptyString => EmptyString
  | String a rest =>
      if Ascii.eqb a c then by_ ++ replaceAll c by_ rest
      else String a (replaceAll c by_ rest)
  end.

(** The double quote character. *)
Definition doubleQuote : ascii := "034"%char.

(** [htmlencode(html)]. *)
Definition htmlencode (html : string) : string :=
  replaceAll "/" "&#x2F;"
    (replaceAll "'" "&#x27;"
       (replaceAll doubleQuote "&quot;"
          (replaceAll ">" "&gt;"
             (replaceAll "<" "&lt;"
                (replaceAll "&" "&amp;" html))))).

(** *** [Chart.prototype.getCSV] *)

(** A cell of the rows of [getDataRows]: a number or a string. *)
Inductive Cell : Type :=
| CNum (q : Q)
| CStr (s : string).

(** [options.exporting.csv]: [decimalPoint] and [itemDelimiter] are [None]
    when they are null or not set. *)
Record CsvOptions : Type := mkCsvOptions {
  decimalPoint : option string;
  itemDelimiter : option string;
  lineDelimiter : string
}.

(** [a === b] on an optional string and a string. *)
Definition isString (a : option string) (b : string) : bool :=
  match a with
  | Some s => String.eqb s b
  | None => false
  end.

(** [pick(a, b)] on strings. *)
Definition pickString (a : option string) (b : string) : string :=
  match a with
  | Some s => s
  | None => b
  end.

(** [decimalPoint]: [pick(csvOptions.decimalPoint,
      csvOptions.itemDelimiter !== ',' && useLocalDecimalPoint ?
        (1.1).toLocaleString()[1] : '.')]; [localePoint] is
    [(1.1).toLocaleString()[1]]. *)
Definition decimalPointOf (csvOptions : CsvOptions)
    (useLocalDecimalPoint : bool) (localePoint : string) : string :=
  pickString (decimalPoint csvOptions)
    (if negb (isString (itemDelimiter csvOptions) ",") && useLocalDecimalPoint
     then localePoint else ".").

(** [itemDelimiter]:
    [pick(csvOptions.itemDelimiter, decimalPoint === ',' ? ';' : ',')]. *)
Definition itemDelimiterOf (csvOptions : CsvOptions)
    (useLocalDecimalPoint : bool) (localePoint : string) : string :=
  pickString (itemDelimiter csvOptions)
    (if String.eqb
          (decimalPointOf csvOptions useLocalDecimalPoint localePoint) ","
     then ";" else ",").

(** [s.replace(c, by)] for a single character [c]: the first occurrence;
    the special patterns of a replacement text are not modelled. *)
Fixpoint replaceFirst (c : ascii) (by_ : string) (s : string) : string :=
  match s with
  | EmptyString => EmptyString
  | String a rest =>
      if Ascii.eqb a c then by_ ++ rest
      else String a (replaceFirst c by_ rest)
  end.

(** [arr.join(sep)]. *)
Fixpoint join (sep : string) (arr : list string) : string :=
  match arr with
  | [] => EmptyString
  | [s] => s
  | s :: rest => s ++ sep ++ join sep rest
  end.

(** The text of a cell in the CSV; [toString] is
    [Number.prototype.toString]. *)
Definition cellText (toString : Q -> string) (decimalPoint : string)
    (val : Cell) : string :=
  match val with
  | CStr s => String doubleQuote s ++ String doubleQuote EmptyString
  | CNum q =>
      if String.eqb decimalPoint "." then toString q
      else replaceFirst "." decimalPoint (toString q)
  end.

(** The callback of [rows.forEach] on [csv]: the row joined, and the line
    delimiter after every row but the last. *)
Definition addRow (toString : Q -> string) (decimalPoint itemDelimiter
    lineDelimiter : string) (rowsLength : nat) (csv : string)
    (entry : nat * list Cell) : string :=
  let '(i, row) := entry in
  let csv1 :=
    csv ++ join itemDelimiter (map (cellText toString decimalPoint) row) in
  if (Z.of_nat i <? Z.of_nat rowsLength - 1)%Z
  then csv1 ++ lineDelimiter else csv1.

(** [getCSV(useLocalDecimalPoint)] over the rows of [getDataRows]. *)
Definition getCSV (toString : Q -> string) (localePoint : string)
    (csvOptions : CsvOptions) (useLocalDecimalPoint : bool)
    (rows : list (list Cell)) : string :=
  let decimalPoint :=
    decimalPointOf csvOptions useLocalDecimalPoint localePoint in
  let itemDelimiter :=
    itemDelimiterOf csvOptions useLocalDecimalPoint localePoint in
  fold_left
    (addRow toString decimalPoint itemDelimiter (lineDelimiter csvOptions)
            (List.length rows))
    (combine (seq 0 (List.length rows)) rows)
    EmptyString.

End ExportData.

Module SpecExport.

Import Ascii String.
Local Open Scope string_scope.

(** The text that stands for one character after [htmlencode]. *)
Definition escape (a : ascii) : string :=
  if Ascii.eqb a "&" then "&amp;"
  else if Ascii.eqb a "<" then "&lt;"
  else if Ascii.eqb a ">" then "&gt;"
  else if Ascii.eqb a ExportData.doubleQuote then "&quot;"
  else if Ascii.eqb a "'" then "&#x27;"
  else if Ascii.eqb a "/" then "&#x2F;"
  else String a EmptyString.

(** The character [c] occurs in [s]. *)
Fixpoint occurs (c : ascii) (s : string) : bool :=
  match s with
  | EmptyString => false
  | String a rest => Ascii.eqb a c || occurs c rest
  end.

End SpecExport.

(* ================================================================== *)
(** * Part II: theorems *)
(* ================================================================== *)

(** ** Windows and sums *)

Section Windows.

Import Spec.
Local Open Scope Q_scope.

Lemma Qsum_app (l1 l2 : list Q) : Qsum (l1 ++ l2) == Qsum l1 + Qsum l2.
Proof.
  induction l1 as [|a l1 IH]; simpl.
  - ring.
  - rewrite IH. ring.
Qed.

Lemma firstn_snoc (r : nat) (l : list Q) :
  (r < length l)%nat -> firstn (S r) l = firstn r l ++ [nth r l 0].
Proof.
  revert l. induction r as [|r IH]; intros [|a l] H; simpl in *; try lia.
  - reflexivity.
  - f_equal. apply IH. lia.
Qed.

Lemma skipn_cons_nth (k : nat) (l : list Q) :
  (k < length l)%nat -> skipn k l = nth k l 0 :: skipn (S k) l.
Proof.
  revert l. induction k as [|k IH]; intros [|a l] H; simpl in *; try lia.
  - reflexivity.
  - apply IH. lia.
Qed.

Lemma nth_skipn_add (k r : nat) (l : list Q) :
  nth r (skipn k l) 0 = nth (k + r) l 0.
Proof.
  revert l. induction k as [|k IH]; intros l; simpl.
  - reflexivity.
  - destruct l as [|a l].
    + destruct r; reflexivity.
    + apply IH.
Qed.

Lemma window_length (len from : nat) (l : list Q) :
  (from + len <= length l)%nat -> length (window len from l) = len.
Proof.
  intros H. unfold window.
  rewrite length_firstn, length_skipn. lia.
Qed.

(** Extending a window by the entry that follows it. *)
Lemma window_extend (r k : nat) (l : list Q) :
  (k + r < length l)%nat ->
  Qsum (window r k l) + nth (k + r) l 0 == Qsum (window (S r) k l).
Proof.
  intros H. unfold window.
  rewrite (firstn_snoc r (skipn k l)) by (rewrite length_skipn; lia).
  rewrite Qsum_app, nth_skipn_add. simpl. ring.
Qed.

(** Dropping the first entry of a window. *)
Lemma window_shift (r k : nat) (l : list Q) :
  (k < length l)%nat ->
  Qsum (window (S r) k l) - nth k l 0 == Qsum (window r (S k) l).
Proof.
  intros H. unfold window.
  rewrite (skipn_cons_nth k l H). simpl. ring.
Qed.

Lemma combine_snoc {A B : Type} (l1 : list A) (l2 : list B) (a : A) (b : B) :
  length l1 = length l2 ->
  combine (l1 ++ [a]) (l2 ++ [b]) = combine l1 l2 ++ [(a, b)].
Proof.
  revert l2. induction l1 as [|x l1 IH]; intros [|y l2] H; simpl in *;
    try discriminate.
  - reflexivity.
  - f_equal. apply IH. lia.
Qed.

(** A [for] loop whose counter runs from [start]: a property that every
    turn below [bound] carries from [k] to [k + 1] turns holds after all
    the turns. *)
Lemma for_loop_invariant {St : Type} (P : nat -> St -> Prop)
    (f : St -> nat -> St) (start bound : nat) :
  (forall k st, (k < bound)%nat -> P k st -> P (S k) (f st (start + k)%nat)) ->
  forall m k st, (k + m <= bound)%nat -> P k st ->
    P (k + m)%nat (fold_left f (seq (start + k) m) st).
Proof.
  intros Hstep. induction m as [|m IH]; intros k st Hm HP; simpl.
  - rewrite Nat.add_0_r. exact HP.
  - replace (k + S m)%nat with (S k + m)%nat by lia.
    replace (S (start + k)) with (start + S k)%nat by lia.
    apply IH; [lia|]. apply Hstep; [lia|exact HP].
Qed.

End Windows.

(** ** SMA *)

Section SMA_facts.

Import JS Spec SMAIndicator.
Local Open Scope Q_scope.

Variables (p range : nat) (idx : Z) (xVal : list Q) (yVal : list yval).

(** The numbers the indicator reads from [yVal]. *)
Let ys : list Q := map (pickIndex idx) yVal.

Lemma yAt_nth (i : nat) : yAt idx yVal i = nth i ys 0.
Proof.
  unfold yAt, ys. revert i.
  induction yVal as [|v l IH]; intros [|i]; simpl; auto.
Qed.

Lemma accumulate_firstn (m : nat) :
  (m <= length ys)%nat ->
  fold_left (fun s r => s + yAt idx yVal r) (seq 0 m) 0 == Qsum (firstn m ys).
Proof.
  induction m as [|m IH]; intros H.
  - reflexivity.
  - rewrite seq_S, fold_left_app, (firstn_snoc m ys), Qsum_app by lia.
    cbn [fold_left Nat.add]. rewrite IH, yAt_nth by lia.
    cbn [Qsum fold_right]. ring.
Qed.

(** What holds after [k] turns of the main loop. *)
Record Inv (k : nat) (st : Loop) : Prop := {
  inv_sum : sum st == Qsum (window range k ys);
  inv_lenX : length (accX st) = k;
  inv_lenY : length (accY st) = k;
  inv_values : SMA st = combine (accX st) (accY st);
  inv_x : forall j, (j < k)%nat -> nth j (accX st) 0 = nth (range + j) xVal 0;
  inv_y : forall j, (j < k)%nat ->
      nth j (accY st) 0 == Qsum (window (S range) j ys) / num p
}.

Lemma step_Inv (k : nat) (st : Loop) :
  (range + k < length ys)%nat ->
  Inv k st -> Inv (S k) (step p range idx xVal yVal st (range + k)).
Proof.
  intros Hk [Hs Hx Hy Hv Hxj Hyj].
  assert (Hsum1 : sum st + yAt idx yVal (range + k)
                  == Qsum (window (S range) k ys)).
  { rewrite Hs, yAt_nth, (Nat.add_comm range k).
    apply window_extend. lia. }
  constructor; simpl.
  - replace (range + k - range)%nat with k by lia.
    rewrite Hsum1, yAt_nth. apply window_shift. lia.
  - rewrite length_app, Hx. simpl. lia.
  - rewrite length_app, Hy. simpl. lia.
  - rewrite Hv. rewrite combine_snoc by lia. reflexivity.
  - intros j Hj. destruct (Nat.eq_dec j k) as [->|Hne].
    + rewrite app_nth2 by lia. rewrite Hx, Nat.sub_diag. reflexivity.
    + rewrite app_nth1 by lia. apply Hxj. lia.
  - intros j Hj. destruct (Nat.eq_dec j k) as [->|Hne].
    + rewrite app_nth2 by lia. rewrite Hy, Nat.sub_diag. simpl.
      rewrite Hsum1. reflexivity.
    + rewrite app_nth1 by lia. apply Hyj. lia.
Qed.

Lemma loop_Inv (m k : nat) (st : Loop) :
  (range + k + m <= length ys)%nat ->
  Inv k st ->
  Inv (k + m) (fold_left (step p range idx xVal yVal) (seq (range + k) m) st).
Proof.
  intros Hm. apply (for_loop_invariant Inv _ range (length ys - range)).
  - intros j st' Hj. apply step_Inv. lia.
  - lia.
Qed.

End SMA_facts.

Section SMA_claims.

Import JS Spec SMAIndicator.
Local Open Scope Q_scope.

Lemma getValues_short (s : Series) (prm : Params) :
  (length (xData s) < period prm)%nat -> getValues s prm = None.
Proof.
  intros H. unfold getValues.
  apply Nat.ltb_lt in H. rewrite H. reflexivity.
Qed.

(** The state the main loop of [getValues] ends in satisfies the invariant
    for all [n - p + 1] turns. *)
Lemma getValues_long (s : Series) (prm : Params) :
  (0 < period prm)%nat ->
  length (xData s) = length (yData s) ->
  (period prm <= length (yData s))%nat ->
  let idx := switchIndex (yData s) (index prm) in
  exists st,
    getValues s prm = Some (mkValues (SMA st) (accX st) (accY st)) /\
    Inv (period prm) (period prm - 1) idx (xData s) (yData s)
        (length (yData s) - period prm + 1) st.
Proof.
  intros Hp Hlen Hn idx. unfold getValues.
  destruct (Nat.ltb_spec (length (xData s)) (period prm)) as [Hlt|_]; [lia|].
  fold idx. eexists. split; [reflexivity|].
  set (range := (period prm - 1)%nat).
  replace (length (yData s) - period prm + 1)%nat
    with (0 + (length (yData s) - range))%nat by lia.
  replace (seq range (length (yData s) - range))
    with (seq (range + 0) (length (yData s) - range))
    by (rewrite Nat.add_0_r; reflexivity).
  apply loop_Inv.
  - rewrite length_map. lia.
  - constructor; simpl; try reflexivity; try (intros j Hj; lia).
    unfold accumulate. fold range.
    rewrite accumulate_firstn by (rewrite length_map; lia).
    reflexivity.
Qed.

End SMA_claims.

(** ** SMA in double precision *)

Section Double_integers.

Import PrimFloat SpecFloat FloatOps FloatAxioms Double Binary64.
Local Open Scope Z_scope.

Lemma iter_pos_nat {A : Type} (f : A -> A) (p : positive) (x : A) :
  iter_pos f p x = Nat.iter (Pos.to_nat p) f x.
Proof.
  revert x. induction p as [p IH|p IH|]; intros x; cbn [iter_pos].
  - rewrite !IH, Pos2Nat.inj_xI.
    replace (S (2 * Pos.to_nat p)) with (Pos.to_nat p + S (Pos.to_nat p))%nat
      by lia.
    rewrite Nat.iter_add, Nat.iter_succ_r. reflexivity.
  - rewrite !IH, Pos2Nat.inj_xO.
    replace (2 * Pos.to_nat p)%nat with (Pos.to_nat p + Pos.to_nat p)%nat
      by lia.
    rewrite Nat.iter_add. reflexivity.
  - reflexivity.
Qed.

Lemma pos_iter_shl (v p : positive) : Pos.iter xO v p = shl v (Pos.to_nat p).
Proof.
  unfold shl. rewrite Pos2Nat.inj_iter. reflexivity.
Qed.

Lemma shl_shl (v : positive) (j k : nat) : shl (shl v j) k = shl v (k + j).
Proof. unfold shl. rewrite Nat.iter_add. reflexivity. Qed.

Lemma shl_value (v : positive) (k : nat) :
  Zpos (shl v k) = Zpos v * 2 ^ Z.of_nat k.
Proof.
  induction k as [|k IH].
  - cbn. lia.
  - change (shl v (S k)) with (xO (shl v k)).
    rewrite Pos2Z.inj_xO, IH, Nat2Z.inj_succ, Z.pow_succ_r by lia. ring.
Qed.

Lemma shl_digits (v : positive) (k : nat) :
  Zpos (digits2_pos (shl v k)) = Zpos (digits2_pos v) + Z.of_nat k.
Proof.
  induction k as [|k IH].
  - cbn. lia.
  - change (shl v (S k)) with (xO (shl v k)). cbn [digits2_pos].
    rewrite Pos2Z.inj_succ, IH. lia.
Qed.

Lemma shr_shl (v : positive) (k : nat) :
  Nat.iter k shr_1 (Build_shr_record (Zpos (shl v k)) false false)
  = Build_shr_record (Zpos v) false false.
Proof.
  induction k as [|k IH].
  - reflexivity.
  - rewrite Nat.iter_succ_r. change (shl v (S k)) with (xO (shl v k)).
    cbn [shr_1 orb]. exact IH.
Qed.

Lemma fexp_normal (e : Z) : -1021 <= e -> fexp prec emax e = e - 53.
Proof. intros H. unfold fexp, emin, prec, emax. lia. Qed.

(** Rounding a mantissa of more than 53 bits whose low bits are all zero
    drops these bits and nothing else. *)
Lemma round_aux_exact (w : positive) (q : nat) (e : Z) :
  Zpos (digits2_pos w) = 53 ->
  -1074 <= e + Z.of_nat q <= 971 ->
  binary_round_aux prec emax false (Zpos (shl w q)) e loc_Exact
  = S754_finite false w (e + Z.of_nat q).
Proof.
  intros Hw He. unfold binary_round_aux.
  assert (H1 : shr_fexp prec emax (Zpos (shl w q)) e loc_Exact
               = (Build_shr_record (Zpos w) false false, e + Z.of_nat q)).
  { unfold shr_fexp. cbn [Zdigits2 shr_record_of_loc].
    rewrite shl_digits, Hw, fexp_normal by lia.
    replace (53 + Z.of_nat q + e - 53 - e) with (Z.of_nat q) by lia.
    destruct q as [|q].
    - cbn. f_equal. lia.
    - unfold shr. cbn [Z.of_nat].
      rewrite iter_pos_nat, SuccNat2Pos.id_succ, shr_shl. reflexivity. }
  rewrite H1. cbn [shr_m loc_of_shr_record round_nearest_even].
  assert (H2 : shr_fexp prec emax (Zpos w) (e + Z.of_nat q) loc_Exact
               = (Build_shr_record (Zpos w) false false, e + Z.of_nat q)).
  { unfold shr_fexp. cbn [Zdigits2 shr_record_of_loc].
    rewrite Hw, fexp_normal by lia.
    replace (53 + (e + Z.of_nat q) - 53 - (e + Z.of_nat q)) with 0 by lia.
    reflexivity. }
  rewrite H2. cbn [shr_m].
  replace (e + Z.of_nat q <=? emax - prec) with true; [reflexivity|].
  symmetry. apply Z.leb_le. unfold emax, prec. lia.
Qed.

Lemma round_shift (v : positive) (k : nat) :
  Zpos (digits2_pos v) <= 53 ->
  binary_round prec emax false (shl v k) (- Z.of_nat k) = canon v.
Proof.
  intros Hd. unfold binary_round, canon.
  set (d := Zpos (digits2_pos v)) in *.
  assert (Hd1 : 1 <= d) by (unfold d; lia).
  rewrite shl_digits. fold d.
  rewrite fexp_normal by lia.
  set (w := shl v (Z.to_nat (53 - d))).
  assert (Hw : Zpos (digits2_pos w) = 53).
  { unfold w. rewrite shl_digits. fold d. lia. }
  unfold shl_align.
  destruct (d + Z.of_nat k + - Z.of_nat k - 53 - - Z.of_nat k) as [|r|r] eqn:E.
  - assert (Hk : shl v k = shl w 0).
    { unfold w. rewrite shl_shl. f_equal. lia. }
    rewrite Hk, round_aux_exact by (cbn [Z.of_nat]; lia).
    f_equal. lia.
  - assert (Hk : shl v k = shl w (Pos.to_nat r)).
    { unfold w. rewrite shl_shl. f_equal. lia. }
    rewrite Hk, round_aux_exact by lia.
    f_equal. lia.
  - rewrite pos_iter_shl, shl_shl.
    replace (Pos.to_nat r + k)%nat with (Z.to_nat (53 - d)) by lia.
    fold w. change w with (shl w 0).
    rewrite round_aux_exact by (cbn [Z.of_nat]; lia).
    f_equal. lia.
Qed.

Lemma digits2_size (v : positive) : digits2_pos v = Pos.size v.
Proof. induction v; cbn; congruence. Qed.

Lemma digits_below (v : positive) :
  Zpos v < 2 ^ 53 -> Zpos (digits2_pos v) <= 53.
Proof.
  intros H. rewrite digits2_size.
  destruct (Z_le_gt_dec (Zpos (Pos.size v)) 53) as [Hle|Hgt]; [exact Hle|].
  exfalso.
  pose proof (Pos.size_le v) as Hs.
  apply Pos2Z.pos_le_pos in Hs. rewrite Pos2Z.inj_pow in Hs.
  assert (H54 : 2 ^ 54 <= 2 ^ Zpos (Pos.size v))
    by (apply Z.pow_le_mono_r; lia).
  change (2 ^ 54) with (2 * 2 ^ 53) in H54.
  rewrite (Pos2Z.inj_xO v) in Hs. lia.
Qed.

Lemma SFofInt_pos (v : positive) :
  Zpos v < 2 ^ 53 -> SFofInt (Zpos v) = canon v.
Proof.
  intros H. unfold SFofInt, binary_normalize.
  apply (round_shift v 0). apply digits_below. exact H.
Qed.

Lemma shl_align_fst (m : positive) (ex ez : Z) :
  ez <= ex -> fst (shl_align m ex ez) = shl m (Z.to_nat (ex - ez)).
Proof.
  intros H. unfold shl_align.
  destruct (ez - ex) as [|r|r] eqn:E; cbn [fst].
  - replace (ex - ez) with 0 by lia. reflexivity.
  - lia.
  - rewrite pos_iter_shl. f_equal. lia.
Qed.

Lemma canon_aligned (v : positive) (ez : Z) :
  Zpos (digits2_pos v) <= 53 ->
  ez <= Zpos (digits2_pos v) - 53 ->
  fst (shl_align (shl v (Z.to_nat (53 - Zpos (digits2_pos v))))
                 (Zpos (digits2_pos v) - 53) ez)
  = shl v (Z.to_nat (- ez)).
Proof.
  intros Hd He. rewrite shl_align_fst, shl_shl by exact He. f_equal. lia.
Qed.

Lemma SFadd_int (a b : Z) :
  0 <= a -> 0 <= b -> a + b < 2 ^ 53 ->
  SF64add (SFofInt a) (SFofInt b) = SFofInt (a + b).
Proof.
  intros Ha Hb Hab.
  destruct a as [|a|a]; [|
    |lia].
  - destruct b as [|b|b]; [reflexivity| |lia].
    rewrite Z.add_0_l, SFofInt_pos by lia. reflexivity.
  - destruct b as [|b|b]; [|
      |lia].
    + rewrite Z.add_0_r, SFofInt_pos by lia. reflexivity.
    + assert (Hda : Zpos (digits2_pos a) <= 53) by (apply digits_below; lia).
      assert (Hdb : Zpos (digits2_pos b) <= 53) by (apply digits_below; lia).
      rewrite (SFofInt_pos a), (SFofInt_pos b) by lia.
      change (Zpos a + Zpos b) with (Zpos (a + b)).
      unfold canon. cbv zeta. unfold SF64add, SFadd.
      set (ez := Z.min (Zpos (digits2_pos a) - 53) (Zpos (digits2_pos b) - 53)).
      rewrite !canon_aligned by (try assumption; unfold ez; lia).
      cbn [cond_Zopp].
      set (k := Z.to_nat (- ez)).
      assert (Hsum : Zpos (shl a k) + Zpos (shl b k) = Zpos (shl (a + b) k)).
      { rewrite !shl_value, Pos2Z.inj_add. ring. }
      rewrite Hsum. cbn [binary_normalize].
      replace ez with (- Z.of_nat k) by (unfold k, ez; lia).
      rewrite (SFofInt_pos (a + b)) by exact Hab.
      apply round_shift. apply digits_below. exact Hab.
Qed.

Lemma SFsub_int (a b : Z) :
  0 <= b -> b <= a -> a < 2 ^ 53 ->
  SF64sub (SFofInt a) (SFofInt b) = SFofInt (a - b).
Proof.
  intros Hb Hba Ha.
  destruct b as [|b|b]; [|
    |lia].
  - rewrite Z.sub_0_r. destruct a as [|a|a]; [reflexivity| |lia].
    rewrite SFofInt_pos by lia. reflexivity.
  - destruct a as [|a|a]; [lia| |lia].
    assert (Hda : Zpos (digits2_pos a) <= 53) by (apply digits_below; lia).
    assert (Hdb : Zpos (digits2_pos b) <= 53) by (apply digits_below; lia).
    rewrite (SFofInt_pos a), (SFofInt_pos b) by lia.
    unfold canon. cbv zeta. unfold SF64sub, SFsub.
    set (ez := Z.min (Zpos (digits2_pos a) - 53) (Zpos (digits2_pos b) - 53)).
    rewrite !canon_aligned by (try assumption; unfold ez; lia).
    cbn [cond_Zopp].
    set (k := Z.to_nat (- ez)).
    destruct (Z.eq_dec (Zpos a) (Zpos b)) as [Heq|Hne].
    + injection Heq as ->. rewrite !Z.sub_diag. reflexivity.
    + destruct (Zpos a - Zpos b) as [|c|c] eqn:Ec; [lia| |lia].
      assert (Hdiff : Zpos (shl a k) - Zpos (shl b k) = Zpos (shl c k)).
      { rewrite !shl_value. rewrite <- Ec. ring. }
      rewrite Hdiff. cbn [binary_normalize].
      replace ez with (- Z.of_nat k) by (unfold k, ez; lia).
      rewrite SFofInt_pos by lia.
      apply round_shift. apply digits_below. lia.
Qed.

Lemma ofInt_spec (n : Z) :
  0 <= n < 2 ^ 53 -> Prim2SF (ofInt n) = SFofInt n.
Proof.
  intros H. unfold ofInt. rewrite of_uint63_spec, Uint63.of_Z_spec.
  rewrite Z.mod_small; [reflexivity|].
  change Uint63Axioms.wB with (2 ^ 63). 
  assert (2 ^ 53 < 2 ^ 63) by reflexivity. lia.
Qed.

Lemma ofInt_add (a b : Z) :
  0 <= a -> 0 <= b -> a + b < 2 ^ 53 ->
  (ofInt a + ofInt b)%float = ofInt (a + b).
Proof.
  intros Ha Hb Hab. apply Prim2SF_inj.
  rewrite add_spec, !ofInt_spec by lia. apply SFadd_int; assumption.
Qed.

Lemma ofInt_sub (a b : Z) :
  0 <= b -> b <= a -> a < 2 ^ 53 ->
  (ofInt a - ofInt b)%float = ofInt (a - b).
Proof.
  intros Hb Hba Ha. apply Prim2SF_inj.
  rewrite sub_spec, !ofInt_spec by lia. apply SFsub_int; assumption.
Qed.

End Double_integers.

Section Lists_any.

Lemma firstn_snoc_any {A : Type} (r : nat) (l : list A) (d : A) :
  (r < length l)%nat -> firstn (S r) l = firstn r l ++ [nth r l d].
Proof.
  revert l. induction r as [|r IH]; intros [|a l] H; simpl in *; try lia.
  - reflexivity.
  - f_equal. apply IH. lia.
Qed.

End Lists_any.

Section SMA64_reads.

Import PrimFloat Double Spec64 SMAIndicator64.
Local Open Scope float_scope.

Variables (idx : Z) (yVal : list yval).

(** The numbers the indicator reads from [yVal]. *)
Let ys : list float := map (pickIndex idx) yVal.

Lemma yAt64_nth (i : nat) : yAt idx yVal i = nth i ys nan.
Proof.
  unfold yAt, ys. revert i.
  induction yVal as [|v l IH]; intros [|i]; simpl; auto.
Qed.

Lemma accumulate64_firstn (m : nat) :
  (m <= length ys)%nat ->
  fold_left (fun s r => s + yAt idx yVal r) (seq 0 m) 0
  = fold_left add (firstn m ys) 0.
Proof.
  induction m as [|m IH]; intros H.
  - reflexivity.
  - rewrite seq_S, fold_left_app, (firstn_snoc_any m ys nan), fold_left_app
      by lia.
    cbn [fold_left Nat.add]. rewrite IH, yAt64_nth by lia. reflexivity.
Qed.

End SMA64_reads.

Section SMA64_facts.

Import PrimFloat Double Spec64 SMAIndicator64.
Local Open Scope float_scope.

Variables (range : nat) (idx : Z) (xVal : list float) (yVal : list yval).

(** The period. *)
Let p : nat := S range.

(** The numbers the indicator reads from [yVal]. *)
Let ys : list float := map (pickIndex idx) yVal.

Lemma sumBefore_add (k : nat) :
  (range + k < length ys)%nat ->
  sumBefore ys range k + nth (range + k) ys nan = runningSum ys p k.
Proof.
  intros H. destruct k as [|k]; cbn [sumBefore runningSum].
  - unfold p. rewrite (firstn_snoc_any range ys nan), fold_left_app by lia.
    rewrite Nat.add_0_r. reflexivity.
  - unfold p. do 2 f_equal. lia.
Qed.

(** What holds after [k] turns of the main loop. *)
Record Inv64 (k : nat) (st : Loop) : Prop := {
  inv64_sum : sum st = sumBefore ys range k;
  inv64_lenX : length (accX st) = k;
  inv64_lenY : length (accY st) = k;
  inv64_values : SMA st = combine (accX st) (accY st);
  inv64_x : forall j, (j < k)%nat ->
      nth j (accX st) nan = nth (range + j) xVal nan;
  inv64_y : forall j, (j < k)%nat ->
      nth j (accY st) nan = runningSum ys p j / num p
}.

Lemma step_Inv64 (k : nat) (st : Loop) :
  (range + k < length ys)%nat ->
  Inv64 k st -> Inv64 (S k) (step p range idx xVal yVal st (range + k)).
Proof.
  intros Hk [Hs Hx Hy Hv Hxj Hyj].
  assert (Hsum1 : sum st + yAt idx yVal (range + k) = runningSum ys p k).
  { rewrite Hs, yAt64_nth. apply sumBefore_add. exact Hk. }
  constructor; simpl.
  - replace (range + k - range)%nat with k by lia.
    rewrite Hsum1, yAt64_nth. reflexivity.
  - rewrite length_app, Hx. simpl. lia.
  - rewrite length_app, Hy. simpl. lia.
  - rewrite Hv. rewrite combine_snoc by lia. reflexivity.
  - intros j Hj. destruct (Nat.eq_dec j k) as [->|Hne].
    + rewrite app_nth2 by lia. rewrite Hx, Nat.sub_diag. reflexivity.
    + rewrite app_nth1 by lia. apply Hxj. lia.
  - intros j Hj. destruct (Nat.eq_dec j k) as [->|Hne].
    + rewrite app_nth2 by lia. rewrite Hy, Nat.sub_diag. simpl.
      rewrite Hsum1. reflexivity.
    + rewrite app_nth1 by lia. apply Hyj. lia.
Qed.

Lemma loop_Inv64 (m k : nat) (st : Loop) :
  (range + k + m <= length ys)%nat ->
  Inv64 k st ->
  Inv64 (k + m)
        (fold_left (step p range idx xVal yVal) (seq (range + k) m) st).
Proof.
  intros Hm. apply (for_loop_invariant Inv64 _ range (length ys - range)).
  - intros j st' Hj. apply step_Inv64. lia.
  - lia.
Qed.

End SMA64_facts.

Section SMA64_integers.

Import PrimFloat Double Spec64.
Local Open Scope Z_scope.

Lemma Zsum_app (l1 l2 : list Z) : Zsum (l1 ++ l2) = Zsum l1 + Zsum l2.
Proof. induction l1 as [|a l1 IH]; simpl; lia. Qed.

Lemma Zsum_nonneg (l : list Z) : Forall (fun z => 0 <= z) l -> 0 <= Zsum l.
Proof. induction 1; simpl; lia. Qed.

Lemma Forall_window_any {A : Type} (P : A -> Prop) (len from : nat)
    (l : list A) :
  Forall P l -> Forall P (window len from l).
Proof.
  intros H. unfold window.
  rewrite <- (firstn_skipn from l) in H. apply Forall_app in H.
  destruct H as [_ H].
  rewrite <- (firstn_skipn len (skipn from l)) in H. apply Forall_app in H.
  exact (proj1 H).
Qed.

Lemma skipn_cons_any {A : Type} (k : nat) (l : list A) (d : A) :
  (k < length l)%nat -> skipn k l = nth k l d :: skipn (S k) l.
Proof.
  revert l. induction k as [|k IH]; intros [|a l] H; simpl in *; try lia.
  - reflexivity.
  - apply IH. lia.
Qed.

(** A window with its first entry taken apart, and with its last. *)
Lemma window_head (r k : nat) (l : list Z) :
  (k < length l)%nat ->
  window (S r) k l = nth k l 0 :: window r (S k) l.
Proof.
  intros H. unfold window. rewrite (skipn_cons_any k l 0 H). reflexivity.
Qed.

Lemma window_last (r k : nat) (l : list Z) :
  (k + r < length l)%nat ->
  window (S r) k l = window r k l ++ [nth (k + r) l 0].
Proof.
  intros H. unfold window.
  rewrite (firstn_snoc_any r (skipn k l) 0) by (rewrite length_skipn; lia).
  rewrite nth_skipn. reflexivity.
Qed.

Lemma Zsum_window_slide (r k : nat) (l : list Z) :
  (S k + r < length l)%nat ->
  Zsum (window (S r) (S k) l)
  = Zsum (window (S r) k l) - nth k l 0 + nth (S r + k) l 0.
Proof.
  intros H. rewrite (window_head r k l), (window_last r (S k) l) by lia.
  rewrite Zsum_app. cbn [Zsum fold_right].
  replace (S k + r)%nat with (S r + k)%nat by lia.
  fold (Zsum (window r (S k) l)). lia.
Qed.

Lemma zero_ofInt : 0%float = ofInt 0.
Proof. reflexivity. Qed.

(** Adding doubles that are non-negative integers, from the left: the sum
    is exact as long as it stays below [2^53]. *)
Lemma fold_add_int (l : list Z) (a : Z) :
  0 <= a -> Forall (fun z => 0 <= z) l -> a + Zsum l < 2 ^ 53 ->
  fold_left add (map ofInt l) (ofInt a) = ofInt (a + Zsum l).
Proof.
  intros Ha Hl. revert a Ha.
  induction Hl as [|z l Hz Hl IH]; intros a Ha Hsum; cbn [map fold_left Zsum fold_right] in *.
  - rewrite Z.add_0_r. reflexivity.
  - pose proof (Zsum_nonneg l Hl) as Hnn. fold (Zsum l) in Hsum.
    rewrite ofInt_add by lia. rewrite IH by lia. f_equal. fold (Zsum l). lia.
Qed.

Lemma nth_map_ofInt (ns : list Z) (k : nat) :
  (k < length ns)%nat -> nth k (map ofInt ns) nan = ofInt (nth k ns 0).
Proof.
  intros H. rewrite (nth_indep _ nan (ofInt 0)) by (rewrite length_map; lia).
  apply map_nth.
Qed.

Lemma nth_nonneg (ns : list Z) (k : nat) :
  Forall (fun z => 0 <= z) ns -> 0 <= nth k ns 0.
Proof.
  intros H. destruct (Nat.lt_ge_cases k (length ns)) as [Hlt|Hge].
  - apply (proj1 (Forall_forall _ ns) H). apply nth_In. exact Hlt.
  - rewrite nth_overflow by lia. lia.
Qed.

(** On non-negative integers whose window sums stay below [2^53] the
    running sum is the sum of the window. *)
Lemma runningSum_int (ns : list Z) (r : nat) :
  Forall (fun z => 0 <= z) ns ->
  (forall j, (S r + j <= length ns)%nat ->
     Zsum (window (S r) j ns) < 2 ^ 53) ->
  forall j, (S r + j <= length ns)%nat ->
    runningSum (map ofInt ns) (S r) j = ofInt (Zsum (window (S r) j ns)).
Proof.
  intros Hnn Hsmall. induction j as [|j IH]; intros Hj.
  - cbn [runningSum]. rewrite firstn_map, zero_ofInt.
    rewrite fold_add_int; [reflexivity|lia| |].
    + apply (Forall_window_any _ (S r) 0 ns Hnn).
    + apply (Hsmall 0%nat). exact Hj.
  - cbn [runningSum]. rewrite IH by lia.
    rewrite !nth_map_ofInt by lia.
    pose proof (Hsmall j ltac:(lia)) as Hw.
    pose proof (Hsmall (S j) Hj) as Hw'.
    rewrite Zsum_window_slide in Hw' |- * by lia.
    pose proof (nth_nonneg ns j Hnn) as Hnj.
    pose proof (nth_nonneg ns (S r + j) Hnn) as Hnp.
    assert (Hrest : nth j ns 0 <= Zsum (window (S r) j ns)).
    { rewrite (window_head r j ns) by lia. cbn [Zsum fold_right].
      pose proof (Zsum_nonneg _ (Forall_window_any _ r (S j) ns Hnn)).
      unfold Zsum in *. lia. }
    rewrite ofInt_sub by lia. rewrite ofInt_add by lia. reflexivity.
Qed.

End SMA64_integers.

Section SMA64_claims.

Import PrimFloat Double Spec64 SMAIndicator64.
Local Open Scope float_scope.

Lemma getValues64_short (s : Series) (prm : Params) :
  (length (xData s) < period prm)%nat -> getValues s prm = None.
Proof.
  intros H. unfold getValues.
  apply Nat.ltb_lt in H. rewrite H. reflexivity.
Qed.

(** The state the main loop of [getValues] ends in satisfies the invariant
    for all [n - p + 1] turns. *)
Lemma getValues64_long (s : Series) (r : nat) (i : option nat) :
  length (xData s) = length (yData s) ->
  (S r <= length (yData s))%nat ->
  let idx := switchIndex (yData s) i in
  exists st,
    getValues s (mkParams (S r) i)
    = Some (mkValues (SMA st) (accX st) (accY st)) /\
    Inv64 r idx (xData s) (yData s) (length (yData s) - r) st.
Proof.
  intros Hlen Hn idx. unfold getValues. cbn [period index].
  destruct (Nat.ltb_spec (length (xData s)) (S r)) as [Hlt|_]; [lia|].
  fold idx. rewrite Nat.sub_succ, Nat.sub_0_r.
  eexists. split; [reflexivity|].
  set (st0 := {| sum := accumulate idx (yData s) (S r);
                 SMA := []; accX := []; accY := [] |}).
  assert (H0 : Inv64 r idx (xData s) (yData s) 0 st0).
  { constructor; simpl; try reflexivity; try (intros j Hj; lia).
    unfold accumulate. rewrite Nat.sub_succ, Nat.sub_0_r.
    rewrite accumulate64_firstn by (rewrite length_map; lia).
    reflexivity. }
  pose proof (loop_Inv64 r idx (xData s) (yData s)
                (length (yData s) - r) 0 st0) as H.
  rewrite Nat.add_0_r in H. cbn [Nat.add] in H.
  apply H; [rewrite length_map; lia|exact H0].
Qed.

(** C1, as the code computes it in doubles.  SMA over parallel arrays of
    length [n] with a positive period [p]: [false] when [n < p]; otherwise
    [values], [xData] and [yData] have length [n - p + 1], the [j]-th
    [xData] value is the input x at index [p - 1 + j], [values] pairs the
    two arrays, and the [j]-th [yData] value is the running sum of the
    window divided by [p].  The running sum is the sum of the window, and
    the value the double quotient of that sum by [p], when the inputs are
    non-negative integers whose window sums stay below [2^53].  With
    period 3 over [yData = [1,2,3,4,5]], [xData = [0,1,2,3,4]] the result
    is [[2,3,4]] at [[2,3,4]]. *)
Theorem SMA_getValues_running_sum (p : nat) (s : Series) (i : option nat) :
  (0 < p)%nat ->
  (Z.of_nat p < 2 ^ 53)%Z ->
  length (xData s) = length (yData s) ->
  Forall (readableAt (switchIndex (yData s) i)) (yData s) ->
  let n := length (yData s) in
  let inputs := map (pickIndex (switchIndex (yData s) i)) (yData s) in
  ((n < p)%nat -> getValues s (mkParams p i) = None) /\
  ((p <= n)%nat ->
   exists r, getValues s (mkParams p i) = Some r /\
     length (values r) = (n - p + 1)%nat /\
     length (outX r) = (n - p + 1)%nat /\
     length (outY r) = (n - p + 1)%nat /\
     (forall j, (j < n - p + 1)%nat ->
        nth j (outY r) nan = runningSum inputs p j / num p /\
        nth j (outX r) nan = nth (p - 1 + j) (xData s) nan /\
        nth j (values r) (nan, nan)
        = (nth j (outX r) nan, nth j (outY r) nan)) /\
     (forall ns,
        inputs = map ofInt ns ->
        Forall (fun z => (0 <= z)%Z) ns ->
        (forall j, (j < n - p + 1)%nat ->
           (Zsum (window p j ns) < 2 ^ 53)%Z) ->
        forall j, (j < n - p + 1)%nat ->
          nth j (outY r) nan = ofInt (Zsum (window p j ns)) / num p)) /\
  (exists r, getValues smaExample (mkParams 3 None) = Some r /\
     outX r = [2; 3; 4] /\ outY r = [2; 3; 4] /\
     values r = combine (outX r) (outY r)).
Proof.
  intros Hp _ Hlen _ n inputs. split; [|split].
  - intros Hn. apply getValues64_short. simpl. lia.
  - intros Hn. destruct p as [|r]; [lia|].
    destruct (getValues64_long s r i Hlen Hn)
      as [st [Hget [Hs Hx Hy Hv Hxj Hyj]]].
    fold n in Hx, Hy, Hxj, Hyj. fold inputs in Hyj.
    replace (n - S r + 1)%nat with (n - r)%nat by lia.
    rewrite Nat.sub_succ, Nat.sub_0_r.
    exists (mkValues (SMA st) (accX st) (accY st)). cbn [values outX outY].
    split; [exact Hget|].
    split; [rewrite Hv, length_combine; lia|].
    split; [exact Hx|]. split; [exact Hy|]. split.
    + intros j Hj. split; [|split].
      * apply Hyj. exact Hj.
      * apply Hxj. exact Hj.
      * rewrite Hv. apply combine_nth. lia.
    + intros ns Hns Hnn Hsmall j Hj.
      rewrite (Hyj j Hj), Hns. f_equal.
      assert (Hlen_ns : length ns = n).
      { unfold n. rewrite <- (length_map (pickIndex (switchIndex (yData s) i))).
        fold inputs. rewrite Hns. symmetry. apply length_map. }
      apply runningSum_int; [exact Hnn| |lia].
      intros k Hk. apply Hsmall. lia.
  - eexists. split; [reflexivity|]. simpl.
    split; [reflexivity|]. split; reflexivity.
Qed.

(** The theorem at the series of the example, period 3: the values are the
    quotients of the window sums 6, 9 and 12 by 3. *)
Lemma SMA_getValues_running_sum_witness :
  exists r, getValues smaExample (mkParams 3 None) = Some r /\
    length (outY r) = 3%nat /\
    forall j, (j < 3)%nat ->
      nth j (outY r) nan
      = ofInt (Zsum (window 3 j [1; 2; 3; 4; 5]%Z)) / num 3.
Proof.
  destruct (SMA_getValues_running_sum 3 smaExample None) as [_ [H _]];
    [lia | reflexivity | reflexivity | repeat constructor |].
  destruct H as [r [Hr [_ [_ [Hy [_ Hint]]]]]]; [simpl; lia|].
  exists r. split; [exact Hr|]. split; [exact Hy|].
  apply (Hint [1; 2; 3; 4; 5]%Z).
  - reflexivity.
  - repeat constructor; lia.
  - intros j Hj. simpl in Hj.
    destruct j as [|[|[|j]]]; [reflexivity|reflexivity|reflexivity|lia].
Defined.

(** C1 as stated fails in doubles.  With period 2 over
    [yData = [1e16,1,1,1]] the window that ends at index 2 holds [1] and
    [1], whose mean is [1], and the value returned for it is [0.5]: the
    [1] that was absorbed when it was added to [1e16] is missing from the
    running sum from then on. *)
Lemma SMA_window_mean_fails_in_doubles :
  exists r, getValues absorbingExample (mkParams 2 None) = Some r /\
    outY r = [5e15; 0.5; 0.5] /\
    window 2 1 [1e16; 1; 1; 1] = [1; 1] /\
    (1 + 1) / num 2 = 1 /\
    nth 1 (outY r) nan = 0.5 /\
    (0.5 <? 1) = true.
Proof.
  eexists. split; [reflexivity|]. repeat split.
Qed.

End SMA64_claims.

(** ** Stochastic oscillator *)

Section Stochastic_extremes.

Import JS StochasticIndicator.
Local Open Scope Q_scope.

Variables (lo hi : nat).

Let f (prev : Q * Q) (target : yval) : Q * Q :=
  (Qmin (fst prev) (pickIndex (Z.of_nat lo) target),
   Qmax (snd prev) (pickIndex (Z.of_nat hi) target)).

Lemma extremes_fold (rest : list yval) (seed : Q * Q) :
  let r := fold_left f rest seed in
  fst r <= fst seed /\ snd seed <= snd r /\
  forall v, In v rest ->
    fst r <= pickIndex (Z.of_nat lo) v /\ pickIndex (Z.of_nat hi) v <= snd r.
Proof.
  revert seed. induction rest as [|t rest IH]; intros seed; simpl.
  - split; [apply Qle_refl|]. split; [apply Qle_refl|]. intros v [].
  - destruct (IH (f seed t)) as [H1 [H2 H3]]. simpl in H1, H2.
    split; [|split].
    + eapply Qle_trans; [exact H1|]. apply Q.le_min_l.
    + eapply Qle_trans; [|exact H2]. apply Q.le_max_l.
    + intros v [->|Hin].
      * split.
        -- eapply Qle_trans; [exact H1|]. apply Q.le_min_r.
        -- eapply Qle_trans; [|exact H2]. apply Q.le_max_r.
      * apply H3. exact Hin.
Qed.

(** The first result is below every entry of column [lo], the second above
    every entry of column [hi]. *)
Lemma getArrayExtremes_bounds (arr : list yval) (v : yval) :
  In v arr ->
  fst (getArrayExtremes arr lo hi) <= pickIndex (Z.of_nat lo) v /\
  pickIndex (Z.of_nat hi) v <= snd (getArrayExtremes arr lo hi).
Proof.
  destruct arr as [|first rest]; intros Hin; [destruct Hin|].
  unfold getArrayExtremes. fold f.
  destruct (extremes_fold rest
              (pickIndex (Z.of_nat lo) first, pickIndex (Z.of_nat hi) first))
    as [H1 [H2 H3]].
  simpl in H1, H2. destruct Hin as [<-|Hin].
  - split; assumption.
  - apply H3. exact Hin.
Qed.

End Stochastic_extremes.

Section Stochastic_percentK.

Import JS StochasticIndicator.
Local Open Scope Q_scope.

(** The row of turn [i] belongs to the window of that turn. *)
Lemma slicedY_has_current (periodK : nat) (yVal : list yval) (i : nat) (v : yval) :
  (0 < periodK)%nat -> (periodK - 1 <= i)%nat ->
  nth_error yVal i = Some v -> In v (slicedY periodK yVal i).
Proof.
  intros HK Hi Hv. unfold slicedY, slice.
  apply (nth_error_In _ (periodK - 1)).
  rewrite nth_error_firstn.
  destruct (Nat.ltb_spec (periodK - 1) (i + 1 - (i + 1 - periodK))); [|lia].
  rewrite nth_error_skipn.
  replace (i + 1 - periodK + (periodK - 1))%nat with i by lia.
  exact Hv.
Qed.

Lemma percent_in_range (CL HL : Q) :
  0 < HL -> 0 <= CL -> CL <= HL -> 0 <= CL / HL * 100 /\ CL / HL * 100 <= 100.
Proof.
  intros HHL H0 H1.
  assert (Hinv : 0 < / HL) by (apply Qinv_lt_0_compat; exact HHL).
  assert (Hq0 : 0 <= CL / HL).
  { unfold Qdiv. apply Qmult_le_0_compat; [exact H0|apply Qlt_le_weak; exact Hinv]. }
  assert (Hq1 : CL / HL <= 1).
  { apply Qle_shift_div_r; [exact HHL|]. rewrite Qmult_1_l. exact H1. }
  split.
  - apply Qmult_le_0_compat; [exact Hq0|discriminate].
  - setoid_replace 100 with (1 * 100) at 2 by reflexivity.
    apply Qmult_le_compat_r; [exact Hq1|discriminate].
Qed.

(** [K] of a turn lies in [[0, 100]] when the window's highest high exceeds
    its lowest low and the close of the turn's row lies between that row's
    low and high. *)
Lemma percentK_bounds (periodK : nat) (yVal : list yval) (i : nat) :
  (0 < periodK)%nat -> (periodK - 1 <= i < length yVal)%nat ->
  let extremes := getArrayExtremes (slicedY periodK yVal i) low high in
  fst extremes < snd extremes ->
  yAt (Z.of_nat low) yVal i <= yAt (Z.of_nat close) yVal i ->
  yAt (Z.of_nat close) yVal i <= yAt (Z.of_nat high) yVal i ->
  0 <= percentK periodK yVal i /\ percentK periodK yVal i <= 100.
Proof.
  intros HK Hi extremes Hlt Hlo Hhi.
  destruct (nth_error yVal i) as [v|] eqn:Hv;
    [|apply nth_error_None in Hv; lia].
  destruct (getArrayExtremes_bounds low high (slicedY periodK yVal i) v)
    as [HLL HHH].
  { apply slicedY_has_current; [exact HK|lia|exact Hv]. }
  fold extremes in HLL, HHH.
  unfold yAt in Hlo, Hhi. rewrite Hv in Hlo, Hhi.
  unfold percentK. fold extremes. unfold yAt. rewrite Hv.
  apply percent_in_range.
  - unfold Qminus. apply (proj1 (Qlt_minus_iff _ _)). exact Hlt.
  - unfold Qminus. apply (proj1 (Qle_minus_iff _ _)).
    eapply Qle_trans; [exact HLL|exact Hlo].
  - unfold Qminus. apply Qplus_le_l. eapply Qle_trans; [exact Hhi|exact HHH].
Qed.

End Stochastic_percentK.

Section Stochastic_loop.

Import JS Spec StochasticIndicator.
Local Open Scope Q_scope.

Variables (periodK periodD : nat) (xVal : list Q) (yVal : list yval).
Hypothesis HK : (0 < periodK)%nat.
Hypothesis HD : (0 < periodD)%nat.

Let r : nat := (periodK - 1)%nat.
Let Kf (i : nat) : Q := percentK periodK yVal i.

(** The mean of the [periodD] values of [K] that end at turn [i]. *)
Let meanK (i : nat) : Q := mean (map Kf (seq (i + 1 - periodD) periodD)).

(** The nested SMA call returns one point: the mean of the last [periodD]
    values of [K]. *)
Lemma smoothed_mean (xs : list Q) (rows : list yval) (k : nat) :
  length xs = S k -> length rows = S k ->
  map (pickIndex 0%Z) rows = map Kf (seq r (S k)) ->
  (forall j v, nth_error rows j = Some v -> isArray (Some v) = true) ->
  (periodD - 1 <= k)%nat ->
  exists q, smoothed periodD xs rows = Some q /\ q == meanK (r + k).
Proof.
  intros Hxs Hrows HKs Harr Hk. unfold smoothed.
  assert (HlenX : length (sliceLast periodD xs) = periodD).
  { unfold sliceLast. destruct (Nat.eqb_spec periodD 0); [lia|].
    rewrite length_skipn. lia. }
  assert (HlenY : length (sliceLast periodD rows) = periodD).
  { unfold sliceLast. destruct (Nat.eqb_spec periodD 0); [lia|].
    rewrite length_skipn. lia. }
  destruct (getValues_long
              (SMAIndicator.mkSeries (sliceLast periodD xs)
                                     (sliceLast periodD rows))
              (SMAIndicator.mkParams periodD None))
    as [st [Hget [_ _ HlY _ _ HyJ]]]; simpl; try lia.
  rewrite Hget.
  cbn [SMAIndicator.period SMAIndicator.index SMAIndicator.xData
       SMAIndicator.yData SMAIndicator.outY] in HlY, HyJ |- *.
  rewrite HlenY in HlY, HyJ.
  replace (periodD - periodD + 1)%nat with 1%nat in HlY, HyJ by lia.
  destruct (SMAIndicator.accY st) as [|q [|q' l]] eqn:HaccY;
    simpl in HlY; try discriminate.
  exists q. split; [reflexivity|].
  specialize (HyJ 0%nat (Nat.lt_0_1)). simpl in HyJ.
  rewrite HyJ. clear HyJ.
  assert (Hidx : SMAIndicator.switchIndex (sliceLast periodD rows) None = 0%Z).
  { unfold SMAIndicator.switchIndex.
    destruct (nth_error (sliceLast periodD rows) 0) as [v|] eqn:Hv0.
    - assert (Hin : exists j, nth_error rows j = Some v).
      { unfold sliceLast in Hv0. destruct (Nat.eqb_spec periodD 0); [lia|].
        rewrite nth_error_skipn in Hv0. eexists. exact Hv0. }
      destruct Hin as [j Hj]. pose proof (Harr j v Hj) as Ha.
      destruct v; [discriminate Ha|reflexivity].
    - apply nth_error_None in Hv0. lia. }
  rewrite Hidx.
  assert (Hin : map (pickIndex 0%Z) (sliceLast periodD rows)
                = map Kf (seq (r + k + 1 - periodD) periodD)).
  { unfold sliceLast. destruct (Nat.eqb_spec periodD 0); [lia|].
    rewrite <- skipn_map, HKs, skipn_map, skipn_seq, Hrows.
    f_equal. f_equal; lia. }
  rewrite Hin. unfold meanK, mean, window.
  rewrite length_map, length_seq. simpl skipn.
  replace (S (periodD - 1)) with periodD by lia.
  rewrite firstn_all2 by (rewrite length_map, length_seq; lia).
  reflexivity.
Qed.

(** What holds after [k] turns of the loop of [getValues]. *)
Record SInv (k : nat) (st : Loop) : Prop := {
  s_lenX : length (accX st) = k;
  s_lenY : length (accY st) = k;
  s_lenSO : length (SO st) = k;
  s_K : map (pickIndex 0%Z) (accY st) = map Kf (seq r k);
  s_D : (k < periodD)%nat -> D st = None;
  s_rows : forall j, (j < k)%nat ->
      exists d,
        nth_error (SO st) j = Some (xAt xVal (r + j), Kf (r + j), d) /\
        nth_error (accX st) j = Some (xAt xVal (r + j)) /\
        nth_error (accY st) j = Some (YArr [Some (Kf (r + j)); d]) /\
        ((j < periodD - 1)%nat -> d = None) /\
        ((periodD - 1 <= j)%nat -> exists q, d = Some q /\ q == meanK (r + j))
}.

Lemma SInv_isArray (k : nat) (st : Loop) (j : nat) (v : yval) :
  SInv k st -> nth_error (accY st) j = Some v -> isArray (Some v) = true.
Proof.
  intros HI Hj.
  assert (Hlt : (j < k)%nat).
  { rewrite <- (s_lenY k st HI). apply nth_error_Some. congruence. }
  destruct (s_rows k st HI j Hlt) as [d [_ [_ [Hy _]]]].
  rewrite Hy in Hj. injection Hj as <-. reflexivity.
Qed.

Lemma step_SInv (k : nat) (st : Loop) :
  SInv k st -> SInv (S k) (step periodK periodD xVal yVal st (r + k)).
Proof.
  intros HI. pose proof HI as [HlX HlY HlS HKs HDn Hrows].
  set (K := percentK periodK yVal (r + k)).
  set (xData1 := accX st ++ [xAt xVal (r + k)]).
  set (yData1 := accY st ++ [YArr [Some K; None]]).
  set (D1 := if (periodK - 1 + (periodD - 1) <=? r + k)%nat
             then smoothed periodD xData1 yData1 else D st).
  assert (HD1 : ((k < periodD - 1)%nat -> D1 = None) /\
                ((periodD - 1 <= k)%nat ->
                 exists q, D1 = Some q /\ q == meanK (r + k))).
  { unfold D1. fold r.
    destruct (Nat.leb_spec (r + (periodD - 1)) (r + k)) as [Hge|Hlt].
    - split; [lia|]. intros _.
      apply smoothed_mean.
      + unfold xData1. rewrite length_app, HlX. simpl. lia.
      + unfold yData1. rewrite length_app, HlY. simpl. lia.
      + unfold yData1. rewrite map_app, HKs, seq_S, map_app. reflexivity.
      + intros j v Hj. unfold yData1 in Hj.
        destruct (Nat.lt_ge_cases j (length (accY st))) as [Hlt|Hge'].
        * rewrite nth_error_app1 in Hj by exact Hlt.
          eapply SInv_isArray; eassumption.
        * rewrite nth_error_app2 in Hj by exact Hge'.
          destruct (j - length (accY st))%nat as [|[|m]];
            simpl in Hj; try discriminate.
          injection Hj as <-. reflexivity.
      + lia.
    - split; [|lia]. intros _. apply HDn. lia. }
  destruct HD1 as [HD1n HD1s].
  constructor; unfold step; fold K xData1 yData1 D1; cbn [SO accX accY D].
  - unfold xData1. rewrite length_app, HlX. simpl. lia.
  - rewrite length_app, HlY. simpl. lia.
  - rewrite length_app, HlS. simpl. lia.
  - rewrite map_app, HKs, seq_S, map_app. reflexivity.
  - intros Hlt. apply HD1n. lia.
  - intros j Hj. destruct (Nat.eq_dec j k) as [->|Hne].
    + exists D1. unfold xData1.
      rewrite !nth_error_app2 by lia.
      rewrite HlS, HlX, HlY, Nat.sub_diag. simpl.
      repeat split; assumption.
    + destruct (Hrows j) as [d [H1 [H2 [H3 [H4 H5]]]]]; [lia|].
      exists d. unfold xData1.
      rewrite !nth_error_app1 by lia.
      repeat split; assumption.
Qed.

Lemma loop_SInv (m k : nat) (st : Loop) :
  SInv k st ->
  SInv (k + m)
    (fold_left (step periodK periodD xVal yVal) (seq (r + k) m) st).
Proof.
  apply (for_loop_invariant SInv _ r (k + m)).
  - intros j st' _. apply step_SInv.
  - lia.
Qed.

Lemma SInv_init : SInv 0 {| SO := []; accX := []; accY := []; D := None |}.
Proof.
  constructor; simpl; try reflexivity. intros j Hj. lia.
Qed.

End Stochastic_loop.

Section Stochastic_claims.

Import JS Spec StochasticIndicator.
Local Open Scope Q_scope.

(** The input checks of [getValues], read back from a successful call. *)
Lemma getValues_accepts (s : SMAIndicator.Series) (prm : Params) (res : Values) :
  getValues s prm = Some res ->
  (fst (periods prm) <= length (SMAIndicator.yData s))%nat /\
  isArray (nth_error (SMAIndicator.yData s) 0) = true /\
  firstRowHasFour (SMAIndicator.yData s) = true.
Proof.
  unfold getValues. intros H.
  destruct (Nat.ltb_spec (length (SMAIndicator.yData s)) (fst (periods prm)));
    [discriminate H|].
  destruct (isArray (nth_error (SMAIndicator.yData s) 0));
    [|discriminate H].
  destruct (firstRowHasFour (SMAIndicator.yData s)); [|discriminate H].
  repeat split. assumption.
Qed.

(** The result of an accepted call, with the invariant of its loop. *)
Lemma getValues_result (periodK periodD : nat) (s : SMAIndicator.Series) :
  (0 < periodK)%nat -> (0 < periodD)%nat ->
  (periodK <= length (SMAIndicator.yData s))%nat ->
  isArray (nth_error (SMAIndicator.yData s) 0) = true ->
  firstRowHasFour (SMAIndicator.yData s) = true ->
  exists st,
    getValues s (mkParams (periodK, periodD))
    = Some (mkValues (SO st) (accX st) (accY st)) /\
    SInv periodK periodD (SMAIndicator.xData s) (SMAIndicator.yData s)
         (length (SMAIndicator.yData s) - periodK + 1) st.
Proof.
  intros HK HD Hn Harr Hfour. unfold getValues. cbn [periods fst snd].
  destruct (Nat.ltb_spec (length (SMAIndicator.yData s)) periodK); [lia|].
  rewrite Harr, Hfour. cbn [negb orb].
  eexists. split; [reflexivity|].
  replace (length (SMAIndicator.yData s) - periodK + 1)%nat
    with (0 + (length (SMAIndicator.yData s) - (periodK - 1)))%nat by lia.
  replace (seq (periodK - 1)) with (seq (periodK - 1 + 0))
    by (rewrite Nat.add_0_r; reflexivity).
  apply loop_SInv; try assumption. apply SInv_init; assumption.
Qed.

(** The points of an accepted call. *)
Lemma getValues_rows (periodK periodD : nat) (s : SMAIndicator.Series) :
  (0 < periodK)%nat -> (0 < periodD)%nat ->
  let xVal := SMAIndicator.xData s in
  let yVal := SMAIndicator.yData s in
  let n := length yVal in
  (periodK <= n)%nat ->
  isArray (nth_error yVal 0) = true ->
  firstRowHasFour yVal = true ->
  exists res,
    getValues s (mkParams (periodK, periodD)) = Some res /\
    length (values res) = (n - periodK + 1)%nat /\
    length (outX res) = (n - periodK + 1)%nat /\
    length (outY res) = (n - periodK + 1)%nat /\
    forall j, (j < n - periodK + 1)%nat ->
      let i := (periodK - 1 + j)%nat in
      exists d,
        nth_error (values res) j
        = Some (xAt xVal i, percentK periodK yVal i, d) /\
        nth_error (outX res) j = Some (xAt xVal i) /\
        nth_error (outY res) j = Some (YArr [Some (percentK periodK yVal i); d]) /\
        ((j < periodD - 1)%nat -> d = None) /\
        ((periodD - 1 <= j)%nat ->
         exists q, d = Some q /\
           q == mean (map (percentK periodK yVal)
                          (seq (i + 1 - periodD) periodD))).
Proof.
  intros HK HD xVal yVal n Hn Harr Hfour.
  destruct (getValues_result periodK periodD s HK HD Hn Harr Hfour)
    as [st [Hget [HlX HlY HlS _ _ Hrows]]].
  exists (mkValues (SO st) (accX st) (accY st)). simpl.
  split; [exact Hget|]. split; [exact HlS|]. split; [exact HlX|].
  split; [exact HlY|]. intros j Hj. apply Hrows. exact Hj.
Qed.

Lemma ohlcRows_accepted (yVal : list yval) :
  (0 < length yVal)%nat -> Forall isOhlcRow yVal ->
  isArray (nth_error yVal 0) = true /\ firstRowHasFour yVal = true.
Proof.
  intros Hlen Hrows. unfold firstRowHasFour.
  destruct yVal as [|v rest]; [simpl in Hlen; lia|].
  inversion Hrows as [|v' rest' [o [h [l [c ->]]]] _]. split; reflexivity.
Qed.

(** C10. An OHLC input of [n >= periodK] rows with positive periods
    [[periodK, periodD]] yields [n - periodK + 1] points, the [j]-th for the
    input index [periodK - 1 + j]; its smoothed component is [null] for
    [j < periodD - 1] and, from the input index
    [(periodK - 1) + (periodD - 1)] on, the mean of the last [periodD]
    values of [K]. *)
Theorem Stochastic_getValues_points (periodK periodD : nat)
    (s : SMAIndicator.Series) :
  (0 < periodK)%nat -> (0 < periodD)%nat ->
  let xVal := SMAIndicator.xData s in
  let yVal := SMAIndicator.yData s in
  let n := length yVal in
  (periodK <= n)%nat ->
  Forall isOhlcRow yVal ->
  exists res,
    getValues s (mkParams (periodK, periodD)) = Some res /\
    length (values res) = (n - periodK + 1)%nat /\
    length (outX res) = (n - periodK + 1)%nat /\
    length (outY res) = (n - periodK + 1)%nat /\
    forall j, (j < n - periodK + 1)%nat ->
      let i := (periodK - 1 + j)%nat in
      exists d,
        nth_error (values res) j
        = Some (xAt xVal i, percentK periodK yVal i, d) /\
        nth_error (outX res) j = Some (xAt xVal i) /\
        nth_error (outY res) j = Some (YArr [Some (percentK periodK yVal i); d]) /\
        ((j < periodD - 1)%nat -> d = None) /\
        ((periodD - 1 <= j)%nat ->
         exists q, d = Some q /\
           q == mean (map (percentK periodK yVal)
                          (seq (i + 1 - periodD) periodD))).
Proof.
  intros HK HD xVal yVal n Hn Hohlc.
  destruct (ohlcRows_accepted yVal) as [Harr Hfour];
    [fold n; lia|exact Hohlc|].
  exact (getValues_rows periodK periodD s HK HD Hn Harr Hfour).
Qed.

(** The theorem at five OHLC rows, periods [[2, 2]]. *)
Lemma Stochastic_getValues_points_witness :
  exists res,
    getValues Examples.fiveRows (mkParams (2%nat, 2%nat)) = Some res /\
    length (values res) = 4%nat /\
    forall j, (j < 4)%nat ->
      exists d, nth_error (outY res) j
                = Some (YArr [Some (percentK 2 (SMAIndicator.yData
                                                  Examples.fiveRows) (1 + j)); d]) /\
        ((j < 1)%nat -> d = None) /\
        ((1 <= j)%nat -> exists q, d = Some q).
Proof.
  destruct (Stochastic_getValues_points 2 2 Examples.fiveRows)
    as [res [Hget [Hl [_ [_ Hj]]]]];
    [lia | lia | simpl; lia | repeat constructor; repeat eexists |].
  exists res. split; [exact Hget|]. split; [exact Hl|].
  intros j Hlt. destruct (Hj j Hlt) as [d [_ [_ [Hy [Hn Hs]]]]].
  exists d. split; [exact Hy|]. split; [exact Hn|].
  intros H1. destruct (Hs H1) as [q [Hq _]]. exists q. exact Hq.
Defined.

(** C5, as the code has it.  For an accepted input of OHLC rows with
    positive periods and a produced point [j] (input index
    [i = periodK - 1 + j]): when the highest high of the window exceeds its
    lowest low and the close of row [i] lies between the low and the high of
    that row, [K] is in [[0, 100]]. *)
Theorem Stochastic_percentK_in_range (periodK periodD : nat)
    (s : SMAIndicator.Series) (res : Values) (j : nat) :
  (0 < periodK)%nat -> (0 < periodD)%nat ->
  Forall isOhlcRow (SMAIndicator.yData s) ->
  getValues s (mkParams (periodK, periodD)) = Some res ->
  (j < length (values res))%nat ->
  let yVal := SMAIndicator.yData s in
  let i := (periodK - 1 + j)%nat in
  let extremes := getArrayExtremes (slicedY periodK yVal i) low high in
  fst extremes < snd extremes ->
  yAt (Z.of_nat low) yVal i <= yAt (Z.of_nat close) yVal i ->
  yAt (Z.of_nat close) yVal i <= yAt (Z.of_nat high) yVal i ->
  exists x K d,
    nth_error (values res) j = Some (x, K, d) /\ 0 <= K /\ K <= 100.
Proof.
  intros HK HD Hohlc Hget Hj yVal i extremes Hlt Hlo Hhi.
  destruct (getValues_accepts _ _ _ Hget) as [Hn [Harr Hfour]].
  simpl in Hn.
  destruct (getValues_rows periodK periodD s HK HD Hn Harr Hfour)
    as [res' [Hget' [Hlen [_ [_ Hrows]]]]].
  rewrite Hget in Hget'. injection Hget' as <-.
  rewrite Hlen in Hj.
  destruct (Hrows j Hj) as [d [Hv _]].
  exists (xAt (SMAIndicator.xData s) i), (percentK periodK yVal i), d.
  split; [exact Hv|].
  apply percentK_bounds; try assumption. subst i yVal. lia.
Qed.

(** The theorem at the second point of five OHLC rows, periods [[2, 2]]. *)
Lemma Stochastic_percentK_in_range_witness :
  exists res x K d,
    getValues Examples.fiveRows (mkParams (2%nat, 2%nat)) = Some res /\
    nth_error (values res) 1 = Some (x, K, d) /\ 0 <= K /\ K <= 100.
Proof.
  destruct (getValues Examples.fiveRows (mkParams (2%nat, 2%nat)))
    as [res|] eqn:Hget; [|discriminate Hget].
  destruct (Stochastic_percentK_in_range 2 2 Examples.fiveRows res 1)
    as [x [K [d H]]].
  - lia.
  - lia.
  - repeat constructor; repeat eexists.
  - exact Hget.
  - injection Hget as <-. simpl. lia.
  - reflexivity.
  - discriminate.
  - discriminate.
  - exists res, x, K, d. split; [reflexivity|exact H].
Defined.

(** C5 as stated fails: the single row [[1, 2, 1, 5]] is accepted with
    [periodK = 1], its highest high 2 exceeds its lowest low 1, and [K] is
    400. *)
Lemma Stochastic_percentK_above_100 :
  exists res x K d,
    getValues Examples.closeAboveHigh (mkParams (1%nat, 3%nat)) = Some res /\
    (1 <= length (SMAIndicator.yData Examples.closeAboveHigh))%nat /\
    Forall isOhlcRow (SMAIndicator.yData Examples.closeAboveHigh) /\
    fst (getArrayExtremes
           (slicedY 1 (SMAIndicator.yData Examples.closeAboveHigh) 0) low high)
    < snd (getArrayExtremes
           (slicedY 1 (SMAIndicator.yData Examples.closeAboveHigh) 0) low high) /\
    nth_error (values res) 0 = Some (x, K, d) /\
    K == 400 /\ 100 < K.
Proof.
  eexists. eexists. eexists. eexists.
  split; [reflexivity|].
  split; [simpl; lia|].
  split; [repeat constructor; repeat eexists|].
  split; [reflexivity|].
  split; [reflexivity|].
  split; reflexivity.
Qed.

End Stochastic_claims.

(** ** DEMA and TEMA: the failure sentinel and the size of the result *)

Section DEMA_loop.

Import JS EMAIndicator DEMAIndicator.
Local Open Scope Q_scope.

Variables (proto : Prototype) (chart : Chart) (period : nat) (index : Z)
          (xVal : list Q) (yVal : list yval).

(** After [k] turns ([i] from [period] to [period + k - 1]) a point has been
    pushed for every [i >= 2 * period]; every pushed y went through
    [correctFloat]. *)
Record DInv (k : nat) (st : Loop) : Prop := {
  d_len : length (yDataDema st) = (k - period)%nat;
  d_lenX : length (xDataDema st) = (k - period)%nat;
  d_values : DEMA st = combine (xDataDema st) (yDataDema st);
  d_rounded : Forall Rounding.isCorrectFloat (yDataDema st)
}.

Lemma step_DInv (k : nat) (st : Loop) :
  DInv k st -> DInv (S k) (step proto chart period index xVal yVal st (period + k)).
Proof.
  intros [Hl Hx Hv Hr]. unfold step.
  destruct (Nat.ltb_spec (period + k) (2 * period)) as [Hlt|Hge].
  - assert (Hk : (S k - period = k - period)%nat) by (clear - Hlt; lia).
    constructor; cbn [yDataDema xDataDema DEMA]; try assumption;
      rewrite Hk; assumption.
  - assert (Hk : (S k - period = k - period + 1)%nat) by (clear - Hge; lia).
    constructor; cbn [yDataDema xDataDema DEMA].
    + rewrite length_app, Hl, Hk. reflexivity.
    + rewrite length_app, Hx, Hk. reflexivity.
    + rewrite Hv. rewrite combine_snoc by congruence. reflexivity.
    + apply Forall_app. split; [exact Hr|].
      constructor; [|constructor]. eexists. reflexivity.
Qed.

Lemma loop_DInv (m k : nat) (st : Loop) :
  DInv k st ->
  DInv (k + m)
    (fold_left (step proto chart period index xVal yVal) (seq (period + k) m) st).
Proof.
  apply (for_loop_invariant DInv _ period (k + m)).
  - intros j st' _. apply step_DInv.
  - lia.
Qed.

End DEMA_loop.

Section TEMA_loop.

Import JS EMAIndicator TEMAIndicator.
Local Open Scope Q_scope.

Variables (proto : Prototype) (chart : Chart) (period : nat) (index : Z)
          (xVal : list Q) (yVal : list yval).

(** After [k] turns a point has been pushed for every [i >= 3 * period]. *)
Record TInv (k : nat) (st : Loop) : Prop := {
  t_len : length (yDataTema st) = (k - 2 * period)%nat;
  t_lenX : length (xDataTema st) = (k - 2 * period)%nat;
  t_values : TEMA st = combine (xDataTema st) (yDataTema st);
  t_rounded : Forall Rounding.isCorrectFloat (yDataTema st)
}.

Lemma step_TInv (k : nat) (st : Loop) :
  TInv k st -> TInv (S k) (step proto chart period index xVal yVal st (period + k)).
Proof.
  intros [Hl Hx Hv Hr]. unfold step.
  destruct (Nat.ltb_spec (period + k) (2 * period)) as [Hlt|Hge].
  - assert (Hk : (S k - 2 * period = k - 2 * period)%nat)
      by (clear - Hlt; lia).
    constructor; cbn [yDataTema xDataTema TEMA]; try assumption;
      rewrite Hk; assumption.
  - destruct (Nat.ltb_spec (period + k) (3 * period)) as [Hlt3|Hge3].
    + assert (Hk : (S k - 2 * period = k - 2 * period)%nat)
        by (clear - Hlt3; lia).
      constructor; cbn [yDataTema xDataTema TEMA]; try assumption;
        rewrite Hk; assumption.
    + assert (Hk : (S k - 2 * period = k - 2 * period + 1)%nat)
        by (clear - Hge3; lia).
      constructor; cbn [yDataTema xDataTema TEMA].
      * rewrite length_app, Hl, Hk. reflexivity.
      * rewrite length_app, Hx, Hk. reflexivity.
      * rewrite Hv. rewrite combine_snoc by congruence. reflexivity.
      * apply Forall_app. split; [exact Hr|].
        constructor; [|constructor]. eexists. reflexivity.
Qed.

Lemma loop_TInv (m k : nat) (st : Loop) :
  TInv k st ->
  TInv (k + m)
    (fold_left (step proto chart period index xVal yVal) (seq (period + k) m) st).
Proof.
  apply (for_loop_invariant TInv _ period (k + m)).
  - intros j st' _. apply step_TInv.
  - lia.
Qed.

End TEMA_loop.

Section Cascade_claims.

Import JS EMAIndicator SMAIndicator Results.
Local Open Scope Q_scope.

Lemma DEMA_result (proto : Prototype) (chart : Chart) (s : Series)
    (prm : Params) :
  (0 < period prm)%nat ->
  (2 * period prm - 1 <= length (yData s))%nat ->
  exists r, DEMAIndicator.getValues proto chart s prm = Some r /\
    wellFormed (length (yData s) + 2 - 2 * period prm) r /\
    Forall Rounding.isCorrectFloat (outY r).
Proof.
  intros Hp Hn. unfold DEMAIndicator.getValues.
  destruct (Nat.ltb_spec (length (yData s)) (2 * period prm - 1)); [lia|].
  eexists. split; [reflexivity|].
  match goal with
  | |- context [fold_left ?f (seq ?a ?m) ?st0] =>
      pose proof (loop_DInv proto chart (period prm)
                    (switchIndex (yData s) (index prm)) (xData s) (yData s)
                    m 0 st0) as HI
  end.
  rewrite Nat.add_0_r in HI.
  destruct HI as [Hl Hx Hv Hr].
  { constructor; simpl; try reflexivity. constructor. }
  unfold wellFormed. cbn [outX outY values].
  rewrite Hl, Hx. repeat split; try lia; assumption.
Qed.

Lemma TEMA_result (proto : Prototype) (chart : Chart) (s : Series)
    (prm : Params) :
  (0 < period prm)%nat ->
  (3 * period prm - 2 <= length (yData s))%nat ->
  exists r, TEMAIndicator.getValues proto chart s prm = Some r /\
    wellFormed (length (yData s) + 3 - 3 * period prm) r /\
    Forall Rounding.isCorrectFloat (outY r).
Proof.
  intros Hp Hn. unfold TEMAIndicator.getValues.
  destruct (Nat.ltb_spec (length (yData s)) (3 * period prm - 2)); [lia|].
  eexists. split; [reflexivity|].
  match goal with
  | |- context [fold_left ?f (seq ?a ?m) ?st0] =>
      pose proof (loop_TInv proto chart (period prm)
                    (switchIndex (yData s) (index prm)) (xData s) (yData s)
                    m 0 st0) as HI
  end.
  rewrite Nat.add_0_r in HI.
  destruct HI as [Hl Hx Hv Hr].
  { constructor; simpl; try reflexivity. constructor. }
  unfold wellFormed. cbn [outX outY values].
  rewrite Hl, Hx. repeat split; try lia; assumption.
Qed.

(** C6. For a positive period [p], DEMA returns [false] exactly when
    [yData] holds fewer than [2p - 1] entries and TEMA exactly when it holds
    fewer than [3p - 2]; a call that does not fail returns a result object
    whose [values], [xData] and [yData] have the same, positive, size. *)
Theorem DEMA_TEMA_failure_sentinel (proto : Prototype) (chart : Chart)
    (s : Series) (p : nat) (i : option nat) :
  (0 < p)%nat ->
  let n := length (yData s) in
  (DEMAIndicator.getValues proto chart s (mkParams p i) = None
   <-> (n < 2 * p - 1)%nat) /\
  (TEMAIndicator.getValues proto chart s (mkParams p i) = None
   <-> (n < 3 * p - 2)%nat) /\
  ((2 * p - 1 <= n)%nat ->
   exists r, DEMAIndicator.getValues proto chart s (mkParams p i) = Some r /\
     wellFormed (n + 2 - 2 * p) r /\ (0 < n + 2 - 2 * p)%nat) /\
  ((3 * p - 2 <= n)%nat ->
   exists r, TEMAIndicator.getValues proto chart s (mkParams p i) = Some r /\
     wellFormed (n + 3 - 3 * p) r /\ (0 < n + 3 - 3 * p)%nat).
Proof.
  intros Hp n.
  assert (HD : (2 * p - 1 <= n)%nat ->
     exists r, DEMAIndicator.getValues proto chart s (mkParams p i) = Some r /\
       wellFormed (n + 2 - 2 * p) r /\ (0 < n + 2 - 2 * p)%nat).
  { intros Hn.
    destruct (DEMA_result proto chart s (mkParams p i) Hp Hn)
      as [r [Hr [Hw _]]].
    exists r. repeat split; try assumption; try apply Hw. simpl. lia. }
  assert (HT : (3 * p - 2 <= n)%nat ->
     exists r, TEMAIndicator.getValues proto chart s (mkParams p i) = Some r /\
       wellFormed (n + 3 - 3 * p) r /\ (0 < n + 3 - 3 * p)%nat).
  { intros Hn.
    destruct (TEMA_result proto chart s (mkParams p i) Hp Hn)
      as [r [Hr [Hw _]]].
    exists r. repeat split; try assumption; try apply Hw. simpl. lia. }
  split; [|split; [|split; assumption]].
  - split.
    + intros Hnone. destruct (Nat.lt_ge_cases n (2 * p - 1)) as [H|H];
        [exact H|].
      destruct (HD H) as [r [Hr _]]. congruence.
    + intros Hlt. unfold DEMAIndicator.getValues. simpl period.
      fold n. apply Nat.ltb_lt in Hlt. rewrite Hlt. reflexivity.
  - split.
    + intros Hnone. destruct (Nat.lt_ge_cases n (3 * p - 2)) as [H|H];
        [exact H|].
      destruct (HT H) as [r [Hr _]]. congruence.
    + intros Hlt. unfold TEMAIndicator.getValues. simpl period.
      fold n. apply Nat.ltb_lt in Hlt. rewrite Hlt. reflexivity.
Qed.

(** The theorem at the series of the SMA example, periods 2 and 3, over the
    EMA of the spec. *)
Lemma DEMA_TEMA_failure_sentinel_witness :
  (exists r, DEMAIndicator.getValues specPrototype ExamplesRounding.chart
               Spec.smaExample (mkParams 2 None) = Some r /\
             Results.wellFormed 3 r) /\
  (exists r, TEMAIndicator.getValues specPrototype ExamplesRounding.chart
               Spec.smaExample (mkParams 2 None) = Some r /\
             Results.wellFormed 2 r) /\
  (TEMAIndicator.getValues specPrototype ExamplesRounding.chart
     Spec.smaExample (mkParams 3 None) = None).
Proof.
  destruct (DEMA_TEMA_failure_sentinel specPrototype ExamplesRounding.chart
              Spec.smaExample 2 None) as [_ [_ [HD HT]]]; [lia|].
  destruct (DEMA_TEMA_failure_sentinel specPrototype ExamplesRounding.chart
              Spec.smaExample 3 None) as [_ [[_ HN] _]]; [lia|].
  split; [|split].
  - destruct HD as [r [Hr [Hw _]]]; [simpl; lia|]. exists r. split; assumption.
  - destruct HT as [r [Hr [Hw _]]]; [simpl; lia|]. exists r. split; assumption.
  - apply HN. simpl. lia.
Defined.

End Cascade_claims.

(** ** 3D faces *)

Section Face3d_claims.

Import Renderer3D.
Local Open Scope Q_scope.

Lemma faceVisibility_visible (en : bool) (area : Q) :
  faceVisibility en area = visible <-> en = true /\ 0 < area.
Proof.
  unfold faceVisibility. destruct en; simpl.
  - destruct (Qle_bool area 0) eqn:Hle; simpl.
    + apply Qle_bool_iff in Hle. split; [discriminate|].
      intros [_ Hlt]. exfalso. exact (Qlt_not_le _ _ Hlt Hle).
    + split; [|reflexivity]. intros _. split; [reflexivity|].
      apply Qnot_le_lt. intros Hle'. apply Qle_bool_iff in Hle'.
      congruence.
  - split; [discriminate|]. intros [H _]. discriminate H.
Qed.

Lemma faceVisibility_hidden (en : bool) (area : Q) :
  faceVisibility en area = hidden <-> en = false \/ area <= 0.
Proof.
  unfold faceVisibility. destruct en; simpl.
  - destruct (Qle_bool area 0) eqn:Hle; simpl.
    + apply Qle_bool_iff in Hle. split; [intros _; right; exact Hle|reflexivity].
    + split; [discriminate|]. intros [H|H]; [discriminate H|].
      apply Qle_bool_iff in H. congruence.
  - split; [intros _; left; reflexivity|reflexivity].
Qed.

(** A sum whose terms are all zero. *)
Lemma fold_zero_terms (f : nat -> Q) (l : list nat) (a : Q) :
  (forall i, In i l -> f i == 0) ->
  fold_left (fun area i => area + f i) l a == a.
Proof.
  revert a. induction l as [|i l IH]; intros a H; simpl.
  - reflexivity.
  - rewrite IH by (intros k Hk; apply H; right; exact Hk).
    rewrite (H i) by (left; reflexivity). ring.
Qed.

(** Coincident vertexes span no area. *)
Lemma shapeArea_coincident (p : Position3dObject) (n : nat) :
  shapeArea (repeat p n) == 0.
Proof.
  unfold shapeArea. rewrite repeat_length.
  rewrite (fold_zero_terms
             (fun i =>
                x (nth i (repeat p n) (mkPosition 0 0 0))
                * y (nth ((i + 1) mod n) (repeat p n) (mkPosition 0 0 0))
                - x (nth ((i + 1) mod n) (repeat p n) (mkPosition 0 0 0))
                  * y (nth i (repeat p n) (mkPosition 0 0 0)))).
  - reflexivity.
  - intros i Hi. apply in_seq in Hi.
    assert (Hj : ((i + 1) mod n < n)%nat) by (apply Nat.mod_upper_bound; lia).
    assert (Hnth : forall k, (k < n)%nat ->
                     nth k (repeat p n) (mkPosition 0 0 0) = p).
    { intros k Hk. apply nth_repeat_lt. exact Hk. }
    rewrite (Hnth i) by lia. rewrite (Hnth _ Hj). ring.
Qed.

(** C2. An [attr] or [animate] update that supplies [vertexes], [enabled]
    and [insidePlotArea] sets the face visible exactly when [enabled] is
    true and the signed area of the projected polygon is greater than 0, and
    hidden otherwise; the path is the closed line path of the projected
    vertexes.  A projection of zero area, as for coincident vertexes, gives
    a hidden face; both functions are total. *)
Theorem face3d_visibility (perspective : Perspective) (chart : Chart)
    (this : Face) (en : bool) (vs : list Position3dObject) (ipa : bool)
    (dGiven : option SVGPathArray) (visGiven : option Visibility) :
  let hash := mkAttributes (Some en) (Some vs) (Some ipa) dGiven visGiven in
  let params := mkAttributes (Some en) (Some vs) (Some ipa) dGiven None in
  let vertexes2d := perspective vs chart ipa in
  let area := shapeArea vertexes2d in
  (visibility (attr perspective chart this hash) = Some visible
   <-> en = true /\ 0 < area) /\
  (visibility (attr perspective chart this hash) = Some hidden
   <-> en = false \/ area <= 0) /\
  d (attr perspective chart this hash) = Some (toLinePath vertexes2d true) /\
  (visibility (animate perspective chart this params) = Some visible
   <-> en = true /\ 0 < area) /\
  (visibility (animate perspective chart this params) = Some hidden
   <-> en = false \/ area <= 0) /\
  d (animate perspective chart this params)
  = Some (toLinePath vertexes2d true) /\
  (area == 0 ->
   visibility (attr perspective chart this hash) = Some hidden /\
   visibility (animate perspective chart this params) = Some hidden) /\
  (forall p n, vertexes2d = repeat p n ->
   visibility (attr perspective chart this hash) = Some hidden /\
   visibility (animate perspective chart this params) = Some hidden).
Proof.
  intros hash params vertexes2d area.
  assert (Hattr : visibility (attr perspective chart this hash)
                  = Some (faceVisibility en area)) by reflexivity.
  assert (Hanim : visibility (animate perspective chart this params)
                  = Some (faceVisibility en area)) by reflexivity.
  assert (Hzero : area <= 0 ->
     visibility (attr perspective chart this hash) = Some hidden /\
     visibility (animate perspective chart this params) = Some hidden).
  { intros H0. rewrite Hattr, Hanim.
    assert (Hh : faceVisibility en area = hidden)
      by (apply faceVisibility_hidden; right; exact H0).
    rewrite Hh. split; reflexivity. }
  assert (Hvis : forall v, v = Some (faceVisibility en area) ->
            (v = Some visible <-> en = true /\ 0 < area) /\
            (v = Some hidden <-> en = false \/ area <= 0)).
  { intros v ->. split.
    - rewrite <- faceVisibility_visible.
      split; [intros H; injection H as H; exact H|intros ->; reflexivity].
    - rewrite <- faceVisibility_hidden.
      split; [intros H; injection H as H; exact H|intros ->; reflexivity]. }
  destruct (Hvis _ Hattr) as [Ha1 Ha2].
  destruct (Hvis _ Hanim) as [Hb1 Hb2].
  split; [exact Ha1|]. split; [exact Ha2|]. split; [reflexivity|].
  split; [exact Hb1|]. split; [exact Hb2|]. split; [reflexivity|].
  split.
  - intros H0. apply Hzero. rewrite H0. apply Qle_refl.
  - intros p n Hrep. apply Hzero. unfold area. rewrite Hrep.
    rewrite shapeArea_coincident. apply Qle_refl.
Qed.

End Face3d_claims.

(** The face of the example collapses to a point: it is hidden. *)
Lemma face3d_visibility_witness :
  Renderer3D.visibility
    (Renderer3D.attr (Renderer3D.oblique (1 # 2) (1 # 2)) Spec3D.chart15
       Renderer3D.newFace
       (Renderer3D.mkAttributes (Some true) (Some Spec3D.pointFace)
          (Some false) None None))
  = Some Renderer3D.hidden.
Proof.
  pose proof (face3d_visibility (Renderer3D.oblique (1 # 2) (1 # 2))
                Spec3D.chart15 Renderer3D.newFace true Spec3D.pointFace
                false None None) as H.
  cbv zeta in H.
  destruct H as [_ [_ [_ [_ [_ [_ [H _]]]]]]].
  apply H. reflexivity.
Defined.

(** ** Cuboids *)

Section Cuboid_claims.

Import Renderer3D Spec3D.
Local Open Scope Q_scope.

Lemma negative_area_test (a : Q) : negb (Qle_bool 0 a) = true <-> a < 0.
Proof.
  destruct (Qle_bool 0 a) eqn:H; simpl.
  - apply Qle_bool_iff in H. split; [discriminate|].
    intros Hlt. exfalso. exact (Qlt_not_le _ _ Hlt H).
  - split; [|reflexivity]. intros _. apply Qnot_le_lt. intros Hle.
    apply Qle_bool_iff in Hle. congruence.
Qed.

Lemma pickShape_picks (pArr : list Position3dObject) (path1 path2 : list nat) :
  picksNegative (map (mapPath pArr) path1) (map (mapPath pArr) path2)
                (toLinePath (fst (pickShape pArr path1 path2)) true).
Proof.
  unfold picksNegative, pickShape.
  destruct (negb (Qle_bool 0 (shapeArea (map (mapPath pArr) path1)))) eqn:H1.
  - apply negative_area_test in H1. simpl.
    split; [reflexivity|]. split; intros Hn; contradiction.
  - assert (Hn1 : ~ shapeArea (map (mapPath pArr) path1) < 0).
    { intros Hlt. apply negative_area_test in Hlt. congruence. }
    destruct (negb (Qle_bool 0 (shapeArea (map (mapPath pArr) path2)))) eqn:H2.
    + apply negative_area_test in H2. simpl.
      split; [intros Hlt; contradiction|].
      split; [reflexivity|]. intros _ Hn2. contradiction.
    + assert (Hn2 : ~ shapeArea (map (mapPath pArr) path2) < 0).
      { intros Hlt. apply negative_area_test in Hlt. congruence. }
      simpl. split; [intros Hlt; contradiction|].
      split; [intros _ Hlt; contradiction|reflexivity].
Qed.

Lemma cuboidPath_paths (perspective : Perspective) (chart : Chart)
    (shapeArgs : CuboidArgs) :
  let pArr :=
    perspective (corners shapeArgs) chart (c_insidePlotArea shapeArgs) in
  let paths := cuboidPath perspective chart shapeArgs in
  front paths = toLinePath (fst (pickShape pArr frontFace backFace)) true /\
  top paths = toLinePath (fst (pickShape pArr topFace bottomFace)) true /\
  side paths = toLinePath (fst (pickShape pArr rightFace leftFace)) true.
Proof.
  intros pArr paths. unfold paths, cuboidPath. fold pArr.
  destruct (pickShape pArr frontFace backFace) as [p1 f1].
  destruct (pickShape pArr topFace bottomFace) as [p2 f2].
  destruct (pickShape pArr rightFace leftFace) as [p3 f3].
  repeat split.
Qed.

(** C3. For every cuboid and projection, [cuboidPath] returns as [front],
    [top] and [side] the closed line path of the member of front/back,
    top/bottom and right/left that has negative signed area after
    projection, the first member of each pair being tested first (and the
    empty path for a pair with no such member). *)
Theorem cuboidPath_picks_negative_area (perspective : Perspective)
    (chart : Chart) (shapeArgs : CuboidArgs) :
  let pArr :=
    perspective (corners shapeArgs) chart (c_insidePlotArea shapeArgs) in
  let face := map (mapPath pArr) in
  let paths := cuboidPath perspective chart shapeArgs in
  picksNegative (face frontFace) (face backFace) (front paths) /\
  picksNegative (face topFace) (face bottomFace) (top paths) /\
  picksNegative (face rightFace) (face leftFace) (side paths).
Proof.
  intros pArr face paths.
  destruct (cuboidPath_paths perspective chart shapeArgs) as [Hf [Ht Hs]].
  fold pArr in Hf, Ht, Hs. fold paths in Hf, Ht, Hs.
  rewrite Hf, Ht, Hs.
  repeat split; apply pickShape_picks.
Qed.

(** Under the oblique projection [(-1/2, 1/2)] the example cuboid shows its
    front, its bottom and its left face. *)
Lemma cuboidPath_picks_negative_area_witness :
  let pArr := oblique (- (1 # 2)) (1 # 2) (corners box) chart15 false in
  let face := map (mapPath pArr) in
  let paths := cuboidPath (oblique (- (1 # 2)) (1 # 2)) chart15 box in
  front paths = toLinePath (face frontFace) true /\
  top paths = toLinePath (face bottomFace) true /\
  side paths = toLinePath (face leftFace) true.
Proof.
  intros pArr face paths.
  destruct (cuboidPath_picks_negative_area (oblique (- (1 # 2)) (1 # 2))
              chart15 box) as [[Hf _] [[_ [Ht _]] [_ [Hs _]]]].
  split; [|split].
  - apply Hf. reflexivity.
  - apply Ht; [discriminate|reflexivity].
  - apply Hs; [discriminate|reflexivity].
Defined.

End Cuboid_claims.

(** ** 3D arcs *)

Section Arc3d_claims.

Import Arc3D.
Local Open Scope R_scope.

(** The remainder of a non-negative number by a positive one. *)
Lemma remainder_range (a m : R) :
  0 <= a -> 0 < m -> 0 <= remainder a m < m.
Proof.
  intros Ha Hm. unfold remainder, truncate.
  assert (Hq : 0 <= a / m).
  { unfold Rdiv. apply Rmult_le_pos; [exact Ha|].
    left. apply Rinv_0_lt_compat. exact Hm. }
  destruct (Rle_dec 0 (a / m)) as [_|Hn]; [|contradiction].
  destruct (base_Int_part (a / m)) as [Hlo Hhi].
  assert (Ham : a = m * (a / m)) by (field; lra).
  set (k := IZR (Int_part (a / m))) in *.
  split.
  - assert (m * k <= m * (a / m)) by (apply Rmult_le_compat_l; lra). lra.
  - assert (m * (a / m - 1) < m * k) by (apply Rmult_lt_compat_l; lra). lra.
Qed.

(** [toZeroPIRange] of a non-negative angle lies between 0 and PI. *)
Lemma toZeroPIRange_range (angle : R) :
  0 <= angle -> 0 <= toZeroPIRange angle <= PI.
Proof.
  intros Ha. unfold toZeroPIRange.
  pose proof PI_RGT_0 as Hpi.
  destruct (remainder_range angle (2 * PI) Ha) as [H0 H1]; [lra|].
  destruct (Rlt_dec PI (remainder angle (2 * PI))); lra.
Qed.

Lemma max3_bounds (a1 a2 a3 : R) :
  a1 <= max3 a1 a2 a3 /\ a2 <= max3 a1 a2 a3 /\ a3 <= max3 a1 a2 a3.
Proof.
  unfold max3.
  pose proof (Rmax_l (Rmax a1 a2) a3). pose proof (Rmax_r (Rmax a1 a2) a3).
  pose proof (Rmax_l a1 a2). pose proof (Rmax_r a1 a2).
  repeat split; lra.
Qed.

Lemma max3_le (a1 a2 a3 b : R) :
  a1 <= b -> a2 <= b -> a3 <= b -> max3 a1 a2 a3 <= b.
Proof.
  intros H1 H2 H3. unfold max3. repeat apply Rmax_lub; assumption.
Qed.

(** C4. The z-indexes of an arc: [zTop] lies strictly above [zOut],
    [zInn], [zSide1] and [zSide2]; [zOut] equals [zInn]; neither side
    exceeds [zOut]; [zSide1] comes from the corrected end angle and
    [zSide2] from the corrected start angle. *)
Theorem arc3dPath_zIndex_order (atan2 : R -> R -> R) (shapeArgs : ArcArgs) :
  let z := arc3dPath atan2 shapeArgs in
  zOut z < zTop z /\ zInn z < zTop z /\
  zSide1 z < zTop z /\ zSide2 z < zTop z /\
  zOut z = zInn z /\
  zSide1 z <= zOut z /\ zSide2 z <= zOut z /\
  zSide1 z = angleEnd atan2 shapeArgs * 100000 * (99 / 100) /\
  zSide2 z = angleStart atan2 shapeArgs * 100000 * (99 / 100).
Proof.
  intros z. unfold z, arc3dPath. cbn [zTop zOut zInn zSide1 zSide2].
  pose proof PI_RGT_0 as Hpi.
  destruct (toZeroPIRange_range
              (Rabs ((start shapeArgs + (end_ shapeArgs - 1 / 100000)) / 2
                     + angleCorr atan2 shapeArgs)) (Rabs_pos _)) as [Hm0 Hm1].
  destruct (toZeroPIRange_range
              (Rabs (start shapeArgs + angleCorr atan2 shapeArgs))
              (Rabs_pos _)) as [Hs0 Hs1].
  destruct (toZeroPIRange_range
              (Rabs (end_ shapeArgs - 1 / 100000 + angleCorr atan2 shapeArgs))
              (Rabs_pos _)) as [He0 He1].
  fold (angleMid atan2 shapeArgs) in Hm0, Hm1.
  fold (angleStart atan2 shapeArgs) in Hs0, Hs1.
  fold (angleEnd atan2 shapeArgs) in He0, He1.
  set (a1 := angleMid atan2 shapeArgs * 100000).
  set (a2 := angleStart atan2 shapeArgs * 100000).
  set (a3 := angleEnd atan2 shapeArgs * 100000).
  assert (Hmax : max3 a1 a2 a3 <= PI * 100000).
  { apply max3_le; unfold a1, a2, a3; nra. }
  destruct (max3_bounds a1 a2 a3) as [_ [Hb2 Hb3]].
  assert (H2 : 0 <= a2) by (unfold a2; nra).
  assert (H3 : 0 <= a3) by (unfold a3; nra).
  repeat split; try reflexivity; lra.
Qed.

End Arc3d_claims.

(** ** Grid axis *)

Section GridAxis_claims.

Import GridAxis SpecGrid.

Lemma combine_seq_snoc (coll : list Axis) (a : Axis) :
  combine (seq 0 (length (coll ++ [a]))) (coll ++ [a])
  = combine (seq 0 (length coll)) coll ++ [(length coll, a)].
Proof.
  rewrite length_app. simpl length.
  rewrite Nat.add_1_r, seq_S. simpl.
  apply combine_snoc. rewrite length_seq. reflexivity.
Qed.

Lemma highestCounting_snoc_skip (coll : list Axis) (axis a : Axis)
    (parent : option LinkedParent) :
  counts axis a = false ->
  highestCounting (coll ++ [a]) axis parent <-> highestCounting coll axis parent.
Proof.
  intros Ha. split.
  - intros [k [b [Hk [Hc [Hs Hlast]]]]].
    destruct (Nat.lt_ge_cases k (length coll)) as [Hlt|Hge].
    + exists k, b. rewrite nth_error_app1 in Hk by exact Hlt.
      repeat split; try assumption.
      intros j c Hj Hjc. apply (Hlast j c Hj).
      rewrite nth_error_app1; [exact Hjc|].
      apply nth_error_Some. congruence.
    + rewrite nth_error_app2 in Hk by exact Hge.
      destruct (k - length coll)%nat as [|m]; simpl in Hk.
      * injection Hk as <-. congruence.
      * destruct m; discriminate Hk.
  - intros [k [b [Hk [Hc [Hs Hlast]]]]].
    assert (Hlt : (k < length coll)%nat)
      by (apply nth_error_Some; congruence).
    exists k, b. rewrite nth_error_app1 by exact Hlt.
    repeat split; try assumption.
    intros j c Hj Hjc.
    destruct (Nat.lt_ge_cases j (length coll)) as [Hjl|Hjg].
    + rewrite nth_error_app1 in Hjc by exact Hjl. exact (Hlast j c Hj Hjc).
    + rewrite nth_error_app2 in Hjc by exact Hjg.
      destruct (j - length coll)%nat as [|m]; simpl in Hjc.
      * injection Hjc as <-. exact Ha.
      * destruct m; discriminate Hjc.
Qed.

Lemma highestCounting_snoc_count (coll : list Axis) (axis a : Axis)
    (parent : option LinkedParent) :
  counts axis a = true ->
  highestCounting (coll ++ [a]) axis parent <-> sameObject a parent = true.
Proof.
  intros Ha. split.
  - intros [k [b [Hk [Hc [Hs Hlast]]]]].
    destruct (Nat.lt_ge_cases k (length coll)) as [Hlt|Hge].
    + assert (Hf : counts axis a = false).
      { apply (Hlast (length coll) a Hlt).
        rewrite nth_error_app2 by lia. rewrite Nat.sub_diag. reflexivity. }
      congruence.
    + rewrite nth_error_app2 in Hk by exact Hge.
      destruct (k - length coll)%nat as [|m]; simpl in Hk.
      * injection Hk as <-. exact Hs.
      * destruct m; discriminate Hk.
  - intros Hs. exists (length coll), a.
    rewrite nth_error_app2 by lia. rewrite Nat.sub_diag.
    repeat split; try assumption.
    intros j c Hj Hjc.
    assert (Hjlt : (j < length (coll ++ [a]))%nat)
      by (apply nth_error_Some; congruence).
    rewrite length_app in Hjlt. simpl in Hjlt. lia.
Qed.

(** The pair [(thisIndex, lastIndex)] after the loop over [coll]. *)
Lemma forEach_indices (axis : Axis) (parent : option LinkedParent)
    (coll : list Axis) :
  let st := fold_left (visit axis parent)
                      (combine (seq 0 (length coll)) coll) ((-1)%Z, 0%Z) in
  (fst st < Z.of_nat (length coll))%Z /\
  (snd st = fst st <-> highestCounting coll axis parent).
Proof.
  induction coll as [|a coll IH] using rev_ind.
  - simpl. split; [lia|]. split; [discriminate|].
    intros [k [b [Hk _]]]. destruct k; discriminate Hk.
  - cbv zeta in IH |- *.
    rewrite combine_seq_snoc, fold_left_app. cbn [fold_left].
    destruct (fold_left (visit axis parent)
                (combine (seq 0 (length coll)) coll) ((-1)%Z, 0%Z))
      as [thisIndex lastIndex].
    destruct IH as [Hlt IH]. cbn [fst snd] in Hlt, IH.
    rewrite length_app. simpl length. unfold visit.
    destruct (counts axis a) eqn:Hc.
    + destruct (sameObject a parent) eqn:Hs; cbn [fst snd].
      * split; [lia|]. split; [|reflexivity]. intros _.
        apply highestCounting_snoc_count; assumption.
      * split; [lia|]. split.
        -- intros Heq. lia.
        -- intros H. apply highestCounting_snoc_count in H; [|exact Hc].
           congruence.
    + cbn [fst snd]. split; [lia|].
      rewrite highestCounting_snoc_skip by exact Hc. exact IH.
Qed.

(** C8. [isOuterAxis] answers [true] exactly when the axis (for a column
    axis, its linked parent) has the highest index among the axes of the
    collection that are on the same side and not internal, and, when the
    axis has a numeric [columnIndex], that index equals the length of the
    columns array.  Among the three mock axes on the left side exactly the
    one with the highest index is the outer axis. *)
Theorem isOuterAxis_true_iff (coll : list Axis) (axis : Axis) :
  (isOuterAxis coll axis = Some true
   <-> highestCounting coll axis (parentAxisOf axis) /\ lastColumn axis) /\
  map (isOuterAxis mockAxes) mockAxes = [Some false; Some false; Some true].
Proof.
  split; [|reflexivity].
  unfold isOuterAxis.
  pose proof (forEach_indices axis (parentAxisOf axis) coll) as H.
  cbv zeta in H.
  destruct (fold_left (visit axis (parentAxisOf axis))
              (combine (seq 0 (length coll)) coll) ((-1)%Z, 0%Z))
    as [thisIndex lastIndex].
  destruct H as [_ H]. cbn [fst snd] in H.
  unfold lastColumn.
  destruct (Z.eqb_spec lastIndex thisIndex) as [Heq|Hne].
  - apply H in Heq.
    destruct (columnIndex axis) as [k|].
    + destruct (columnsOf axis) as [c|].
      * split.
        -- intros Ht. injection Ht as Ht. apply Nat.eqb_eq in Ht.
           split; [exact Heq|]. intros k' Hk'. injection Hk' as <-.
           exists c. split; [reflexivity|exact Ht].
        -- intros [_ Hcol]. destruct (Hcol k eq_refl) as [c' [Hc' Hlen]].
           injection Hc' as <-. f_equal. apply Nat.eqb_eq. exact Hlen.
      * split; [discriminate|].
        intros [_ Hcol]. destruct (Hcol k eq_refl) as [c' [Hc' _]].
        discriminate Hc'.
    + split; [|reflexivity]. intros _. split; [exact Heq|].
      intros k Hk. discriminate Hk.
  - split; [discriminate|]. intros [Hh _]. apply H in Hh. contradiction.
Qed.



End GridAxis_claims.

(** ** [correctFloat]: rounding twice is rounding once *)

Section Rounding_exponent.

Import Utilities.
Local Open Scope Z_scope.

Lemma expUp_spec (fuel : nat) : forall num den e,
  0 < den -> den <= num -> num < den * 10 ^ Z.of_nat fuel ->
  let r := expUp fuel num den e in
  e <= r /\ den * 10 ^ (r - e) <= num /\ num < den * 10 ^ (r - e + 1).
Proof.
  induction fuel as [|f IH]; intros num den e Hden Hle Hlt r.
  - simpl in Hlt. lia.
  - unfold r. simpl expUp.
    destruct (Z.leb_spec (den * 10) num) as [H10|H10].
    + destruct (IH num (den * 10) (e + 1)) as [H1 [H2 H3]]; try lia.
      { rewrite Nat2Z.inj_succ, Z.pow_succ_r in Hlt by lia. lia. }
      set (r' := expUp f num (den * 10) (e + 1)) in *.
      split; [lia|].
      replace (r' - e) with (Z.succ (r' - (e + 1))) by lia.
      replace (Z.succ (r' - (e + 1)) + 1) with (Z.succ (r' - (e + 1) + 1)) by lia.
      rewrite !Z.pow_succ_r by lia. split; lia.
    + rewrite Z.sub_diag. simpl. split; lia.
Qed.

Lemma expDown_spec (fuel : nat) : forall num den e,
  0 < num -> 0 < den -> num < den * 10 ->
  (1 <= fuel)%nat -> den <= num * 10 ^ (Z.of_nat fuel - 1) ->
  let r := expDown fuel num den e in
  r <= e /\ den <= num * 10 ^ (e - r) /\ num * 10 ^ (e - r) < den * 10.
Proof.
  induction fuel as [|f IH]; intros num den e Hnum Hden Hlt Hf Hfuel r.
  - lia.
  - unfold r. simpl expDown.
    destruct (Z.leb_spec den num) as [Hle|Hgt].
    + rewrite Z.sub_diag. simpl. split; lia.
    + assert (Hf1 : (1 <= f)%nat).
      { destruct f; [|lia]. simpl in Hfuel. lia. }
      destruct (IH (num * 10) den (e - 1)) as [H1 [H2 H3]]; try lia.
      { replace (Z.of_nat (S f) - 1) with (Z.succ (Z.of_nat f - 1)) in Hfuel by lia.
        rewrite Z.pow_succ_r in Hfuel by lia. lia. }
      set (r' := expDown f (num * 10) den (e - 1)) in *.
      split; [lia|].
      replace (e - r') with (Z.succ (e - 1 - r')) by lia.
      rewrite Z.pow_succ_r by lia. split; lia.
Qed.

Lemma pow2_le_pow10 (k : Z) : 0 <= k -> 2 ^ k <= 10 ^ k.
Proof. intros Hk. apply Z.pow_le_mono_l. lia. Qed.

Lemma lt_pow10_log2 (n : Z) : 0 < n -> n < 10 ^ (Z.log2 n + 1).
Proof.
  intros Hn. destruct (Z.log2_spec n Hn) as [_ H].
  pose proof (pow2_le_pow10 (Z.log2 n + 1)) as H2.
  pose proof (Z.log2_nonneg n).
  replace (Z.succ (Z.log2 n)) with (Z.log2 n + 1) in H by lia. lia.
Qed.

End Rounding_exponent.

Section Rounding_power.

Import Utilities.
Local Open Scope Q_scope.

Lemma Qpower10_nonneg (k : Z) : (0 <= k)%Z -> 10 ^ k == inject_Z (10 ^ k).
Proof. intros Hk. rewrite Zpower_Qpower by exact Hk. reflexivity. Qed.

Lemma Qpower10_neg (k : Z) : (0 <= k)%Z -> 10 ^ (- k) == / inject_Z (10 ^ k).
Proof. intros Hk. rewrite Qpower_opp, Qpower10_nonneg by exact Hk. reflexivity. Qed.

Lemma exponent10_spec (q : Q) :
  ~ q == 0 ->
  10 ^ exponent10 q <= Qabs q /\ Qabs q < 10 ^ (exponent10 q + 1).
Proof.
  intros Hq. destruct q as [n d]. unfold exponent10. cbn [Qnum Qden Qabs].
  assert (Hn : (0 < Z.abs n)%Z).
  { assert (n <> 0%Z); [|lia]. intros ->. apply Hq. reflexivity. }
  set (num := Z.abs n) in *. set (den := Z.pos d).
  assert (Hd : (0 < den)%Z) by (unfold den; lia).
  destruct (Z.leb_spec den num) as [Hle|Hgt].
  - destruct (expUp_spec (S (Z.to_nat (Z.log2 num))) num den 0)
      as [H0 [H1 H2]]; try assumption.
    { rewrite Nat2Z.inj_succ, Z2Nat.id by apply Z.log2_nonneg.
      pose proof (lt_pow10_log2 num Hn).
      replace (Z.succ (Z.log2 num)) with (Z.log2 num + 1)%Z by lia. nia. }
    set (r := expUp (S (Z.to_nat (Z.log2 num))) num den 0) in *.
    rewrite Z.sub_0_r in H1, H2.
    rewrite !Qpower10_nonneg by lia.
    unfold Qle, Qlt. cbn [Qnum Qden inject_Z]. fold den. split; lia.
  - destruct (expDown_spec (S (S (Z.to_nat (Z.log2 den)))) num den 0)
      as [H0 [H1 H2]]; try lia.
    { rewrite !Nat2Z.inj_succ, Z2Nat.id by apply Z.log2_nonneg.
      pose proof (lt_pow10_log2 den Hd).
      replace (Z.succ (Z.succ (Z.log2 den)) - 1)%Z with (Z.log2 den + 1)%Z by lia.
      nia. }
    set (r := expDown (S (S (Z.to_nat (Z.log2 den)))) num den 0) in *.
    rewrite Z.sub_0_l in H1, H2.
    assert (Hr : (r <= -1)%Z).
    { destruct (Z.eq_dec r 0) as [Hr0|Hr0]; [|lia].
      rewrite Hr0 in H1. simpl in H1. lia. }
    assert (Hpk : (0 < 10 ^ (- r))%Z) by (apply Z.pow_pos_nonneg; lia).
    assert (Hpk1 : (0 < 10 ^ (- (r + 1)))%Z) by (apply Z.pow_pos_nonneg; lia).
    replace r with (- (- r))%Z at 1 by lia.
    replace (r + 1)%Z with (- (- (r + 1)))%Z by lia.
    rewrite !Qpower10_neg by lia.
    split.
    + setoid_replace (/ inject_Z (10 ^ (- r))) with (1 / inject_Z (10 ^ (- r)))
        by (unfold Qdiv; ring).
      apply Qle_shift_div_r.
      * unfold Qlt. simpl. lia.
      * unfold Qle. cbn [Qnum Qden inject_Z Qmult]. fold den. lia.
    + setoid_replace (/ inject_Z (10 ^ (- (r + 1))))
        with (1 / inject_Z (10 ^ (- (r + 1)))) by (unfold Qdiv; ring).
      apply Qlt_shift_div_l.
      * unfold Qlt. simpl. lia.
      * unfold Qlt. cbn [Qnum Qden inject_Z Qmult]. fold den.
        replace (- r)%Z with (Z.succ (- (r + 1))) in H2 by lia.
        rewrite Z.pow_succ_r in H2 by lia. lia.
Qed.

Lemma exponent10_unique (a : Q) (e1 e2 : Z) :
  10 ^ e1 <= a -> a < 10 ^ (e1 + 1) ->
  10 ^ e2 <= a -> a < 10 ^ (e2 + 1) -> e1 = e2.
Proof.
  intros H1 H2 H3 H4.
  assert (Ha : (e1 < e2 + 1)%Z).
  { apply (Qpower_lt_compat_l_inv 10); [|reflexivity].
    eapply Qle_lt_trans; eassumption. }
  assert (Hb : (e2 < e1 + 1)%Z).
  { apply (Qpower_lt_compat_l_inv 10); [|reflexivity].
    eapply Qle_lt_trans; eassumption. }
  lia.
Qed.

Lemma Qfloor_half (n : Z) : Qfloor (inject_Z n + (1 # 2)) = n.
Proof.
  pose proof (Qfloor_le (inject_Z n + (1 # 2))) as H1.
  pose proof (Qlt_floor (inject_Z n + (1 # 2))) as H2.
  set (f := Qfloor (inject_Z n + (1 # 2))) in *.
  unfold Qle, Qlt in *. cbn [Qnum Qden inject_Z Qplus] in *. lia.
Qed.

Lemma Qpower10_pos (z : Z) : 0 < 10 ^ z.
Proof. apply Qpower_0_lt. reflexivity. Qed.

Lemma Qpower10_split (a b : Z) : 10 ^ (a + b) == 10 ^ a * 10 ^ b.
Proof. apply Qpower_plus. discriminate. Qed.

End Rounding_power.

Section Magnitude.

Import Utilities.
Local Open Scope Q_scope.

Variables (prec : Z) (q : Q).
Hypothesis Hprec : (1 <= prec)%Z.
Hypothesis Hq : ~ q == 0.

Let e := exponent10 q.
Let scale := 10 ^ (prec - 1 - e).
Let n := Qfloor (Qabs q * scale + (1 # 2)).

Lemma scaled_lower : inject_Z (10 ^ (prec - 1)) <= Qabs q * scale.
Proof.
  destruct (exponent10_spec q Hq) as [Hlo _]. fold e in Hlo.
  assert (Hsplit : inject_Z (10 ^ (prec - 1)) == 10 ^ e * scale).
  { rewrite <- Qpower10_nonneg by lia. unfold scale.
    rewrite <- Qpower10_split. f_equiv. lia. }
  rewrite Hsplit.
  apply Qmult_le_compat_r; [exact Hlo|].
  apply Qlt_le_weak. apply Qpower10_pos.
Qed.

Lemma scaled_upper : Qabs q * scale < inject_Z (10 ^ prec).
Proof.
  destruct (exponent10_spec q Hq) as [_ Hhi]. fold e in Hhi.
  assert (Hsplit : inject_Z (10 ^ prec) == 10 ^ (e + 1) * scale).
  { rewrite <- Qpower10_nonneg by lia. unfold scale.
    rewrite <- Qpower10_split. f_equiv. lia. }
  rewrite Hsplit.
  apply Qmult_lt_compat_r; [apply Qpower10_pos|exact Hhi].
Qed.

Lemma digits_lower : (10 ^ (prec - 1) <= n)%Z.
Proof.
  rewrite <- (Qfloor_Z (10 ^ (prec - 1))). unfold n.
  apply Qfloor_resp_le.
  eapply Qle_trans; [apply scaled_lower|].
  rewrite <- (Qplus_0_r (Qabs q * scale)) at 1.
  apply Qplus_le_r. discriminate.
Qed.

Lemma digits_upper : (n <= 10 ^ prec)%Z.
Proof.
  pose proof (Qfloor_le (Qabs q * scale + (1 # 2))) as H1. fold n in H1.
  assert (H2 : inject_Z n < inject_Z (10 ^ prec) + (1 # 2)).
  { eapply Qle_lt_trans; [exact H1|].
    apply Qplus_lt_l. apply scaled_upper. }
  unfold Qlt in H2. cbn [Qnum Qden inject_Z Qplus] in H2. lia.
Qed.

End Magnitude.

Section Rounding_fixed.

Import Utilities Rounding.
Local Open Scope Q_scope.

Lemma Qdiv_mult_cancel (a s : Q) : 0 < s -> a / s * s == a.
Proof. intros Hs. field. intros H0. rewrite H0 in Hs. discriminate Hs. Qed.

(** A magnitude with [prec] digits and exponent [e] rounds to itself. *)
Lemma magnitude_fixed (prec e n : Z) (v : Q) :
  (1 <= prec)%Z -> (10 ^ (prec - 1) <= n <= 10 ^ prec)%Z ->
  Qabs v == inject_Z n / 10 ^ (prec - 1 - e) ->
  inject_Z (Qfloor (Qabs v * 10 ^ (prec - 1 - exponent10 v) + (1 # 2)))
  / 10 ^ (prec - 1 - exponent10 v)
  == inject_Z n / 10 ^ (prec - 1 - e).
Proof.
  intros Hprec [Hn1 Hn2] Habs.
  set (scale := 10 ^ (prec - 1 - e)) in *.
  assert (Hs : 0 < scale) by apply Qpower10_pos.
  assert (Hpow : (0 < 10 ^ (prec - 1))%Z) by (apply Z.pow_pos_nonneg; lia).
  assert (Hv : ~ v == 0).
  { intros H0. rewrite H0 in Habs. simpl Qabs in Habs.
    assert (Hpos : 0 < inject_Z n / scale).
    { apply Qlt_shift_div_l; [exact Hs|]. rewrite Qmult_0_l.
      unfold Qlt. simpl. lia. }
    rewrite <- Habs in Hpos. discriminate Hpos. }
  destruct (exponent10_spec v Hv) as [Hlo Hhi].
  assert (HsplitLo : 10 ^ e == inject_Z (10 ^ (prec - 1)) / scale).
  { unfold scale. rewrite <- Qpower10_nonneg by lia.
    rewrite <- Qpower_minus by discriminate. f_equiv. lia. }
  assert (HsplitHi : 10 ^ (e + 1) == inject_Z (10 ^ prec) / scale).
  { unfold scale. rewrite <- Qpower10_nonneg by lia.
    rewrite <- Qpower_minus by discriminate. f_equiv. lia. }
  assert (HMlo : 10 ^ e <= Qabs v).
  { rewrite HsplitLo, Habs. unfold Qdiv.
    apply Qmult_le_compat_r; [rewrite <- Zle_Qle; exact Hn1|].
    apply Qlt_le_weak. apply Qinv_lt_0_compat. exact Hs. }
  destruct (Z.eq_dec n (10 ^ prec)) as [Heq|Hne].
  - (* the digits carry into the next decade *)
    assert (HM : Qabs v == 10 ^ (e + 1)).
    { rewrite HsplitHi, Habs, Heq. reflexivity. }
    assert (He : exponent10 v = (e + 1)%Z).
    { apply (exponent10_unique (Qabs v)); try assumption.
      - rewrite HM. apply Qle_refl.
      - rewrite HM. apply Qpower_lt_compat_l; [lia|reflexivity]. }
    rewrite He.
    assert (Hscaled : Qabs v * 10 ^ (prec - 1 - (e + 1))
                      == inject_Z (10 ^ (prec - 1))).
    { rewrite HM, <- Qpower10_split, <- Qpower10_nonneg by lia.
      f_equiv. lia. }
    rewrite (Qfloor_comp _ _ (Qplus_comp _ _ Hscaled _ _ (Qeq_refl (1 # 2)))).
    rewrite Qfloor_half, Heq.
    rewrite <- !Qpower10_nonneg by lia.
    unfold scale. rewrite <- !Qpower_minus by discriminate.
    f_equiv. lia.
  - assert (HMhi : Qabs v < 10 ^ (e + 1)).
    { rewrite HsplitHi, Habs. unfold Qdiv.
      apply Qmult_lt_compat_r; [apply Qinv_lt_0_compat; exact Hs|].
      rewrite <- Zlt_Qlt. lia. }
    assert (He : exponent10 v = e).
    { apply (exponent10_unique (Qabs v)); assumption. }
    rewrite He. fold scale.
    assert (Hscaled : Qabs v * scale == inject_Z n).
    { rewrite Habs. apply Qdiv_mult_cancel. exact Hs. }
    rewrite (Qfloor_comp _ _ (Qplus_comp _ _ Hscaled _ _ (Qeq_refl (1 # 2)))).
    rewrite Qfloor_half. reflexivity.
Qed.

Lemma toPrecision_idempotent (prec : Z) (q : Q) :
  (1 <= prec)%Z -> toPrecision prec (toPrecision prec q) == toPrecision prec q.
Proof.
  intros Hprec. unfold toPrecision at 2 3.
  destruct (Qeq_bool q 0) eqn:Hq0; [reflexivity|].
  apply Qeq_bool_neq in Hq0.
  pose proof (digits_lower prec q Hprec Hq0) as Hn1.
  pose proof (digits_upper prec q Hprec Hq0) as Hn2.
  set (e := exponent10 q) in *.
  set (scale := 10 ^ (prec - 1 - e)) in *.
  set (n := Qfloor (Qabs q * scale + (1 # 2))) in *.
  set (M := inject_Z n / scale).
  assert (Hs : 0 < scale) by apply Qpower10_pos.
  assert (HM : 0 < M).
  { unfold M. apply Qlt_shift_div_l; [exact Hs|]. rewrite Qmult_0_l.
    assert (Hpow : (0 < 10 ^ (prec - 1))%Z) by (apply Z.pow_pos_nonneg; lia).
    unfold Qlt. simpl. lia. }
  destruct (Qle_bool 0 q) eqn:Hsign.
  - (* q is positive *)
    assert (Habs : Qabs M == inject_Z n / 10 ^ (prec - 1 - e)).
    { apply Qabs_pos. apply Qlt_le_weak. exact HM. }
    pose proof (magnitude_fixed prec e n M Hprec (conj Hn1 Hn2) Habs) as Hfix.
    unfold toPrecision.
    assert (HMne : Qeq_bool M 0 = false).
    { destruct (Qeq_bool M 0) eqn:H0; [|reflexivity].
      apply Qeq_bool_eq in H0. rewrite H0 in HM. discriminate HM. }
    assert (HMs : Qle_bool 0 M = true).
    { apply Qle_bool_iff. apply Qlt_le_weak. exact HM. }
    rewrite HMne, HMs. exact Hfix.
  - (* q is negative *)
    assert (Habs : Qabs (- M) == inject_Z n / 10 ^ (prec - 1 - e)).
    { rewrite Qabs_opp. apply Qabs_pos. apply Qlt_le_weak. exact HM. }
    pose proof (magnitude_fixed prec e n (- M) Hprec (conj Hn1 Hn2) Habs)
      as Hfix.
    unfold toPrecision.
    assert (HMlt : - M < 0).
    { apply Qopp_lt_compat in HM. exact HM. }
    assert (HMne : Qeq_bool (- M) 0 = false).
    { destruct (Qeq_bool (- M) 0) eqn:H0; [|reflexivity].
      apply Qeq_bool_eq in H0. rewrite H0 in HMlt. discriminate HMlt. }
    assert (HMs : Qle_bool 0 (- M) = false).
    { destruct (Qle_bool 0 (- M)) eqn:H0; [|reflexivity].
      apply Qle_bool_iff in H0. exfalso. exact (Qlt_not_le _ _ HMlt H0). }
    rewrite HMne, HMs. rewrite Hfix. reflexivity.
Qed.

Lemma correctFloat_idempotent (num : Q) :
  correctFloat (correctFloat num) == correctFloat num.
Proof. apply toPrecision_idempotent. lia. Qed.

(** A result of [correctFloat] is a rounded number. *)
Lemma isCorrectFloat_rounded (v : Q) : isCorrectFloat v -> rounded v.
Proof.
  intros [num ->]. unfold rounded. apply correctFloat_idempotent.
Qed.

End Rounding_fixed.

(** ** Which indicators round their outputs *)

Section Rounding_claims.

Import JS EMAIndicator SMAIndicator Rounding.
Local Open Scope Q_scope.

Lemma DEMA_isCorrectFloat (proto : Prototype) (chart : Chart) (s : Series)
    (prm : Params) (r : Values) :
  DEMAIndicator.getValues proto chart s prm = Some r ->
  Forall isCorrectFloat (outY r).
Proof.
  unfold DEMAIndicator.getValues.
  destruct (length (yData s) <? 2 * period prm - 1)%nat; [discriminate|].
  intros H. injection H as <-. cbn [outY].
  match goal with
  | |- context [fold_left ?f (seq ?a ?m) ?st0] =>
      pose proof (loop_DInv proto chart (period prm)
                    (switchIndex (yData s) (index prm)) (xData s) (yData s)
                    m 0 st0) as HI
  end.
  rewrite Nat.add_0_r in HI. apply HI.
  constructor; simpl; try reflexivity. constructor.
Qed.

Lemma TEMA_isCorrectFloat (proto : Prototype) (chart : Chart) (s : Series)
    (prm : Params) (r : Values) :
  TEMAIndicator.getValues proto chart s prm = Some r ->
  Forall isCorrectFloat (outY r).
Proof.
  unfold TEMAIndicator.getValues.
  destruct (length (yData s) <? 3 * period prm - 2)%nat; [discriminate|].
  intros H. injection H as <-. cbn [outY].
  match goal with
  | |- context [fold_left ?f (seq ?a ?m) ?st0] =>
      pose proof (loop_TInv proto chart (period prm)
                    (switchIndex (yData s) (index prm)) (xData s) (yData s)
                    m 0 st0) as HI
  end.
  rewrite Nat.add_0_r in HI. apply HI.
  constructor; simpl; try reflexivity. constructor.
Qed.

Lemma PPO_loop (SPE LPE : Values) (periodsOffset : nat) (l : list nat)
    (st : list (Q * Q) * list Q * list Q) :
  Forall isCorrectFloat (snd st) ->
  Forall isCorrectFloat
    (snd (fold_left (PPOIndicator.step SPE LPE periodsOffset) l st)).
Proof.
  revert st. induction l as [|i l IH]; intros st Hst; simpl.
  - exact Hst.
  - apply IH. destruct st as [[PPO xs] ys]. simpl in *.
    apply Forall_app. split; [exact Hst|].
    constructor; [|constructor]. eexists. reflexivity.
Qed.

Lemma PPO_isCorrectFloat (proto : Prototype) (s : Series)
    (prm : PPOIndicator.Params) (r : Values) :
  PPOIndicator.getValues proto s prm = Some r ->
  Forall isCorrectFloat (outY r).
Proof.
  unfold PPOIndicator.getValues.
  destruct (PPOIndicator.periodsIncorrect (PPOIndicator.periods prm));
    [discriminate|].
  destruct (EMAIndicator.getValues proto s _) as [SPE|]; [|discriminate].
  destruct (EMAIndicator.getValues proto s _) as [LPE|]; [|discriminate].
  pose proof (PPO_loop SPE LPE
                (nth 1 (PPOIndicator.periods prm) 0
                 - nth 0 (PPOIndicator.periods prm) 0)%nat
                (seq 0 (length (outY LPE))) ([], [], [])) as H.
  destruct (fold_left _ _ _) as [[PPO xs] ys].
  intros Hr. injection Hr as <-. cbn [outY]. apply H. constructor.
Qed.

Lemma Forall_rounded (l : list Q) :
  Forall isCorrectFloat l -> Forall rounded l.
Proof.
  intros H. eapply Forall_impl; [|exact H].
  intros v. apply isCorrectFloat_rounded.
Qed.

(** C9, as the code has it.  DEMA, TEMA and PPO pass every value they
    place in the returned [yData] through [correctFloat], so each is a
    number of at most 14 significant digits.  SMA and the stochastic
    oscillator place their quotients in [yData] as computed: the mean 4/3
    and the [K] value 100/3 are returned unrounded. *)
Theorem cascade_outputs_rounded (proto : Prototype) (chart : Chart)
    (s : Series) (prm : Params) (ppo : PPOIndicator.Params) :
  (forall r, DEMAIndicator.getValues proto chart s prm = Some r ->
     Forall isCorrectFloat (outY r) /\ Forall rounded (outY r)) /\
  (forall r, TEMAIndicator.getValues proto chart s prm = Some r ->
     Forall isCorrectFloat (outY r) /\ Forall rounded (outY r)) /\
  (forall r, PPOIndicator.getValues proto s ppo = Some r ->
     Forall isCorrectFloat (outY r) /\ Forall rounded (outY r)) /\
  (exists r v,
     getValues ExamplesRounding.thirds (mkParams 3 None) = Some r /\
     outY r = [v] /\ v == 4 # 3 /\ roundedb v = false) /\
  (exists r x K d,
     StochasticIndicator.getValues ExamplesRounding.oneThird
       (StochasticIndicator.mkParams (1%nat, 3%nat)) = Some r /\
     StochasticIndicator.values r = [(x, K, d)] /\
     K == 100 # 3 /\ roundedb K = false).
Proof.
  split; [|split; [|split; [|split]]].
  - intros r Hr. pose proof (DEMA_isCorrectFloat _ _ _ _ _ Hr) as H.
    split; [exact H|apply Forall_rounded; exact H].
  - intros r Hr. pose proof (TEMA_isCorrectFloat _ _ _ _ _ Hr) as H.
    split; [exact H|apply Forall_rounded; exact H].
  - intros r Hr. pose proof (PPO_isCorrectFloat _ _ _ _ Hr) as H.
    split; [exact H|apply Forall_rounded; exact H].
  - eexists. eexists. split; [reflexivity|]. split; [reflexivity|].
    split; [reflexivity|]. vm_compute. reflexivity.
  - eexists. eexists. eexists. eexists. split; [reflexivity|].
    split; [reflexivity|]. split; [reflexivity|]. vm_compute. reflexivity.
Qed.

(** The theorem at the series of the SMA example: DEMA and TEMA with
    period 2 and PPO with periods [[2, 3]] over the EMA of the spec. *)
Lemma cascade_outputs_rounded_witness :
  (exists r, DEMAIndicator.getValues specPrototype ExamplesRounding.chart
               Spec.smaExample (mkParams 2 None) = Some r /\
             Forall rounded (outY r)) /\
  (exists r, TEMAIndicator.getValues specPrototype ExamplesRounding.chart
               Spec.smaExample (mkParams 2 None) = Some r /\
             Forall rounded (outY r)) /\
  (exists r, PPOIndicator.getValues specPrototype Spec.smaExample
               (PPOIndicator.mkParams [2; 3]%nat None) = Some r /\
             Forall rounded (outY r)).
Proof.
  destruct (cascade_outputs_rounded specPrototype ExamplesRounding.chart
              Spec.smaExample (mkParams 2 None)
              (PPOIndicator.mkParams [2; 3]%nat None))
    as [HD [HT [HP _]]].
  split; [|split].
  - eexists. split; [reflexivity|]. apply HD. reflexivity.
  - eexists. split; [reflexivity|]. apply HT. reflexivity.
  - eexists. split; [reflexivity|]. apply HP. reflexivity.
Defined.

(** C9 as stated fails for SMA: with period 3 over [yData = [1, 1, 2]] the
    returned value is 4/3, which [correctFloat] would change. *)
Lemma SMA_output_not_rounded :
  exists r v,
    getValues ExamplesRounding.thirds (mkParams 3 None) = Some r /\
    In v (outY r) /\
    v == 4 # 3 /\
    Qeq_bool (Utilities.correctFloat v) v = false /\
    Utilities.correctFloat v == 13333333333333 # 10000000000000.
Proof.
  eexists. eexists. split; [reflexivity|].
  split; [left; reflexivity|].
  split; [reflexivity|].
  split; vm_compute; reflexivity.
Qed.

End Rounding_claims.

(** ** Further properties of the sources *)

Section More_paths.

Import Renderer3D Orthographic.
Local Open Scope Q_scope.

Lemma flat_map_length3 (points : list Position3dObject) :
  length (flat_map (fun point => [L; Num (x point); Num (y point)]) points)
  = (3 * length points)%nat.
Proof.
  induction points as [|p points IH]; simpl.
  - reflexivity.
  - rewrite IH. lia.
Qed.

(** [toLinePath]: no point gives the empty path; otherwise the path starts
    with [M], holds three entries for each point, and a closed path ends
    with [Z]. *)
Theorem toLinePath_shape (points : list Position3dObject) (closed : bool) :
  (points = [] -> toLinePath points closed = []) /\
  (points <> [] ->
   hd_error (toLinePath points closed) = Some M /\
   length (toLinePath points closed)
   = (3 * length points + (if closed then 1 else 0))%nat /\
   (closed = true -> last (toLinePath points closed) M = Z)).
Proof.
  split.
  - intros ->. reflexivity.
  - intros Hne. unfold toLinePath.
    pose proof (flat_map_length3 points) as Hlen.
    destruct points as [|p points]; [contradiction|].
    cbn [flat_map app] in *. split; [reflexivity|]. split.
    + cbn [length] in Hlen.
      destruct closed; cbn [length]; rewrite ?length_app, ?app_nil_r;
        cbn [length]; lia.
    + intros ->.
      change (M :: Num (x p) :: Num (y p)
                :: flat_map (fun point => [L; Num (x point); Num (y point)])
                     points ++ [Z])
        with ((M :: Num (x p) :: Num (y p)
                 :: flat_map (fun point => [L; Num (x point); Num (y point)])
                      points) ++ [Z]).
      apply last_last.
Qed.

(** The theorem at a path of two points. *)
Lemma toLinePath_shape_witness :
  hd_error (toLinePath [mkPosition 1 2 0; mkPosition 3 4 0] true) = Some M /\
  length (toLinePath [mkPosition 1 2 0; mkPosition 3 4 0] true) = 7%nat.
Proof.
  destruct (toLinePath_shape [mkPosition 1 2 0; mkPosition 3 4 0] true)
    as [_ H].
  destruct H as [H1 [H2 _]]; [discriminate|].
  split; [exact H1|exact H2].
Defined.

(** Seen without rotation, a cuboid of positive width and height shows its
    front and no other face. *)
Theorem cuboidPath_front_without_rotation (chart : Chart)
    (shapeArgs : CuboidArgs) :
  0 < c_width shapeArgs -> 0 < c_height shapeArgs ->
  let paths := cuboidPath orthographic chart shapeArgs in
  isFront paths = 0%Z /\
  front paths
  = toLinePath (map (mapPath (corners shapeArgs)) frontFace) true /\
  isTop paths = (-1)%Z /\ top paths = [] /\ side paths = [].
Proof.
  intros Hw Hh paths. unfold paths, cuboidPath, orthographic.
  destruct shapeArgs as [x0 y0 z0 h w d ipa]. cbn [c_width c_height] in Hw, Hh.
  assert (Hwh : 0 < w * h).
  { rewrite <- (Qmult_0_l h). apply Qmult_lt_compat_r; assumption. }
  assert (Hfront : negb (Qle_bool 0
            (shapeArea (map (mapPath (corners
               (mkCuboidArgs x0 y0 z0 h w d ipa))) frontFace))) = true).
  { apply negative_area_test.
    assert (Harea : shapeArea (map (mapPath (corners
                      (mkCuboidArgs x0 y0 z0 h w d ipa))) frontFace)
                    == - (w * h)).
    { unfold shapeArea. simpl. field. }
    rewrite Harea. exact (Qopp_lt_compat 0 (w * h) Hwh). }
  assert (Hflat : forall l,
            (forall a, shapeArea (map (mapPath (corners
               (mkCuboidArgs x0 y0 z0 h w d ipa))) l) == a -> a == 0) ->
            negb (Qle_bool 0 (shapeArea (map (mapPath (corners
               (mkCuboidArgs x0 y0 z0 h w d ipa))) l))) = false).
  { intros l Hl. apply Bool.negb_false_iff. apply Qle_bool_iff.
    rewrite (Hl _ (Qeq_refl _)). apply Qle_refl. }
  assert (Htop : negb (Qle_bool 0 (shapeArea (map (mapPath (corners
               (mkCuboidArgs x0 y0 z0 h w d ipa))) topFace))) = false).
  { apply Hflat. intros a <-. unfold shapeArea. simpl. field. }
  assert (Hbottom : negb (Qle_bool 0 (shapeArea (map (mapPath (corners
               (mkCuboidArgs x0 y0 z0 h w d ipa))) bottomFace))) = false).
  { apply Hflat. intros a <-. unfold shapeArea. simpl. field. }
  assert (Hright : negb (Qle_bool 0 (shapeArea (map (mapPath (corners
               (mkCuboidArgs x0 y0 z0 h w d ipa))) rightFace))) = false).
  { apply Hflat. intros a <-. unfold shapeArea. simpl. field. }
  assert (Hleft : negb (Qle_bool 0 (shapeArea (map (mapPath (corners
               (mkCuboidArgs x0 y0 z0 h w d ipa))) leftFace))) = false).
  { apply Hflat. intros a <-. unfold shapeArea. simpl. field. }
  unfold pickShape.
  rewrite Hfront, Htop, Hbottom, Hright, Hleft.
  cbn [isFront front isTop top side toLinePath flat_map].
  repeat split.
Qed.

(** The theorem at the example cuboid. *)
Lemma cuboidPath_front_without_rotation_witness :
  isFront (cuboidPath orthographic Spec3D.chart15 Spec3D.box) = 0%Z /\
  top (cuboidPath orthographic Spec3D.chart15 Spec3D.box) = [].
Proof.
  destruct (cuboidPath_front_without_rotation Spec3D.chart15 Spec3D.box)
    as [H1 [_ [_ [H2 _]]]]; [reflexivity|reflexivity|].
  split; [exact H1|exact H2].
Defined.

End More_paths.

Section Variwide_facts.

Import Spec Variwide SpecVariwide.
Local Open Scope Q_scope.

Lemma Qsum_snoc (l : list Q) (z : Q) : Qsum (l ++ [z]) == Qsum l + z.
Proof.
  rewrite Qsum_app. simpl. ring.
Qed.

Lemma accumulate_fold (zs : list Q) : forall (s : Series),
  let r := fold_left accumulateZ zs s in
  length (relZ r) = (length (relZ s) + length zs)%nat /\
  totalZ r == totalZ s + Qsum zs /\
  (forall i, (i < length (relZ s))%nat -> nth i (relZ r) 0 = nth i (relZ s) 0) /\
  (forall i, (i < length zs)%nat ->
     nth (length (relZ s) + i) (relZ r) 0 == totalZ s + Qsum (firstn i zs)).
Proof.
  induction zs as [|z zs IH]; intros s; cbn [fold_left].
  - cbn [length]. rewrite Nat.add_0_r. repeat split; try reflexivity.
    + simpl. ring.
    + intros i Hi. inversion Hi.
  - destruct (IH (accumulateZ s z)) as [Hl [Ht [Hold Hnew]]].
    cbn [accumulateZ relZ totalZ] in Hl, Ht, Hold, Hnew.
    rewrite length_app in Hl, Hold, Hnew. cbn [length] in Hl, Hold, Hnew.
    cbv zeta. split; [|split; [|split]].
    + rewrite Hl. cbn [length]. lia.
    + rewrite Ht. simpl. ring.
    + intros i Hi. rewrite Hold by lia. apply app_nth1. exact Hi.
    + intros i Hi. destruct i as [|i].
      * rewrite Nat.add_0_r, Hold by lia.
        rewrite app_nth2 by lia. rewrite Nat.sub_diag. simpl. ring.
      * cbn [length] in Hi.
        replace (length (relZ s) + S i)%nat
          with (length (relZ s) + 1 + i)%nat by lia.
        rewrite Hnew by lia. simpl. ring.
Qed.


Lemma processData_facts (rv : bool) (zData : list Q) :
  let s := processData rv zData in
  let zs := axisOrder rv zData in
  length (relZ s) = length zs /\
  totalZ s == Qsum zs /\
  (forall i, (i < length zs)%nat -> nth i (relZ s) 0 == Qsum (firstn i zs)).
Proof.
  intros s zs. subst s. unfold processData. fold zs.
  destruct (accumulate_fold zs {| relZ := []; totalZ := 0 |})
    as [Hl [Ht [_ Hnew]]].
  cbn [relZ totalZ length Nat.add] in Hl, Ht, Hnew.
  split; [exact Hl|]. split; [rewrite Ht; ring|].
  intros i Hi. rewrite (Hnew i Hi). ring.
Qed.

Lemma axisOrder_length (rv : bool) (zData : list Q) :
  length (axisOrder rv zData) = length zData.
Proof.
  destruct rv; simpl; [apply length_rev|reflexivity].
Qed.

Lemma Qsum_rev (l : list Q) : Qsum (rev l) == Qsum l.
Proof.
  induction l as [|a l IH]; simpl; [reflexivity|].
  rewrite Qsum_snoc, IH. ring.
Qed.

Lemma axisOrder_sum (rv : bool) (zData : list Q) :
  Qsum (axisOrder rv zData) == Qsum zData.
Proof.
  destruct rv; simpl; [apply Qsum_rev|reflexivity].
Qed.

(** [pick(relZ[j], totalZ)] is the sum of the first [j] entries, for every
    [j] up to the length: past the end, [relZ[j]] is undefined and [totalZ]
    is the sum of them all. *)
Lemma pick_relZ (rv : bool) (zData : list Q) (j : nat) :
  let s := processData rv zData in
  (j <= length zData)%nat ->
  Renderer3D.pick (at_ (relZ s) (Z.of_nat j)) (totalZ s)
  == Qsum (firstn j (axisOrder rv zData)).
Proof.
  intros s Hj.
  destruct (processData_facts rv zData) as [Hl [Ht Hn]].
  fold s in Hl, Ht, Hn. rewrite axisOrder_length in Hl, Hn.
  unfold at_. destruct (Z.ltb_spec (Z.of_nat j) 0) as [H|_]; [lia|].
  rewrite Nat2Z.id.
  destruct (Nat.eq_dec j (length zData)) as [->|Hne].
  - replace (nth_error (relZ s) (length zData)) with (@None Q)
      by (symmetry; apply nth_error_None; lia).
    cbn [Renderer3D.pick]. rewrite Ht.
    rewrite firstn_all2 by (rewrite axisOrder_length; lia). reflexivity.
  - assert (Hlt : (j < length (relZ s))%nat) by lia.
    rewrite (nth_error_nth' _ 0 Hlt). cbn [Renderer3D.pick].
    apply Hn. lia.
Qed.

Lemma slot_edge (rv : bool) (zData : list Q) (alen : Q) (j : nat) :
  (j <= length zData)%nat ->
  Renderer3D.pick (at_ (relZ (processData rv zData)) (Z.of_nat j))
                  (totalZ (processData rv zData))
  / totalZ (processData rv zData) * alen
  == share (axisOrder rv zData) alen j.
Proof.
  intros Hj. rewrite (pick_relZ rv zData j Hj).
  destruct (processData_facts rv zData) as [_ [Ht _]].
  rewrite Ht. reflexivity.
Qed.

Lemma inject_nat_nonzero (n : nat) :
  (0 < n)%nat -> ~ inject_Z (Z.of_nat n) == 0.
Proof.
  intros Hn H. unfold Qeq in H. simpl in H. lia.
Qed.


Lemma Qsum_nonneg (l : list Q) : Forall (fun z => 0 <= z) l -> 0 <= Qsum l.
Proof.
  induction 1 as [|z l Hz _ IH]; simpl.
  - apply Qle_refl.
  - rewrite <- (Qplus_0_r 0). apply Qplus_le_compat; assumption.
Qed.

Lemma Forall_firstn_skipn {A : Type} (P : A -> Prop) (k : nat) (l : list A) :
  Forall P l -> Forall P (firstn k l) /\ Forall P (skipn k l).
Proof.
  intros H. rewrite <- (firstn_skipn k l) in H.
  apply Forall_app in H. exact H.
Qed.

Lemma Qsum_firstn_skipn (k : nat) (l : list Q) :
  Qsum l == Qsum (firstn k l) + Qsum (skipn k l).
Proof.
  rewrite <- Qsum_app, firstn_skipn. reflexivity.
Qed.

Lemma axisOrder_nonneg (rv : bool) (zData : list Q) :
  Forall (fun z => 0 <= z) zData ->
  Forall (fun z => 0 <= z) (axisOrder rv zData).
Proof.
  destruct rv; simpl; [apply Forall_rev|trivial].
Qed.

(** The entry of the axis order that belongs to the point [index]. *)
Lemma axisOrder_nth (rv : bool) (zData : list Q) (index : nat) :
  (index < length zData)%nat ->
  nth (if rv then length zData - 1 - index else index)%nat
      (axisOrder rv zData) 0
  = nth index zData 0.
Proof.
  intros Hi. destruct rv; simpl; [|reflexivity].
  rewrite rev_nth by lia. f_equal. lia.
Qed.

Lemma Qsum_firstn_S (k : nat) (l : list Q) :
  (k < length l)%nat ->
  Qsum (firstn (S k) l) == Qsum (firstn k l) + nth k l 0.
Proof.
  intros Hk. rewrite (firstn_snoc k l Hk), Qsum_snoc. reflexivity.
Qed.

End Variwide_facts.

Section Variwide_claims.

Import Spec Variwide SpecVariwide.
Local Open Scope Q_scope.

(** [processData] leaves in [relZ] the running totals of [z] in the order of
    the axis (the sum of the entries before each one) and in [totalZ] the
    sum of all of them; with no negative [z] the running totals lie between
    [0] and [totalZ]. *)
Theorem variwide_processData_running_totals (rv : bool) (zData : list Q) :
  let s := processData rv zData in
  let zs := axisOrder rv zData in
  length (relZ s) = length zData /\
  totalZ s == Qsum zData /\
  (forall i, (i < length zData)%nat ->
     nth i (relZ s) 0 == Qsum (firstn i zs)) /\
  (Forall (fun z => 0 <= z) zData ->
   forall i, (i < length zData)%nat ->
     0 <= nth i (relZ s) 0 /\ nth i (relZ s) 0 <= totalZ s).
Proof.
  intros s zs.
  destruct (processData_facts rv zData) as [Hl [Ht Hn]].
  fold s zs in Hl, Ht, Hn. unfold zs in Hl, Hn at 1.
  rewrite axisOrder_length in Hl, Hn.
  split; [exact Hl|]. split; [rewrite Ht; apply axisOrder_sum|].
  split; [exact Hn|].
  intros Hpos i Hi. rewrite (Hn i Hi), Ht.
  pose proof (axisOrder_nonneg rv zData Hpos) as Hzs. fold zs in Hzs.
  split.
  - apply Qsum_nonneg. apply (Forall_firstn_skipn _ i zs Hzs).
  - rewrite (Qsum_firstn_skipn i zs).
    rewrite <- (Qplus_0_r (Qsum (firstn i zs))) at 1.
    apply Qplus_le_compat; [apply Qle_refl|].
    apply Qsum_nonneg. apply (Forall_firstn_skipn _ i zs Hzs).
Qed.

(** [postTranslate] inside the slot of a point. *)
Lemma postTranslate_in_slot (rv vw : bool) (alen : Q)
    (zData : list Q) (index : nat) (t : Q) :
  (index < length zData)%nat ->
  ~ Qsum zData == 0 ->
  ~ alen == 0 ->
  let axis := mkXAxis rv alen vw in
  let s := processData rv zData in
  let zs := axisOrder rv zData in
  let n := length zData in
  let k := (if rv then n - 1 - index else index)%nat in
  postTranslate axis s (Z.of_nat index)
    ((inject_Z (Z.of_nat k) + t) / inject_Z (Z.of_nat n) * alen)
  == share zs alen k + t * (share zs alen (k + 1) - share zs alen k) /\
  share zs alen (k + 1) - share zs alen k == nth index zData 0 / Qsum zData * alen /\
  crosshairWidth axis s (Z.of_nat index)
  == (if rv then - (1) else 1) * (nth index zData 0 / Qsum zData * alen) /\
  share zs alen 0 == 0 /\
  share zs alen n == alen.
Proof.
  intros Hi Hsum Hlen axis s zs n k.
  assert (Hn : ~ inject_Z (Z.of_nat n) == 0)
    by (apply inject_nat_nonzero; unfold n; lia).
  assert (Hzs : ~ Qsum zs == 0)
    by (unfold zs; rewrite axisOrder_sum; exact Hsum).
  assert (Htot : totalZ s == Qsum zs) by apply (processData_facts rv zData).
  assert (Hlr : length (relZ s) = n).
  { destruct (processData_facts rv zData) as [Hl _]. fold s in Hl.
    rewrite Hl. apply axisOrder_length. }
  assert (Hk : (k < n)%nat) by (unfold k; destruct rv; lia).
  assert (Hstep : Qsum (firstn (k + 1) zs)
                  == Qsum (firstn k zs) + nth index zData 0).
  { rewrite Nat.add_1_r, Qsum_firstn_S
      by (unfold zs; rewrite axisOrder_length; exact Hk).
    unfold k, zs, n. rewrite axisOrder_nth by exact Hi. reflexivity. }
  assert (Hwidth : share zs alen (k + 1) - share zs alen k
                   == nth index zData 0 / Qsum zData * alen).
  { unfold share. rewrite Hstep. unfold zs at 2 4.
    rewrite axisOrder_sum. field. exact Hsum. }
  (* the two edges of the slot *)
  assert (HL : slotLeft axis s (Z.of_nat index)
               == share zs alen (if rv then k + 1 else k)).
  { unfold slotLeft, slotIndex, axis. cbn [reversed len]. rewrite Hlr.
    destruct rv.
    - replace (Z.of_nat n - Z.of_nat index)%Z with (Z.of_nat (k + 1))
        by (unfold k; lia).
      apply slot_edge. fold n. lia.
    - apply slot_edge. fold n. unfold k in Hk. lia. }
  assert (HR : slotRight axis s (Z.of_nat index)
               == share zs alen (if rv then k else k + 1)).
  { unfold slotRight, slotIndex, goRight, axis. cbn [reversed len].
    rewrite Hlr.
    destruct rv.
    - replace (Z.of_nat n - Z.of_nat index + -1)%Z with (Z.of_nat k)
        by (unfold k; lia).
      apply slot_edge. fold n. lia.
    - replace (Z.of_nat index + 1)%Z with (Z.of_nat (k + 1))
        by (unfold k; lia).
      apply slot_edge. fold n. lia. }
  split; [|split; [exact Hwidth|split; [|split]]].
  - unfold postTranslate. rewrite HL, HR.
    unfold slotIndex, goRight, axis. cbn [reversed len]. rewrite Hlr.
    destruct rv.
    + replace (Z.of_nat n - Z.of_nat index)%Z with (Z.of_nat k + 1)%Z
        by (unfold k; lia).
      replace (Z.of_nat k + 1 + -1)%Z with (Z.of_nat k) by lia.
      rewrite inject_Z_plus. change (inject_Z 1) with 1. field.
      split; [exact Hn|]. intros H. apply Hlen.
      setoid_replace alen
        with (- (inject_Z (Z.of_nat k) * alen
                 - (inject_Z (Z.of_nat k) + 1) * alen)) by ring.
      rewrite H. reflexivity.
    + fold k.
      rewrite inject_Z_plus. change (inject_Z 1) with 1. field.
      split; [exact Hn|]. intros H. apply Hlen. rewrite <- H. ring.
  - unfold crosshairWidth. rewrite HL, HR. destruct rv.
    + rewrite <- Hwidth. ring.
    + rewrite <- Hwidth. ring.
  - unfold share. simpl. field. exact Hzs.
  - unfold share. rewrite firstn_all2
      by (unfold zs; rewrite axisOrder_length; fold n; lia).
    field. exact Hzs.
Qed.

(** On a category axis of non-zero length whose [z] values have a non-zero
    sum, [postTranslate] maps the linear slot of a point onto the slot whose
    edges are the running shares of [z]: the position a fraction [t] into
    the [k]-th linear slot goes the same fraction into [share k ..
    share (k + 1)], [k] being the place of the point along the axis.  The
    first slot starts at [0], the last one ends at the axis length, and the
    crosshair width is the point's share of the length, negated on a
    reversed axis. *)
Theorem variwide_postTranslate_slots (rv vw : bool) (alen : Q)
    (zData : list Q) (index : nat) (t : Q) :
  (index < length zData)%nat ->
  ~ Qsum zData == 0 ->
  ~ alen == 0 ->
  let axis := mkXAxis rv alen vw in
  let s := processData rv zData in
  let zs := axisOrder rv zData in
  let n := length zData in
  let k := (if rv then n - 1 - index else index)%nat in
  postTranslate axis s (Z.of_nat index)
    ((inject_Z (Z.of_nat k) + t) / inject_Z (Z.of_nat n) * alen)
  == share zs alen k + t * (share zs alen (k + 1) - share zs alen k) /\
  share zs alen (k + 1) - share zs alen k == nth index zData 0 / Qsum zData * alen /\
  crosshairWidth axis s (Z.of_nat index)
  == (if rv then - (1) else 1) * (nth index zData 0 / Qsum zData * alen) /\
  share zs alen 0 == 0 /\
  share zs alen n == alen.
Proof.
  exact (postTranslate_in_slot rv vw alen zData index t).
Qed.

End Variwide_claims.

Section Variwide_columns.

Import Spec Variwide SpecVariwide.
Local Open Scope Q_scope.

Lemma postTranslate_compat (axis : XAxis) (s : Series) (index : Z) (x1 x2 : Q) :
  x1 == x2 -> postTranslate axis s index x1 == postTranslate axis s index x2.
Proof.
  intros H. unfold postTranslate. rewrite H. reflexivity.
Qed.

Lemma round_compat (a b : Q) : a == b -> JS.round a = JS.round b.
Proof.
  intros H. unfold JS.round. rewrite H. reflexivity.
Qed.

(** The column of a point after [translate] on a category axis.  When the
    undistorted column starts a fraction [t] into its linear slot and is
    [w] slots wide, the distorted one starts the same fraction into the
    point's share of the axis and is [w] shares wide, each edge being
    rounded and shifted by the crisp correction when [options.crisp] is
    set; the width is never below [1], and [plotX] is the middle of the two
    edges. *)
Theorem variwide_translate_column (rv : bool) (alen : Q) (zData : list Q)
    (tr : Q -> Q) (options : Options) (index : nat) (point : Point)
    (t w : Q) :
  (index < length zData)%nat ->
  ~ Qsum zData == 0 ->
  ~ alen == 0 ->
  let axis := mkXAxis rv alen true in
  let s := processData rv zData in
  let zs := axisOrder rv zData in
  let n := length zData in
  let k := (if rv then n - 1 - index else index)%nat in
  let slot := nth index zData 0 / Qsum zData * alen in
  let edge := fun f : Q =>
    let v := share zs alen k + f * slot in
    if crisp options
    then inject_Z (JS.round v) - remainder (borderWidth options) 2 / 2
    else v in
  shapeX point == (inject_Z (Z.of_nat k) + t) / inject_Z (Z.of_nat n) * alen ->
  shapeWidth point == w / inject_Z (Z.of_nat n) * alen ->
  let point1 := distort axis s tr options index point in
  shapeX point1 == edge t /\
  shapeWidth point1 == Qmax (edge (t + w) - edge t) 1 /\
  1 <= shapeWidth point1 /\
  plotX point1 == (edge t + edge (t + w)) / 2.
Proof.
  intros Hi Hsum Hlen axis s zs n k slot edge Hx Hw point1.
  assert (Hn : ~ inject_Z (Z.of_nat n) == 0)
    by (apply inject_nat_nonzero; unfold n; lia).
  destruct (postTranslate_in_slot rv true alen zData index t
              Hi Hsum Hlen) as [Ht [Hd _]].
  destruct (postTranslate_in_slot rv true alen zData index (t + w)
              Hi Hsum Hlen) as [Htw _].
  fold axis s zs n k in Ht, Htw, Hd. rewrite Hd in Ht, Htw. fold slot in Ht, Htw.
  assert (HL : postTranslate axis s (Z.of_nat index) (shapeX point)
               == share zs alen k + t * slot).
  { rewrite <- Ht. apply postTranslate_compat. exact Hx. }
  assert (HR : postTranslate axis s (Z.of_nat index)
                 (shapeX point + shapeWidth point)
               == share zs alen k + (t + w) * slot).
  { rewrite <- Htw. apply postTranslate_compat. rewrite Hx, Hw.
    field. exact Hn. }
  assert (Hedge_t : shapeX point1 == edge t).
  { unfold point1, distort, edge. cbn [shapeX variwide axis].
    destruct (crisp options).
    - rewrite (round_compat _ _ HL). reflexivity.
    - exact HL. }
  assert (Hwidth : shapeWidth point1 == Qmax (edge (t + w) - edge t) 1).
  { unfold point1, distort, edge. cbn [shapeWidth variwide axis].
    destruct (crisp options).
    - rewrite (round_compat _ _ HL), (round_compat _ _ HR). reflexivity.
    - rewrite HL, HR. reflexivity. }
  split; [exact Hedge_t|]. split; [exact Hwidth|]. split.
  - rewrite Hwidth. apply Q.le_max_r.
  - unfold point1, distort, edge. cbn [plotX variwide axis].
    destruct (crisp options).
    + rewrite (round_compat _ _ HL), (round_compat _ _ HR). reflexivity.
    + rewrite HL, HR. reflexivity.
Qed.

(** A tick of a category axis is moved with the columns: the tick that
    stands a fraction [t] into the linear slot of the category lands the
    same fraction into the category's share of the axis, counted from
    [axis.pos] on a horizontal axis and from the far end [axis.pos + len] on
    a vertical one. *)
Theorem variwide_tick_follows_columns (rv hz : bool) (alen axisPos : Q)
    (zData : list Q) (index : nat) (t : Q) :
  (index < length zData)%nat ->
  ~ Qsum zData == 0 ->
  ~ alen == 0 ->
  let axis := mkXAxis rv alen true in
  let s := processData rv zData in
  let zs := axisOrder rv zData in
  let n := length zData in
  let k := (if rv then n - 1 - index else index)%nat in
  let linear := (inject_Z (Z.of_nat k) + t) / inject_Z (Z.of_nat n) * alen in
  let distorted := share zs alen k + t * (nth index zData 0 / Qsum zData * alen) in
  tickPostTranslate axis axisPos hz s
    (if hz then axisPos + linear else axisPos + (alen - linear))
    (Z.of_nat index)
  == (if hz then axisPos + distorted else axisPos + (alen - distorted)).
Proof.
  intros Hi Hsum Hlen axis s zs n k linear distorted.
  destruct (postTranslate_in_slot rv true alen zData index t Hi Hsum Hlen)
    as [Ht [Hd _]].
  fold axis s zs n k in Ht, Hd. rewrite Hd in Ht.
  fold linear in Ht. fold distorted in Ht.
  unfold tickPostTranslate. cbn [len axis].
  destruct hz; cbn [negb].
  - rewrite (postTranslate_compat _ _ _ (axisPos + linear - axisPos) linear)
      by ring.
    fold axis. rewrite Ht. reflexivity.
  - rewrite (postTranslate_compat _ _ _
               (alen - (axisPos + (alen - linear) - axisPos)) linear) by ring.
    fold axis. rewrite Ht. reflexivity.
Qed.

End Variwide_columns.

Section Variwide_witnesses.

Import Spec Variwide SpecVariwide.
Local Open Scope Q_scope.

Lemma variwide_postTranslate_slots_witness :
  postTranslate exampleAxis (processData false exampleZ) 1
    ((1 + (1 # 2)) / 3 * 400) == 200 /\
  crosshairWidth exampleAxis (processData false exampleZ) 1 == 200.
Proof.
  destruct (variwide_postTranslate_slots false true 400 exampleZ 1 (1 # 2))
    as [H1 [_ [H2 _]]].
  - simpl. lia.
  - intros H. vm_compute in H. discriminate H.
  - intros H. discriminate H.
  - split.
    + unfold exampleAxis. change (inject_Z (Z.of_nat 1)) with 1 in H1.
      change (inject_Z (Z.of_nat (length exampleZ))) with 3 in H1.
      change (Z.of_nat 1) with 1%Z in H1.
      rewrite H1. vm_compute. reflexivity.
    + unfold exampleAxis. change (Z.of_nat 1) with 1%Z in H2.
      rewrite H2. vm_compute. reflexivity.
Defined.

Lemma variwide_translate_column_witness :
  let point1 := distort exampleAxis (processData false exampleZ)
                  (fun v => v) (mkOptions true 1 false) 1 examplePoint in
  shapeX point1 == 199 # 2 /\ shapeWidth point1 == 200.
Proof.
  intros point1.
  destruct (variwide_translate_column false 400 exampleZ (fun v => v)
              (mkOptions true 1 false) 1 examplePoint 0 1)
    as [H1 [H2 _]].
  - simpl. lia.
  - intros H. vm_compute in H. discriminate H.
  - intros H. discriminate H.
  - vm_compute. reflexivity.
  - vm_compute. reflexivity.
  - fold exampleAxis in H1, H2. fold point1 in H1, H2. split.
    + rewrite H1. vm_compute. reflexivity.
    + rewrite H2. vm_compute. reflexivity.
Defined.

Lemma variwide_tick_follows_columns_witness :
  tickPostTranslate exampleAxis 10 true (processData false exampleZ)
    (10 + (1 + 0) / 3 * 400) 1 == 110.
Proof.
  pose proof (variwide_tick_follows_columns false true 400 10 exampleZ 1 0)
    as H.
  cbv zeta in H. fold exampleAxis in H.
  change (inject_Z (Z.of_nat 1)) with 1 in H.
  change (inject_Z (Z.of_nat (length exampleZ))) with 3 in H.
  change (Z.of_nat 1) with 1%Z in H.
  rewrite H.
  - vm_compute. reflexivity.
  - simpl. lia.
  - intros E. vm_compute in E. discriminate E.
  - intros E. discriminate E.
Defined.

End Variwide_witnesses.

Section Cascade_dates.

Import JS EMAIndicator SMAIndicator.
Local Open Scope Q_scope.

Variables (proto : Prototype) (chart : Chart) (period : nat) (index : Z)
          (xVal : list Q) (yVal : list yval).

(** After [k] turns of the DEMA loop, the x values pushed are those of the
    turns [i >= 2 * period], each [xVal[i - 2]]. *)
Lemma DEMA_dates_step (k : nat) (st : DEMAIndicator.Loop) :
  DEMAIndicator.xDataDema st
  = map (fun i => xAt xVal (i - 2)) (seq (2 * period) (k - period)) ->
  DEMAIndicator.xDataDema
    (DEMAIndicator.step proto chart period index xVal yVal st (period + k))
  = map (fun i => xAt xVal (i - 2)) (seq (2 * period) (S k - period)).
Proof.
  intros H. unfold DEMAIndicator.step.
  destruct (Nat.ltb_spec (period + k) (2 * period)) as [Hlt|Hge].
  - cbn [DEMAIndicator.xDataDema]. rewrite H.
    replace (S k - period)%nat with (k - period)%nat by (clear - Hlt; lia).
    reflexivity.
  - cbn [DEMAIndicator.xDataDema fst]. rewrite H.
    replace (S k - period)%nat with (S (k - period)) by (clear - Hge; lia).
    rewrite seq_S, map_app. cbn [map].
    replace (2 * period + (k - period))%nat with (period + k)%nat
      by (clear - Hge; lia).
    reflexivity.
Qed.

Lemma DEMA_dates_loop (m k : nat) (st : DEMAIndicator.Loop) :
  DEMAIndicator.xDataDema st
  = map (fun i => xAt xVal (i - 2)) (seq (2 * period) (k - period)) ->
  DEMAIndicator.xDataDema
    (fold_left (DEMAIndicator.step proto chart period index xVal yVal)
               (seq (period + k) m) st)
  = map (fun i => xAt xVal (i - 2)) (seq (2 * period) (k + m - period)).
Proof.
  apply (for_loop_invariant
           (fun k st => DEMAIndicator.xDataDema st
              = map (fun i => xAt xVal (i - 2))
                    (seq (2 * period) (k - period)))
           _ period (k + m)).
  - intros j st' _. apply DEMA_dates_step.
  - lia.
Qed.

Lemma TEMA_dates_step (k : nat) (st : TEMAIndicator.Loop) :
  TEMAIndicator.xDataTema st
  = map (fun i => xAt xVal (i - 3)) (seq (3 * period) (k - 2 * period)) ->
  TEMAIndicator.xDataTema
    (TEMAIndicator.step proto chart period index xVal yVal st (period + k))
  = map (fun i => xAt xVal (i - 3)) (seq (3 * period) (S k - 2 * period)).
Proof.
  intros H. unfold TEMAIndicator.step.
  destruct (Nat.ltb_spec (period + k) (2 * period)) as [Hlt|Hge].
  - cbn [TEMAIndicator.xDataTema]. rewrite H.
    replace (S k - 2 * period)%nat with (k - 2 * period)%nat
      by (clear - Hlt; lia).
    reflexivity.
  - destruct (Nat.ltb_spec (period + k) (3 * period)) as [Hlt3|Hge3].
    + cbn [TEMAIndicator.xDataTema]. rewrite H.
      replace (S k - 2 * period)%nat with (k - 2 * period)%nat
        by (clear - Hlt3; lia).
      reflexivity.
    + cbn [TEMAIndicator.xDataTema TEMAIndicator.getTemaPoint fst]. rewrite H.
      replace (S k - 2 * period)%nat with (S (k - 2 * period))
        by (clear - Hge3; lia).
      rewrite seq_S, map_app. cbn [map].
      replace (3 * period + (k - 2 * period))%nat with (period + k)%nat
        by (clear - Hge3; lia).
      reflexivity.
Qed.

Lemma TEMA_dates_loop (m k : nat) (st : TEMAIndicator.Loop) :
  TEMAIndicator.xDataTema st
  = map (fun i => xAt xVal (i - 3)) (seq (3 * period) (k - 2 * period)) ->
  TEMAIndicator.xDataTema
    (fold_left (TEMAIndicator.step proto chart period index xVal yVal)
               (seq (period + k) m) st)
  = map (fun i => xAt xVal (i - 3)) (seq (3 * period) (k + m - 2 * period)).
Proof.
  apply (for_loop_invariant
           (fun k st => TEMAIndicator.xDataTema st
              = map (fun i => xAt xVal (i - 3))
                    (seq (3 * period) (k - 2 * period)))
           _ period (k + m)).
  - intros j st' _. apply TEMA_dates_step.
  - lia.
Qed.

End Cascade_dates.

Section Cascade_dates_claims.

Import JS EMAIndicator SMAIndicator.
Local Open Scope Q_scope.

Lemma map_seq_shift (f : nat -> Q) (a c : nat) : forall b,
  map f (seq (a + b) c) = map (fun j => f (a + j)%nat) (seq b c).
Proof.
  induction c as [|c IH]; intros b; [reflexivity|].
  cbn [seq map]. f_equal.
  replace (S (a + b)) with (a + S b)%nat by lia. apply IH.
Qed.

Lemma map_seq_from (f : nat -> Q) (a c : nat) :
  map f (seq a c) = map (fun j => f (a + j)%nat) (seq 0 c).
Proof.
  rewrite <- (map_seq_shift f a c 0), Nat.add_0_r. reflexivity.
Qed.

Lemma DEMA_dates (proto : Prototype) (chart : Chart) (s : Series)
    (p : nat) (i : option nat) :
  (0 < p)%nat ->
  (2 * p - 1 <= length (yData s))%nat ->
  exists r, DEMAIndicator.getValues proto chart s (mkParams p i) = Some r /\
    outX r = map (fun j => xAt (xData s) (2 * p - 2 + j))
                 (seq 0 (length (yData s) + 2 - 2 * p)).
Proof.
  intros Hp Hn. unfold DEMAIndicator.getValues. cbn [period index].
  destruct (Nat.ltb_spec (length (yData s)) (2 * p - 1)); [lia|].
  eexists. split; [reflexivity|]. cbn [outX].
  match goal with
  | |- context [fold_left ?f (seq ?a ?m) ?st0] =>
      pose proof (DEMA_dates_loop proto chart p
                    (switchIndex (yData s) i) (xData s) (yData s)
                    m 0 st0) as HI
  end.
  rewrite Nat.add_0_r in HI. rewrite HI by reflexivity.
  replace (0 + (length (yData s) + 2 - p) - p)%nat
    with (length (yData s) + 2 - 2 * p)%nat by lia.
  rewrite map_seq_from. apply map_ext_in. intros j _.
  f_equal. lia.
Qed.

Lemma TEMA_dates (proto : Prototype) (chart : Chart) (s : Series)
    (p : nat) (i : option nat) :
  (0 < p)%nat ->
  (3 * p - 2 <= length (yData s))%nat ->
  exists r, TEMAIndicator.getValues proto chart s (mkParams p i) = Some r /\
    outX r = map (fun j => xAt (xData s) (3 * p - 3 + j))
                 (seq 0 (length (yData s) + 3 - 3 * p)).
Proof.
  intros Hp Hn. unfold TEMAIndicator.getValues. cbn [period index].
  destruct (Nat.ltb_spec (length (yData s)) (3 * p - 2)); [lia|].
  eexists. split; [reflexivity|]. cbn [outX].
  match goal with
  | |- context [fold_left ?f (seq ?a ?m) ?st0] =>
      pose proof (TEMA_dates_loop proto chart p
                    (switchIndex (yData s) i) (xData s) (yData s)
                    m 0 st0) as HI
  end.
  rewrite Nat.add_0_r in HI. rewrite HI by reflexivity.
  replace (0 + (length (yData s) + 3 - p) - 2 * p)%nat
    with (length (yData s) + 3 - 3 * p)%nat by lia.
  rewrite map_seq_from. apply map_ext_in. intros j _.
  f_equal. lia.
Qed.

(** The dates of DEMA and TEMA.  For a positive period [p] and [n] inputs
    the [j]-th DEMA point carries the x value of input [2p - 2 + j] and the
    [j]-th TEMA point that of input [3p - 3 + j]: the first [2p - 2]
    ([3p - 3]) inputs have no point, and the last point carries the x
    value of the last input. *)
Theorem DEMA_TEMA_dates (proto : Prototype) (chart : Chart) (s : Series)
    (p : nat) (i : option nat) :
  (0 < p)%nat ->
  let n := length (yData s) in
  ((2 * p - 1 <= n)%nat ->
   exists r, DEMAIndicator.getValues proto chart s (mkParams p i) = Some r /\
     length (outX r) = (n + 2 - 2 * p)%nat /\
     (forall j, (j < n + 2 - 2 * p)%nat ->
        nth j (outX r) 0 = nth (2 * p - 2 + j) (xData s) 0) /\
     nth (n + 1 - 2 * p) (outX r) 0 = nth (n - 1) (xData s) 0) /\
  ((3 * p - 2 <= n)%nat ->
   exists r, TEMAIndicator.getValues proto chart s (mkParams p i) = Some r /\
     length (outX r) = (n + 3 - 3 * p)%nat /\
     (forall j, (j < n + 3 - 3 * p)%nat ->
        nth j (outX r) 0 = nth (3 * p - 3 + j) (xData s) 0) /\
     nth (n + 2 - 3 * p) (outX r) 0 = nth (n - 1) (xData s) 0).
Proof.
  intros Hp n.
  assert (Hnth : forall (base count : nat) (l : list Q),
            l = map (fun j => xAt (xData s) (base + j)) (seq 0 count) ->
            length l = count /\
            forall j, (j < count)%nat ->
              nth j l 0 = nth (base + j) (xData s) 0).
  { intros base count l ->. split; [rewrite length_map, length_seq; reflexivity|].
    intros j Hj.
    rewrite (nth_indep _ 0 (xAt (xData s) (base + 0)))
      by (rewrite length_map, length_seq; exact Hj).
    rewrite (map_nth (fun j => xAt (xData s) (base + j)) (seq 0 count) 0%nat j).
    rewrite seq_nth by exact Hj. reflexivity. }
  split.
  - intros Hn. destruct (DEMA_dates proto chart s p i Hp Hn) as [r [Hr Hx]].
    fold n in Hx. destruct (Hnth _ _ _ Hx) as [Hl Hj].
    exists r. split; [exact Hr|]. split; [exact Hl|]. split; [exact Hj|].
    rewrite Hj by lia. f_equal. lia.
  - intros Hn. destruct (TEMA_dates proto chart s p i Hp Hn) as [r [Hr Hx]].
    fold n in Hx. destruct (Hnth _ _ _ Hx) as [Hl Hj].
    exists r. split; [exact Hr|]. split; [exact Hl|]. split; [exact Hj|].
    rewrite Hj by lia. f_equal. lia.
Qed.

(** The theorem at the series of the SMA example, period 2, over the EMA of
    the spec: the DEMA points stand at x = 2, 3, 4 and the TEMA points at
    x = 3, 4. *)
Lemma DEMA_TEMA_dates_witness :
  (exists r, DEMAIndicator.getValues specPrototype ExamplesRounding.chart
               Spec.smaExample (mkParams 2 None) = Some r /\
             nth 0 (outX r) 0 = 2) /\
  (exists r, TEMAIndicator.getValues specPrototype ExamplesRounding.chart
               Spec.smaExample (mkParams 2 None) = Some r /\
             nth 0 (outX r) 0 = 3).
Proof.
  assert (Hp : (0 < 2)%nat) by lia.
  destruct (DEMA_TEMA_dates specPrototype ExamplesRounding.chart
              Spec.smaExample 2 None Hp) as [HD HT].
  split.
  - destruct HD as [r [Hr [_ [Hj _]]]]; [simpl; lia|].
    exists r. split; [exact Hr|]. rewrite (Hj 0%nat) by (simpl; lia).
    reflexivity.
  - destruct HT as [r [Hr [_ [Hj _]]]]; [simpl; lia|].
    exists r. split; [exact Hr|]. rewrite (Hj 0%nat) by (simpl; lia).
    reflexivity.
Defined.

End Cascade_dates_claims.

Section RequiredIndicators_claims.

Import RequiredIndicators.

Context {Name : Type}.
Variable loaded : Name -> bool.

Lemma requireIndicators_snoc (l : list Name) (a : Name) :
  requireIndicators loaded (l ++ [a])
  = check loaded (requireIndicators loaded l) a.
Proof.
  unfold requireIndicators. rewrite fold_left_app. reflexivity.
Qed.

(** [requireIndicators] answers [allLoaded = true], with no [needed], when
    every required indicator is loaded; otherwise [allLoaded] is [false]
    and [needed] names the last required indicator that is not loaded,
    whatever the indicators before it. *)
Theorem requireIndicators_names_last_missing (required : list Name) :
  let obj := requireIndicators loaded required in
  (allLoaded obj = true <-> forallb loaded required = true) /\
  (allLoaded obj = true -> needed obj = None) /\
  (forall before missing after,
     required = before ++ missing :: after ->
     loaded missing = false ->
     forallb loaded after = true ->
     allLoaded obj = false /\ needed obj = Some missing).
Proof.
  cbv zeta.
  assert (Hall : forall l,
            (allLoaded (requireIndicators loaded l) = true
             <-> forallb loaded l = true) /\
            (allLoaded (requireIndicators loaded l) = true ->
             needed (requireIndicators loaded l) = None)).
  { induction l as [|a l [IH1 IH2]] using rev_ind.
    - split; [split; reflexivity|reflexivity].
    - rewrite requireIndicators_snoc, forallb_app. cbn [forallb].
      unfold check. destruct (loaded a); cbn [andb].
      + rewrite !andb_true_r. split; assumption.
      + rewrite !andb_false_r. cbn [allLoaded].
        split; [split; discriminate|discriminate]. }
  split; [apply Hall|]. split; [apply Hall|].
  intros before missing after -> Hmiss Hafter.
  induction after as [|a after IH] using rev_ind.
  - rewrite requireIndicators_snoc. unfold check. rewrite Hmiss.
    split; reflexivity.
  - rewrite forallb_app in Hafter. cbn [forallb] in Hafter.
    apply andb_prop in Hafter. destruct Hafter as [Hafter Ha].
    rewrite andb_true_r in Ha.
    replace (before ++ missing :: after ++ [a])
      with ((before ++ missing :: after) ++ [a])
      by (rewrite <- app_assoc; reflexivity).
    rewrite requireIndicators_snoc. unfold check. rewrite Ha.
    apply IH. exact Hafter.
Qed.

End RequiredIndicators_claims.

Section PPO_points.

Import JS Utilities EMAIndicator SMAIndicator.
Local Open Scope Q_scope.

Lemma map_pair_combine {A B C : Type} (f : A -> B) (g : A -> C)
    (l : list A) :
  map (fun a => (f a, g a)) l = combine (map f l) (map g l).
Proof.
  induction l as [|a l IH]; [reflexivity|]. cbn [map combine].
  rewrite IH. reflexivity.
Qed.

(** The three arrays after [m] turns of the loop. *)
Lemma PPO_fold (SPE LPE : Values) (periodsOffset : nat) (m : nat) :
  fold_left (PPOIndicator.step SPE LPE periodsOffset) (seq 0 m) ([], [], [])
  = (map (fun i => (nth i (outX LPE) 0,
                    correctFloat ((nth (i + periodsOffset) (outY SPE) 0
                                   - nth i (outY LPE) 0)
                                  / nth i (outY LPE) 0 * 100)))
         (seq 0 m),
     map (fun i => nth i (outX LPE) 0) (seq 0 m),
     map (fun i => correctFloat ((nth (i + periodsOffset) (outY SPE) 0
                                  - nth i (outY LPE) 0)
                                 / nth i (outY LPE) 0 * 100))
         (seq 0 m)).
Proof.
  induction m as [|m IH]; [reflexivity|].
  rewrite seq_S, fold_left_app, IH, !map_app. reflexivity.
Qed.

(** PPO returns one point for every point of the long-period EMA, at the
    same x: point [i] compares the long-period EMA at [i] with the
    short-period EMA at [i + periods[1] - periods[0]], as the rounded
    percentage [(short - long) / long * 100]. *)
Theorem PPO_points_follow_long_EMA (proto : Prototype) (s : Series)
    (p0 p1 : nat) (idx : option nat) (SPE LPE : Values) :
  (p0 < p1)%nat ->
  EMAIndicator.getValues proto s (mkParams p0 idx) = Some SPE ->
  EMAIndicator.getValues proto s (mkParams p1 idx) = Some LPE ->
  exists r,
    PPOIndicator.getValues proto s (PPOIndicator.mkParams [p0; p1] idx)
    = Some r /\
    Results.wellFormed (length (outY LPE)) r /\
    (forall i, (i < length (outY LPE))%nat ->
       nth i (outX r) 0 = nth i (outX LPE) 0 /\
       nth i (outY r) 0
       = correctFloat ((nth (i + (p1 - p0)) (outY SPE) 0
                        - nth i (outY LPE) 0)
                       / nth i (outY LPE) 0 * 100)) /\
    (length (outX LPE) = length (outY LPE) -> outX r = outX LPE).
Proof.
  intros Hlt HS HL. unfold PPOIndicator.getValues.
  cbn [PPOIndicator.periods PPOIndicator.index PPOIndicator.periodsIncorrect
       length nth Nat.eqb negb orb].
  destruct (Nat.leb_spec p1 p0) as [Hle|_]; [lia|].
  rewrite HS, HL, PPO_fold.
  eexists. split; [reflexivity|]. cbn [outX outY values].
  set (n := length (outY LPE)).
  split; [|split].
  - unfold Results.wellFormed. cbn [outX outY values].
    rewrite !length_map, length_seq. repeat split.
    apply map_pair_combine.
  - intros i Hi. split.
    + rewrite (nth_indep _ 0 (nth 0 (outX LPE) 0))
        by (rewrite length_map, length_seq; exact Hi).
      rewrite (map_nth (fun i => nth i (outX LPE) 0) (seq 0 n) 0%nat i).
      rewrite seq_nth by exact Hi. reflexivity.
    + set (f := fun i => correctFloat
                   ((nth (i + (p1 - p0)) (outY SPE) 0 - nth i (outY LPE) 0)
                    / nth i (outY LPE) 0 * 100)).
      rewrite (nth_indep _ 0 (f 0%nat))
        by (rewrite length_map, length_seq; exact Hi).
      rewrite (map_nth f (seq 0 n) 0%nat i).
      rewrite seq_nth by exact Hi. reflexivity.
  - intros Hlen. apply nth_ext with (d := 0) (d' := 0).
    + rewrite length_map, length_seq. symmetry. exact Hlen.
    + intros i Hi. rewrite length_map, length_seq in Hi.
      rewrite (nth_indep _ 0 (nth 0 (outX LPE) 0))
        by (rewrite length_map, length_seq; exact Hi).
      rewrite (map_nth (fun i => nth i (outX LPE) 0) (seq 0 n) 0%nat i).
      rewrite seq_nth by exact Hi. reflexivity.
Qed.

(** The theorem at the series of the SMA example with the periods 2 and 3,
    over the EMA of the spec. *)
Lemma PPO_points_follow_long_EMA_witness :
  exists r,
    PPOIndicator.getValues specPrototype Spec.smaExample
      (PPOIndicator.mkParams [2; 3]%nat None) = Some r /\
    length (outY r) = 3%nat.
Proof.
  assert (Hlt : (2 < 3)%nat) by lia.
  destruct (specGetValues Spec.smaExample (mkParams 2 None)) as [SPE|] eqn:HS;
    [|discriminate HS].
  destruct (specGetValues Spec.smaExample (mkParams 3 None)) as [LPE|] eqn:HL;
    [|discriminate HL].
  destruct (PPO_points_follow_long_EMA specPrototype Spec.smaExample
              2 3 None SPE LPE Hlt HS HL) as [r [Hr [[_ [Hlen _]] _]]].
  exists r. split; [exact Hr|]. rewrite Hlen.
  injection HL as <-. reflexivity.
Defined.

End PPO_points.

Section GridLabels_claims.

Import GridLabels.
Local Open Scope Q_scope.

Context {K : Type}.
Variable ticks : K -> option Tick.

(** The dimensions so far bound every visited tick and are attained, or
    are the initial [0]. *)
Record MaxInv (visited : list K) (d : SizeObject) : Prop := {
  m_width_nonneg : 0 <= width d;
  m_height_nonneg : 0 <= height d;
  m_bounds : forall pos tick, In pos visited -> ticks pos = Some tick ->
      tickWidth tick <= width d /\ tickHeight tick <= height d;
  m_width_attained : width d == 0 \/
      exists pos tick, In pos visited /\ ticks pos = Some tick /\
                       width d == tickWidth tick;
  m_height_attained : height d == 0 \/
      exists pos tick, In pos visited /\ ticks pos = Some tick /\
                       height d == tickHeight tick
}.

Lemma Qmax_cases (a b : Q) :
  (Qmax a b == a /\ b <= a) \/ (Qmax a b == b /\ a <= b).
Proof.
  destruct (Qlt_le_dec a b) as [H|H].
  - right. split; [apply Q.max_r; apply Qlt_le_weak; exact H
                  |apply Qlt_le_weak; exact H].
  - left. split; [apply Q.max_l; exact H|exact H].
Qed.

Lemma visitTick_MaxInv (visited : list K) (d : SizeObject) (pos : K) :
  MaxInv visited d -> MaxInv (visited ++ [pos]) (visitTick ticks d pos).
Proof.
  intros [Hw Hh Hb Haw Hah]. unfold visitTick.
  destruct (ticks pos) as [tick|] eqn:Htick.
  - constructor; cbn [width height].
    + eapply Qle_trans; [exact Hw|apply Q.le_max_r].
    + eapply Qle_trans; [exact Hh|apply Q.le_max_r].
    + intros p t Hin Hp. apply in_app_or in Hin. destruct Hin as [Hin|Hin].
      * destruct (Hb p t Hin Hp) as [H1 H2]. split.
        -- eapply Qle_trans; [exact H1|apply Q.le_max_r].
        -- eapply Qle_trans; [exact H2|apply Q.le_max_r].
      * destruct Hin as [<-|[]]. rewrite Htick in Hp. injection Hp as <-.
        split; apply Q.le_max_l.
    + destruct (Qmax_cases (tickWidth tick) (width d)) as [[He _]|[He _]].
      * right. exists pos, tick. split; [apply in_or_app; right; left; reflexivity|].
        split; [exact Htick|exact He].
      * destruct Haw as [H0|[p [t [Hin [Hp Heq]]]]].
        -- left. rewrite He. exact H0.
        -- right. exists p, t. split; [apply in_or_app; left; exact Hin|].
           split; [exact Hp|]. rewrite He. exact Heq.
    + destruct (Qmax_cases (tickHeight tick) (height d)) as [[He _]|[He _]].
      * right. exists pos, tick. split; [apply in_or_app; right; left; reflexivity|].
        split; [exact Htick|exact He].
      * destruct Hah as [H0|[p [t [Hin [Hp Heq]]]]].
        -- left. rewrite He. exact H0.
        -- right. exists p, t. split; [apply in_or_app; left; exact Hin|].
           split; [exact Hp|]. rewrite He. exact Heq.
  - constructor; try assumption.
    + intros p t Hin Hp. apply in_app_or in Hin. destruct Hin as [Hin|Hin].
      * exact (Hb p t Hin Hp).
      * destruct Hin as [<-|[]]. congruence.
    + destruct Haw as [H0|[p [t [Hin [Hp Heq]]]]]; [left; exact H0|].
      right. exists p, t. split; [apply in_or_app; left; exact Hin|].
      split; assumption.
    + destruct Hah as [H0|[p [t [Hin [Hp Heq]]]]]; [left; exact H0|].
      right. exists p, t. split; [apply in_or_app; left; exact Hin|].
      split; assumption.
Qed.

Lemma forEach_MaxInv (rest visited : list K) (d : SizeObject) :
  MaxInv visited d ->
  MaxInv (visited ++ rest) (fold_left (visitTick ticks) rest d).
Proof.
  revert visited d. induction rest as [|pos rest IH]; intros visited d H.
  - rewrite app_nil_r. exact H.
  - cbn [fold_left].
    replace (visited ++ pos :: rest) with ((visited ++ [pos]) ++ rest)
      by (rewrite <- app_assoc; reflexivity).
    apply IH. apply visitTick_MaxInv. exact H.
Qed.

Lemma getMaxLabelDimensions_MaxInv (tickPositions : list K) :
  MaxInv tickPositions (getMaxLabelDimensions ticks tickPositions).
Proof.
  apply (forEach_MaxInv tickPositions [] {| width := 0; height := 0 |}).
  constructor; cbn [width height]; try apply Qle_refl.
  - intros p t [].
  - left. reflexivity.
  - left. reflexivity.
Qed.

(** [getMaxLabelDimensions] returns the largest rounded label width and the
    largest label height over the tick positions that have a tick object,
    and [0] when there is none or all are smaller: neither is negative,
    each bounds every tick, and each is [0] or the value of some tick. *)
Theorem getMaxLabelDimensions_is_maximum (tickPositions : list K) :
  let d := getMaxLabelDimensions ticks tickPositions in
  0 <= width d /\ 0 <= height d /\
  (forall pos tick, In pos tickPositions -> ticks pos = Some tick ->
     tickWidth tick <= width d /\ tickHeight tick <= height d) /\
  (width d == 0 \/
   exists pos tick, In pos tickPositions /\ ticks pos = Some tick /\
                    width d == tickWidth tick) /\
  (height d == 0 \/
   exists pos tick, In pos tickPositions /\ ticks pos = Some tick /\
                    height d == tickHeight tick).
Proof.
  intros d.
  destruct (getMaxLabelDimensions_MaxInv tickPositions) as [H1 H2 H3 H4 H5].
  split; [exact H1|]. split; [exact H2|]. split; [exact H3|].
  split; [exact H4|exact H5].
Qed.

End GridLabels_claims.

Section GridCells_claims.

Import GridAxis GridLabels SpecGridLabels.
Local Open Scope Q_scope.

Lemma afterTickSize_width (labelsX : Q) (hz : bool) (d : SizeObject)
    (ts0 : option (list Q)) :
  tickWidthOf (afterTickSize true labelsX hz d ts0)
  = Qabs labelsX * 2 + (if hz then height d else width d).
Proof.
  unfold afterTickSize. destruct ts0 as [[|a rest]|]; reflexivity.
Qed.

(** With the grid enabled, when [axis.tickSize] answers what the
    [afterTickSize] handler leaves for the dimensions that
    [getMaxLabelDimensions] has measured, the cell of every tick label is
    large enough for every label: on a vertical axis its width, and on a
    horizontal axis its height, is twice the label offset plus the largest
    label width (height), which no label exceeds. *)
Theorem grid_cell_fits_labels {K : Type} (ticks : K -> option Tick)
    (positions : list K) (chart : Chart) (axis : TickAxis) (labelsX : Q)
    (ts0 : option (list Q)) (pos tickmarkOffset : Q) (index : nat) :
  t_gridEnabled axis = true ->
  let d := getMaxLabelDimensions ticks positions in
  let hz := horizontalSide (t_side axis) in
  t_tickSize axis = afterTickSize true labelsX hz d ts0 ->
  exists cell,
    labelCell chart axis pos tickmarkOffset index = Some cell /\
    (hz = false ->
     exists w, slotWidth cell = Some w /\
       w == Qabs labelsX * 2 + width d /\
       forall p tick, In p positions -> ticks p = Some tick ->
         tickWidth tick <= w) /\
    (hz = true ->
     c_bottom cell - c_top cell == Qabs labelsX * 2 + height d /\
     forall p tick, In p positions -> ticks p = Some tick ->
       tickHeight tick <= c_bottom cell - c_top cell).
Proof.
  intros Hgrid d hz Hts.
  destruct (getMaxLabelDimensions_MaxInv ticks positions)
    as [Hw0 Hh0 Hb _ _].
  fold d in Hw0, Hh0, Hb.
  unfold labelCell. rewrite Hgrid. eexists. split; [reflexivity|].
  unfold cellBounds. rewrite Hts, afterTickSize_width.
  assert (Hpad : 0 <= Qabs labelsX * 2).
  { apply Qmult_le_0_compat; [apply Qabs_nonneg|discriminate]. }
  unfold hz. destruct (t_side axis); cbn [horizontalSide c_bottom c_top slotWidth c_left c_right];
    (split; [intros Hhz; try discriminate Hhz|intros Hhz; try discriminate Hhz]).
  - assert (He : t_top axis + t_offset axis
                 - (t_top axis + t_offset axis - (Qabs labelsX * 2 + height d))
                 == Qabs labelsX * 2 + height d) by ring.
    split; [exact He|]. intros p tick Hin Hp. rewrite He.
    destruct (Hb p tick Hin Hp) as [_ H].
    rewrite <- (Qplus_0_l (tickHeight tick)).
    apply Qplus_le_compat; assumption.
  - eexists. split; [reflexivity|].
    assert (He : chartWidth chart - t_right axis + t_offset axis
                 + (Qabs labelsX * 2 + width d)
                 - (chartWidth chart - t_right axis + t_offset axis)
                 == Qabs labelsX * 2 + width d) by ring.
    split; [exact He|]. intros p tick Hin Hp. rewrite He.
    destruct (Hb p tick Hin Hp) as [H _].
    rewrite <- (Qplus_0_l (tickWidth tick)).
    apply Qplus_le_compat; assumption.
  - assert (He : chartHeight chart - t_bottom axis + t_offset axis
                 + (Qabs labelsX * 2 + height d)
                 - (chartHeight chart - t_bottom axis + t_offset axis)
                 == Qabs labelsX * 2 + height d) by ring.
    split; [exact He|]. intros p tick Hin Hp. rewrite He.
    destruct (Hb p tick Hin Hp) as [_ H].
    rewrite <- (Qplus_0_l (tickHeight tick)).
    apply Qplus_le_compat; assumption.
  - eexists. split; [reflexivity|].
    assert (He : t_left axis + t_offset axis
                 - (t_left axis + t_offset axis - (Qabs labelsX * 2 + width d))
                 == Qabs labelsX * 2 + width d) by ring.
    split; [exact He|]. intros p tick Hin Hp. rewrite He.
    destruct (Hb p tick Hin Hp) as [H _].
    rewrite <- (Qplus_0_l (tickWidth tick)).
    apply Qplus_le_compat; assumption.
Qed.

(** The theorem at the example axis: the cells are 60 pixels wide. *)
Lemma grid_cell_fits_labels_witness :
  exists cell w,
    labelCell (mkChart 400 600) exampleColumnAxis 0 0 0 = Some cell /\
    slotWidth cell = Some w /\ w == 60.
Proof.
  destruct (grid_cell_fits_labels exampleTicks [0%nat; 1%nat]
              (mkChart 400 600) exampleColumnAxis (- (15)) (Some [10; 1])
              0 0 0 eq_refl eq_refl)
    as [cell [Hcell [Hvertical _]]].
  destruct (Hvertical eq_refl) as [w [Hw [He _]]].
  exists cell, w. split; [exact Hcell|]. split; [exact Hw|].
  rewrite He. reflexivity.
Defined.

End GridCells_claims.

Section GridTicks_claims.

Import GridTicks.
Local Open Scope Q_scope.

Lemma length_setAt (arr : list Q) (i : nat) (v : Q) :
  length (setAt arr i v) = length arr.
Proof.
  revert i. induction arr as [|a arr IH]; intros [|i]; simpl; auto.
Qed.

Lemma nth_error_setAt_same (arr : list Q) (i : nat) (v : Q) :
  (i < length arr)%nat -> nth_error (setAt arr i v) i = Some v.
Proof.
  revert i. induction arr as [|a arr IH]; intros [|i] H; simpl in *;
    try lia; [reflexivity|]. apply IH. lia.
Qed.

Lemma nth_error_setAt_other (arr : list Q) (i j : nat) (v : Q) :
  i <> j -> nth_error (setAt arr i v) j = nth_error arr j.
Proof.
  revert i j. induction arr as [|a arr IH]; intros [|i] [|j] H; simpl;
    try reflexivity; try congruence. apply IH. congruence.
Qed.

Lemma length_setAtOpt (arr : list Q) (i : nat) (v : option Q) :
  length (setAtOpt arr i v) = length arr.
Proof.
  destruct v; simpl; [apply length_setAt|reflexivity].
Qed.

Lemma nth_error_setAtOpt_other (arr : list Q) (i j : nat) (v : option Q) :
  i <> j -> nth_error (setAtOpt arr i v) j = nth_error arr j.
Proof.
  destruct v; simpl; [apply nth_error_setAt_other|reflexivity].
Qed.

Lemma ltOpt_true (a b : option Q) :
  ltOpt a b = true -> exists x y, a = Some x /\ b = Some y /\ x < y.
Proof.
  destruct a as [x|], b as [y|]; simpl; try discriminate.
  intros H. exists x, y. repeat split.
  apply Qnot_le_lt. intros Hle. apply Qle_bool_iff in Hle.
  rewrite Hle in H. discriminate.
Qed.

(** What a write of the handler does to the entry it reaches. *)
Lemma trimTicks_entry (axis : Axis) (i : nat) (p p' : Q) :
  nth_error (tickPositions axis) i = Some p ->
  nth_error (trimTicks axis) i = Some p' ->
  p' = p \/
  (i = 0%nat /\ orElse (linkedMin axis) (axisMin axis) = Some p' /\
   p < p' /\ p' < p + tickInterval axis) \/
  (i = (length (tickPositions axis) - 1)%nat /\
   orElse (linkedMax axis) (axisMax axis) = Some p' /\
   p' < p /\ p - tickInterval axis < p').
Proof.
  intros Hp Hp'. unfold trimTicks in Hp'.
  set (tp := tickPositions axis) in *.
  set (mn := orElse (linkedMin axis) (axisMin axis)) in *.
  set (mx := orElse (linkedMax axis) (axisMax axis)) in *.
  destruct (gridEnabled axis && negb (categories axis)
            && (horiz axis || isLinked axis));
    [|left; congruence].
  destruct (ltOpt (nth_error tp 0) mn
            && ltOpt mn (plusOpt (nth_error tp 0) (tickInterval axis))
            && negb (startOnTick axis)) eqn:Hfirst;
  destruct (ltOpt mx (nth_error tp (length tp - 1))
            && ltOpt (plusOpt (nth_error tp (length tp - 1))
                              (- tickInterval axis)) mx
            && negb (endOnTick axis)) eqn:Hlast;
  rewrite ?length_setAtOpt in Hp'.
  - (* both *)
    apply andb_prop in Hfirst. destruct Hfirst as [Hfirst _].
    apply andb_prop in Hfirst. destruct Hfirst as [Hf1 Hf2].
    apply andb_prop in Hlast. destruct Hlast as [Hlast _].
    apply andb_prop in Hlast. destruct Hlast as [Hl1 Hl2].
    apply ltOpt_true in Hf1. destruct Hf1 as [f [m [Ef [Em Hfm]]]].
    apply ltOpt_true in Hf2. destruct Hf2 as [m' [f' [Em' [Ef' Hmf]]]].
    apply ltOpt_true in Hl1. destruct Hl1 as [M [l [EM [El HMl]]]].
    apply ltOpt_true in Hl2. destruct Hl2 as [l' [M' [El' [EM' HlM]]]].
    rewrite Em in Em'. injection Em' as <-.
    rewrite Ef in Ef'. cbn [plusOpt] in Ef'. injection Ef' as <-.
    rewrite EM in EM'. injection EM' as <-.
    rewrite El in El'. cbn [plusOpt] in El'. injection El' as <-.
    rewrite Em, EM in Hp'. cbn [setAtOpt] in Hp'.
    destruct (Nat.eq_dec i (length tp - 1)) as [->|Hne].
    + rewrite nth_error_setAt_same in Hp'
        by (rewrite length_setAt; apply nth_error_Some; congruence).
      injection Hp' as <-. rewrite El in Hp. injection Hp as <-.
      right. right. split; [reflexivity|]. split; [assumption|].
      split; [exact HMl|]. unfold Qminus. exact HlM.
    + rewrite nth_error_setAt_other in Hp' by congruence.
      destruct (Nat.eq_dec i 0) as [->|Hne0].
      * rewrite nth_error_setAt_same in Hp'
          by (apply nth_error_Some; congruence).
        injection Hp' as <-. rewrite Ef in Hp. injection Hp as <-.
        right. left. split; [reflexivity|]. split; [assumption|].
        split; assumption.
      * rewrite nth_error_setAt_other in Hp' by congruence.
        left. congruence.
  - (* first only *)
    apply andb_prop in Hfirst. destruct Hfirst as [Hfirst _].
    apply andb_prop in Hfirst. destruct Hfirst as [Hf1 Hf2].
    apply ltOpt_true in Hf1. destruct Hf1 as [f [m [Ef [Em Hfm]]]].
    apply ltOpt_true in Hf2. destruct Hf2 as [m' [f' [Em' [Ef' Hmf]]]].
    rewrite Em in Em'. injection Em' as <-.
    rewrite Ef in Ef'. cbn [plusOpt] in Ef'. injection Ef' as <-.
    rewrite Em in Hp'. cbn [setAtOpt] in Hp'.
    destruct (Nat.eq_dec i 0) as [->|Hne0].
    + rewrite nth_error_setAt_same in Hp'
        by (apply nth_error_Some; congruence).
      injection Hp' as <-. rewrite Ef in Hp. injection Hp as <-.
      right. left. split; [reflexivity|]. split; [assumption|].
      split; assumption.
    + rewrite nth_error_setAt_other in Hp' by congruence.
      left. congruence.
  - (* last only *)
    apply andb_prop in Hlast. destruct Hlast as [Hlast _].
    apply andb_prop in Hlast. destruct Hlast as [Hl1 Hl2].
    apply ltOpt_true in Hl1. destruct Hl1 as [M [l [EM [El HMl]]]].
    apply ltOpt_true in Hl2. destruct Hl2 as [l' [M' [El' [EM' HlM]]]].
    rewrite EM in EM'. injection EM' as <-.
    rewrite El in El'. cbn [plusOpt] in El'. injection El' as <-.
    rewrite EM in Hp'. cbn [setAtOpt] in Hp'.
    destruct (Nat.eq_dec i (length tp - 1)) as [->|Hne].
    + rewrite nth_error_setAt_same in Hp'
        by (apply nth_error_Some; congruence).
      injection Hp' as <-. rewrite El in Hp. injection Hp as <-.
      right. right. split; [reflexivity|]. split; [assumption|].
      split; [exact HMl|]. unfold Qminus. exact HlM.
    + rewrite nth_error_setAt_other in Hp' by congruence.
      left. congruence.
  - left. congruence.
Qed.

Lemma trimTicks_length (axis : Axis) :
  length (trimTicks axis) = length (tickPositions axis).
Proof.
  unfold trimTicks.
  destruct (gridEnabled axis && negb (categories axis)
            && (horiz axis || isLinked axis)); [|reflexivity].
  repeat match goal with
         | |- context [if ?c then _ else _] => destruct c
         end; rewrite ?length_setAtOpt; reflexivity.
Qed.

Lemma ltOpt_intro (x y : Q) : x < y -> ltOpt (Some x) (Some y) = true.
Proof.
  intros H. cbn [ltOpt]. destruct (Qle_bool y x) eqn:E; [|reflexivity].
  apply Qle_bool_iff in E. exfalso. apply (Qlt_not_le _ _ H E).
Qed.

(** The last write of the handler: the last tick becomes [max]. *)
Lemma trimTicks_last (axis : Axis) (p m : Q) :
  gridEnabled axis && negb (categories axis)
  && (horiz axis || isLinked axis) = true ->
  endOnTick axis = false ->
  nth_error (tickPositions axis) (length (tickPositions axis) - 1) = Some p ->
  orElse (linkedMax axis) (axisMax axis) = Some m ->
  m < p -> p - tickInterval axis < m ->
  nth_error (trimTicks axis) (length (tickPositions axis) - 1) = Some m.
Proof.
  intros Hon Hend Hp Hm H1 H2. unfold trimTicks. rewrite Hon, Hend, Hp, Hm.
  cbn [plusOpt negb]. rewrite andb_true_r.
  rewrite (ltOpt_intro m p H1), (ltOpt_intro (p + - tickInterval axis) m H2).
  cbn [andb setAtOpt].
  assert (Hlen : (length (tickPositions axis) - 1
                  < length (tickPositions axis))%nat)
    by (apply nth_error_Some; congruence).
  match goal with
  | |- context [if ?c then _ else _] => destruct c
  end; rewrite ?length_setAtOpt; apply nth_error_setAt_same;
    rewrite ?length_setAtOpt; exact Hlen.
Qed.

(** The first write of the handler: the first of two or more ticks becomes
    [min]. *)
Lemma trimTicks_first (axis : Axis) (p m : Q) :
  gridEnabled axis && negb (categories axis)
  && (horiz axis || isLinked axis) = true ->
  startOnTick axis = false ->
  (2 <= length (tickPositions axis))%nat ->
  nth_error (tickPositions axis) 0 = Some p ->
  orElse (linkedMin axis) (axisMin axis) = Some m ->
  p < m -> m < p + tickInterval axis ->
  nth_error (trimTicks axis) 0 = Some m.
Proof.
  intros Hon Hstart Hlen Hp Hm H1 H2. unfold trimTicks.
  rewrite Hon, Hstart, Hp, Hm.
  cbn [plusOpt negb]. rewrite andb_true_r.
  rewrite (ltOpt_intro p m H1), (ltOpt_intro m (p + tickInterval axis) H2).
  cbn [andb setAtOpt].
  match goal with
  | |- context [if ?c then _ else _] => destruct c
  end.
  - rewrite nth_error_setAtOpt_other by (rewrite length_setAt; lia).
    apply nth_error_setAt_same. lia.
  - apply nth_error_setAt_same. lia.
Qed.

(** The [trimTicks] handler keeps the number of ticks and every tick but
    the first and the last.  A first tick that it moves is moved up to
    [min] ([linkedParent.min || axis.min]) and a last tick down to [max],
    each by less than one tick interval; it moves the first of two or more
    ticks whenever [min] lies above it by less than one interval and
    [startOnTick] is off, and the last tick whenever [max] lies below it
    by less than one interval and [endOnTick] is off.  Without the grid,
    on a category axis, or on a vertical axis that is not linked, nothing
    is moved. *)
Theorem trimTicks_moves_outer_ticks (axis : Axis) :
  let tp := tickPositions axis in
  let tp' := trimTicks axis in
  let min := orElse (linkedMin axis) (axisMin axis) in
  let max := orElse (linkedMax axis) (axisMax axis) in
  let active := gridEnabled axis && negb (categories axis)
                && (horiz axis || isLinked axis) in
  length tp' = length tp /\
  (forall i p p', nth_error tp i = Some p -> nth_error tp' i = Some p' ->
     p' = p \/
     (i = 0%nat /\ min = Some p' /\ p < p' /\ p' < p + tickInterval axis) \/
     (i = (length tp - 1)%nat /\ max = Some p' /\
      p' < p /\ p - tickInterval axis < p')) /\
  (forall i, (0 < i)%nat -> (i + 1 < length tp)%nat ->
     nth_error tp' i = nth_error tp i) /\
  (forall p m, active = true -> startOnTick axis = false ->
     (2 <= length tp)%nat -> nth_error tp 0 = Some p -> min = Some m ->
     p < m -> m < p + tickInterval axis ->
     nth_error tp' 0 = Some m) /\
  (forall p m, active = true -> endOnTick axis = false ->
     nth_error tp (length tp - 1) = Some p -> max = Some m ->
     m < p -> p - tickInterval axis < m ->
     nth_error tp' (length tp - 1) = Some m) /\
  (active = false -> tp' = tp).
Proof.
  intros tp tp' mn mx active.
  split; [apply trimTicks_length|]. split; [|split; [|split; [|split]]].
  - intros i p p'. apply trimTicks_entry.
  - intros i H0 Hi.
    assert (Hlt : (i < length tp)%nat) by lia.
    destruct (nth_error tp i) as [p|] eqn:Hp;
      [|apply nth_error_None in Hp; lia].
    destruct (nth_error tp' i) as [p'|] eqn:Hp'.
    + destruct (trimTicks_entry axis i p p' Hp Hp') as [->|[[H _]|[H _]]];
        [reflexivity|lia|fold tp in H; lia].
    + apply nth_error_None in Hp'. unfold tp' in Hp'.
      rewrite trimTicks_length in Hp'. fold tp in Hp'. lia.
  - intros p m. apply trimTicks_first.
  - intros p m. apply trimTicks_last.
  - intros H. unfold tp', trimTicks. fold active. rewrite H. reflexivity.
Qed.

End GridTicks_claims.

Section GridColumns_claims.

Import GridAxis SpecGrid GridColumns.

Context {Opt : Type}.
Variable construct : option Opt -> Axis.

Lemma createColumns_length (cols : list Opt) :
  length (createColumns construct cols) = (length cols - 1)%nat.
Proof.
  unfold createColumns. rewrite length_map, length_seq. reflexivity.
Qed.

Lemma createColumns_nth (cols : list Opt) (j : nat) :
  (j + 1 < length cols)%nat ->
  nth_error (createColumns construct cols) j
  = Some (withColumnIndex
            (construct (nth_error cols (length cols - 2 - j))) (j + 1)).
Proof.
  intros Hj. unfold createColumns.
  rewrite nth_error_map.
  rewrite (nth_error_nth' _ 0%nat) by (rewrite length_seq; lia).
  rewrite seq_nth by lia. cbn [option_map].
  replace (1 + j)%nat with (j + 1)%nat by lia.
  replace (length cols - (j + 1) - 1)%nat with (length cols - 2 - j)%nat by lia.
  reflexivity.
Qed.

Lemma rev_nth_error (cols : list Opt) (i : nat) :
  (i < length cols)%nat ->
  nth_error (rev cols) i = nth_error cols (length cols - 1 - i).
Proof.
  intros Hi.
  destruct (nth_error cols (length cols - 1 - i)) as [o|] eqn:Ho.
  - rewrite (nth_error_nth' _ o) by (rewrite length_rev; exact Hi).
    rewrite rev_nth by exact Hi.
    replace (length cols - S i)%nat with (length cols - 1 - i)%nat by lia.
    f_equal. apply nth_error_nth. exact Ho.
  - apply nth_error_None in Ho. lia.
Qed.

(** The column axes of a grid axis.  For [gridOptions.columns] of [len]
    entries the handler creates [len - 1] column axes, the [j]-th of them
    (from 0) with [columnIndex = j + 1] and built from entry
    [len - 2 - j]; the axis itself takes [columnIndex = 0] and the last
    entry, so that the entries are used once each, in reverse order.  Of
    the axis and its columns, [isOuterAxis] picks the column created last
    (the axis itself when there is no column): for an axis or column that
    stands for the outermost axis of its side, the answer is [true] exactly
    there. *)
Theorem grid_columns_created (axis : Axis) (cols : list Opt)
    (coll : list Axis) :
  let len := length cols in
  let parent := fst (onGridAxisAfterInit construct axis (Some cols)) in
  let created := snd (onGridAxisAfterInit construct axis (Some cols)) in
  length created = (len - 1)%nat /\
  (forall j, (j + 1 < len)%nat ->
     nth_error created j
     = Some (withColumnIndex (construct (nth_error cols (len - 2 - j)))
                             (j + 1))) /\
  (parentColumnOptions cols
   :: map (fun j => nth_error cols (len - 2 - j)) (seq 0 (len - 1))
   = match cols with [] => [None] | _ => map Some (rev cols) end) /\
  columnIndex parent = Some 0%nat /\
  columns parent = Some (map ident created) /\
  (linkedParent axis = None ->
   highestCounting coll parent (Some (asParent parent)) ->
   isOuterAxis coll parent = Some (len <=? 1)%nat) /\
  (forall j column, nth_error created j = Some column ->
     linkedParent column = Some (asParent parent) ->
     highestCounting coll column (Some (asParent parent)) ->
     isOuterAxis coll column = Some (j + 2 =? len)%nat).
Proof.
  intros len parent created.
  assert (Hlen : length created = (len - 1)%nat)
    by apply createColumns_length.
  split; [exact Hlen|]. split; [intros j Hj; apply createColumns_nth; exact Hj|].
  split; [|split; [reflexivity|split; [reflexivity|split]]].
  - destruct cols as [|o cols']; [reflexivity|].
    set (cs := o :: cols') in *.
    apply nth_error_ext. intros i.
    destruct (Nat.lt_ge_cases i len) as [Hi|Hi].
    + rewrite nth_error_map, rev_nth_error by exact Hi.
      destruct i as [|i].
      * cbn [nth_error].
        change (parentColumnOptions cs) with (nth_error cs (length cs - 1)).
        fold len. rewrite Nat.sub_0_r.
        destruct (nth_error cs (len - 1)) as [x|] eqn:Hx; [reflexivity|].
        apply nth_error_None in Hx. unfold len in Hx, Hi. lia.
      * cbn [nth_error]. rewrite nth_error_map.
        rewrite (nth_error_nth' _ 0%nat) by (rewrite length_seq; lia).
        rewrite seq_nth by lia. cbn [option_map Nat.add].
        fold len.
        replace (len - 1 - S i)%nat with (len - 2 - i)%nat by lia.
        destruct (nth_error cs (len - 2 - i)) as [x|] eqn:Hx; [reflexivity|].
        apply nth_error_None in Hx. exfalso. unfold len in Hx, Hi. lia.
    + assert (Hpos : (1 <= len)%nat) by (unfold len, cs; simpl; lia).
      transitivity (@None (option Opt)).
      * apply nth_error_None. cbn [length].
        rewrite length_map, length_seq. lia.
      * symmetry. apply nth_error_None. rewrite length_map, length_rev.
        exact Hi.
  - intros Hlp Hhigh. unfold isOuterAxis.
    pose proof (forEach_indices parent (parentAxisOf parent) coll) as H.
    cbv zeta in H.
    destruct (fold_left (visit parent (parentAxisOf parent))
                (combine (seq 0 (length coll)) coll) ((-1)%Z, 0%Z))
      as [thisIndex lastIndex].
    destruct H as [_ H]. cbn [fst snd] in H.
    assert (Heq : lastIndex = thisIndex) by (apply H; exact Hhigh).
    rewrite Heq, Z.eqb_refl.
    unfold columnsOf. cbn [columnIndex linkedParent columns parent fst
                           onGridAxisAfterInit].
    rewrite Hlp, length_map, createColumns_length. fold len.
    f_equal. destruct len as [|[|n]]; reflexivity.
  - intros j column Hj Hlp Hhigh.
    assert (Hjlt : (j < length created)%nat)
      by (apply nth_error_Some; congruence).
    rewrite Hlen in Hjlt.
    unfold created in Hj. cbn [snd onGridAxisAfterInit] in Hj.
    rewrite createColumns_nth in Hj by (fold len; lia).
    injection Hj as Hcol.
    assert (Hci : columnIndex column = Some (j + 1)%nat)
      by (rewrite <- Hcol; reflexivity).
    assert (Hpa : parentAxisOf column = Some (asParent parent)).
    { unfold parentAxisOf. rewrite Hci.
      replace (j + 1)%nat with (S j) by lia. exact Hlp. }
    unfold isOuterAxis. rewrite Hpa.
    pose proof (forEach_indices column (Some (asParent parent)) coll) as H.
    cbv zeta in H.
    destruct (fold_left (visit column (Some (asParent parent)))
                (combine (seq 0 (length coll)) coll) ((-1)%Z, 0%Z))
      as [thisIndex lastIndex].
    destruct H as [_ H]. cbn [fst snd] in H.
    assert (Heq : lastIndex = thisIndex) by (apply H; exact Hhigh).
    rewrite Heq, Z.eqb_refl, Hci.
    unfold columnsOf. rewrite Hlp.
    cbn [asParent p_columns columns parent fst onGridAxisAfterInit].
    rewrite length_map, createColumns_length. fold len. f_equal.
    destruct (Nat.eqb_spec (len - 1) (j + 1));
      destruct (Nat.eqb_spec (j + 2) len); try reflexivity; lia.
Qed.

End GridColumns_claims.

Section GridUnits_claims.

Import String GridUnits.
Local Open Scope string_scope.

(** With the default units, the ticks of a secondary grid axis are one
    unit of the time unit that follows the unit of its parent: seconds
    under milliseconds, and so on up to years under months.  Under a
    parent in years the positioner returns undefined, with no parent
    information as well, and a parent unit that is not in the list makes
    it throw. *)
Theorem tickPositioner_next_unit (timeUnits : string -> option Q)
    (parentName : string) :
  map (fun name => tickPositioner defaultUnits timeUnits (Some name))
      ["millisecond"; "second"; "minute"; "hour"; "day"; "week"; "month"]
  = map (oneUnitOf timeUnits)
        ["second"; "minute"; "hour"; "day"; "week"; "month"; "year"] /\
  tickPositioner defaultUnits timeUnits (Some "year") = Undefined /\
  tickPositioner defaultUnits timeUnits None = Undefined /\
  (~ In parentName (map fst defaultUnits) ->
   tickPositioner defaultUnits timeUnits (Some parentName) = TypeError).
Proof.
  split; [reflexivity|]. split; [reflexivity|]. split; [reflexivity|].
  intros Hnot. unfold tickPositioner.
  assert (Hf : forall units i,
            ~ In parentName (map fst units) ->
            findUnit units parentName i = None).
  { induction units as [|[name allowed] units IH]; intros i Hn;
      [reflexivity|].
    cbn [findUnit]. cbn [map fst In] in Hn.
    destruct (String.eqb_spec name parentName) as [E|N].
    - exfalso. apply Hn. left. exact E.
    - apply IH. intros Hin. apply Hn. right. exact Hin. }
  rewrite (Hf defaultUnits 0%nat Hnot). reflexivity.
Qed.

End GridUnits_claims.

Section LineSegments_claims.

Import Renderer3D Polyhedron.
Local Open Scope Q_scope.

Lemma toLineSegments_fold (points : list Position3dObject) :
  forall (result : SVGPathArray) (m : bool),
  let st := fold_left pushSegmentPoint points (result, m) in
  length (fst st) = (length result + 3 * length points)%nat /\
  (forall k, (k < length result)%nat ->
     nth_error (fst st) k = nth_error result k) /\
  (forall k p, nth_error points k = Some p ->
     nth_error (fst st) (length result + 3 * k)
     = Some (if Bool.eqb m (Nat.even k) then M else L) /\
     nth_error (fst st) (length result + 3 * k + 1) = Some (Num (x p)) /\
     nth_error (fst st) (length result + 3 * k + 2) = Some (Num (y p))).
Proof.
  induction points as [|p points IH]; intros result m; cbn [fold_left].
  - cbv zeta. cbn [fst length]. split; [rewrite Nat.mul_0_r, Nat.add_0_r; reflexivity|]. split; [reflexivity|].
    intros k q Hq. destruct k; discriminate Hq.
  - change (pushSegmentPoint (result, m) p)
      with (result ++ [if m then M else L; Num (x p); Num (y p)], negb m).
    destruct (IH (result ++ [if m then M else L; Num (x p); Num (y p)])
                 (negb m)) as [Hl [Hold Hnew]].
    rewrite length_app in Hl, Hold, Hnew. cbn [length] in Hl, Hold, Hnew.
    cbv zeta. unfold SVGPathArray in *.
    split; [rewrite Hl; cbn [length]; lia|]. split.
    + intros k Hk. rewrite Hold by lia. apply nth_error_app1. exact Hk.
    + intros k q Hq. destruct k as [|k].
      * cbn [nth_error] in Hq. injection Hq as <-.
        rewrite Nat.mul_0_r, Nat.add_0_r.
        rewrite !Hold by lia.
        rewrite !nth_error_app2 by lia.
        replace (length result - length result)%nat with 0%nat by lia.
        replace (length result + 1 - length result)%nat with 1%nat by lia.
        replace (length result + 2 - length result)%nat with 2%nat by lia.
        cbn [nth_error Nat.even]. destruct m; repeat split; reflexivity.
      * cbn [nth_error] in Hq. destruct (Hnew k q Hq) as [H1 [H2 H3]].
        replace (length result + 3 * S k)%nat
          with (length result + 3 + 3 * k)%nat by lia.
        rewrite H1, H2, H3. repeat split.
        rewrite Nat.even_succ, <- Nat.negb_even.
        destruct m, (Nat.even k); reflexivity.
Qed.

(** [toLineSegments] writes three entries per point: ['M'] for the points
    at even positions and ['L'] for those at odd positions, each followed by
    the [x] and the [y] of the point; the points are paired into separate
    segments, and no ['Z'] is written. *)
Theorem toLineSegments_shape (points : list Position3dObject) :
  let result := toLineSegments points in
  length result = (3 * length points)%nat /\
  (forall k p, nth_error points k = Some p ->
     nth_error result (3 * k) = Some (if Nat.even k then M else L) /\
     nth_error result (3 * k + 1) = Some (Num (x p)) /\
     nth_error result (3 * k + 2) = Some (Num (y p))) /\
  ~ In Z result.
Proof.
  intros result. subst result. unfold toLineSegments.
  destruct (toLineSegments_fold points [] true) as [Hl [_ Hnew]].
  cbn [length Nat.add] in Hl, Hnew. unfold SVGPathArray in *.
  set (result := fst (fold_left pushSegmentPoint points ([], true))) in *.
  split; [exact Hl|]. split.
  - intros k p Hp. destruct (Hnew k p Hp) as [H1 [H2 H3]].
    split; [|split; assumption].
    rewrite H1. destruct (Nat.even k); reflexivity.
  - intros Hin. apply In_nth_error in Hin. destruct Hin as [i Hi].
    assert (Hlt : (i < 3 * length points)%nat)
      by (rewrite <- Hl; apply nth_error_Some; congruence).
    assert (Hk : (i / 3 < length points)%nat)
      by (apply Nat.Div0.div_lt_upper_bound; lia).
    destruct (nth_error points (i / 3)) as [p|] eqn:Hp;
      [|apply nth_error_None in Hp; lia].
    destruct (Hnew (i / 3)%nat p Hp) as [H1 [H2 H3]].
    pose proof (Nat.div_mod_eq i 3) as Hdm.
    pose proof (Nat.mod_upper_bound i 3 ltac:(lia)) as Hm.
    destruct (i mod 3)%nat as [|[|[|r]]] eqn:Hr; try lia.
    + rewrite Nat.add_0_r in Hdm. rewrite <- Hdm in H1.
      rewrite H1 in Hi. destruct (Bool.eqb true (Nat.even (i / 3)));
        discriminate Hi.
    + rewrite <- Hdm in H2. rewrite H2 in Hi. discriminate Hi.
    + rewrite <- Hdm in H3. rewrite H3 in Hi. discriminate Hi.
Qed.

End LineSegments_claims.

Section Polyhedron_claims.

Import Renderer3D Polyhedron.
Local Open Scope Q_scope.

Lemma removelast_firstn_len (faces : list Face) :
  removelast faces = firstn (length faces - 1) faces.
Proof.
  destruct faces as [|f faces] using rev_ind; [reflexivity|].
  rewrite removelast_last, length_app. cbn [length].
  replace (length faces + 1 - 1)%nat with (length faces) by lia.
  rewrite firstn_app, Nat.sub_diag, firstn_all. cbn [firstn].
  rewrite app_nil_r. reflexivity.
Qed.

Lemma popFaces_spec (k : nat) : forall (faces destroyed : list Face),
  (k <= length faces)%nat ->
  popFaces k (faces, destroyed)
  = (firstn (length faces - k) faces,
     destroyed ++ rev (skipn (length faces - k) faces)).
Proof.
  induction k as [|k IH]; intros faces destroyed Hk; cbn [popFaces].
  - rewrite Nat.sub_0_r, firstn_all, skipn_all. cbn [rev].
    rewrite app_nil_r. reflexivity.
  - destruct faces as [|f faces] using rev_ind; [cbn [length] in Hk; lia|].
    clear IHfaces. rewrite length_app in Hk. cbn [length] in Hk.
    rewrite removelast_last, rev_app_distr. cbn [rev app].
    rewrite IH by lia. rewrite length_app. cbn [length].
    replace (length faces + 1 - S k)%nat with (length faces - k)%nat by lia.
    f_equal.
    + rewrite firstn_app.
      replace (length faces - k - length faces)%nat with 0%nat by lia.
      cbn [firstn]. rewrite app_nil_r. reflexivity.
    + rewrite skipn_app.
      replace (length faces - k - length faces)%nat with 0%nat by lia.
      cbn [skipn]. rewrite rev_app_distr. cbn [rev app].
      rewrite <- app_assoc. reflexivity.
Qed.

Lemma pushFaces_spec (k : nat) : forall (faces : list Face),
  pushFaces k faces = faces ++ repeat newFace k.
Proof.
  induction k as [|k IH]; intros faces; cbn [pushFaces repeat].
  - rewrite app_nil_r. reflexivity.
  - rewrite IH, <- app_assoc. reflexivity.
Qed.

Lemma updateFaces_spec (update : Face -> SVGAttributes -> Face)
    (hashes : list SVGAttributes) : forall (faces : list Face),
  length faces = length hashes ->
  length (updateFaces update faces hashes) = length hashes /\
  forall i h, nth_error hashes i = Some h ->
    nth_error (updateFaces update faces hashes) i
    = Some (update (nth i faces newFace) h).
Proof.
  induction hashes as [|h0 hashes IH]; intros faces Hlen.
  - destruct faces; [|discriminate Hlen]. split; [reflexivity|].
    intros i h Hh. destruct i; discriminate Hh.
  - destruct faces as [|f faces]; [discriminate Hlen|].
    cbn [updateFaces length]. injection Hlen as Hlen.
    destruct (IH faces Hlen) as [Hl Hn]. split; [rewrite Hl; reflexivity|].
    intros i h Hh. destruct i as [|i]; cbn [nth_error nth] in *.
    + injection Hh as <-. reflexivity.
    + apply Hn. exact Hh.
Qed.

(** The faces after the two [while] loops: the first [n] of the old faces,
    filled up with fresh ones. *)
Lemma setFaces_spec (update : Face -> SVGAttributes -> Face)
    (faces : list Face) (hf : list SVGAttributes) :
  let r := setFaces update faces (Some hf) in
  length (fst r) = length hf /\
  (forall i h, nth_error hf i = Some h ->
     nth_error (fst r) i = Some (update (nth i faces newFace) h)) /\
  snd r = rev (skipn (length hf) faces).
Proof.
  cbv zeta. unfold setFaces.
  rewrite popFaces_spec by lia. rewrite pushFaces_spec.
  cbn [fst snd app].
  set (kept := firstn (length faces - (length faces - length hf)) faces).
  assert (Hkept : kept = firstn (length hf) faces).
  { unfold kept.
    destruct (Nat.le_gt_cases (length hf) (length faces)) as [H|H].
    - f_equal. lia.
    - replace (length faces - (length faces - length hf))%nat
        with (length faces) by lia.
      rewrite firstn_all, firstn_all2 by lia. reflexivity. }
  assert (Hlen : length (kept ++ repeat newFace (length hf - length kept))
                 = length hf).
  { rewrite length_app, repeat_length, Hkept, length_firstn. lia. }
  destruct (updateFaces_spec update hf _ Hlen) as [Hl Hn].
  split; [exact Hl|]. split.
  - intros i h Hh. rewrite (Hn i h Hh). do 2 f_equal.
    assert (Hi : (i < length hf)%nat) by (apply nth_error_Some; congruence).
    rewrite Hkept.
    destruct (Nat.lt_ge_cases i (length faces)) as [Hlt|Hge].
    + rewrite app_nth1 by (rewrite length_firstn; lia).
      rewrite <- (firstn_skipn (length hf) faces) at 2.
      rewrite app_nth1 by (rewrite length_firstn; lia). reflexivity.
    + rewrite (nth_overflow faces) by lia.
      rewrite app_nth2 by (rewrite length_firstn; lia).
      destruct (Nat.lt_ge_cases
                  (i - length (firstn (length hf) faces))
                  (length hf - length (firstn (length hf) faces)))
        as [Hr|Hr].
      * rewrite nth_repeat_lt by exact Hr. reflexivity.
      * rewrite nth_overflow by (rewrite repeat_length; exact Hr).
        reflexivity.
  - f_equal.
    destruct (Nat.le_gt_cases (length hf) (length faces)) as [H|H].
    + f_equal. lia.
    + replace (length faces - (length faces - length hf))%nat
        with (length faces) by lia.
      rewrite !skipn_all2 by lia. reflexivity.
Qed.

End Polyhedron_claims.

Section Polyhedron_theorems.

Import Renderer3D Polyhedron.
Local Open Scope Q_scope.

(** The visibility a face takes from an update that recomputes it. *)
Lemma attr_recomputes (perspective : Perspective) (chart : Chart)
    (this : Face) (hash : SVGAttributes) :
  defined (a_enabled hash) || defined (a_vertexes hash)
  || defined (a_insidePlotArea hash) = true ->
  let en := pick (a_enabled hash) (enabled this) in
  let vs := pick (a_vertexes hash) (vertexes this) in
  let ipa := pick (a_insidePlotArea hash) (insidePlotArea this) in
  let face := Renderer3D.attr perspective chart this hash in
  enabled face = en /\ vertexes face = vs /\ insidePlotArea face = ipa /\
  visibility face = Some (faceVisibility en (shapeArea (perspective vs chart ipa))) /\
  d face = Some (toLinePath (perspective vs chart ipa) true).
Proof.
  intros Hdef. cbv zeta. unfold Renderer3D.attr. rewrite Hdef.
  repeat split; reflexivity.
Qed.

(** After [polyhedron.attr({faces: ...})] the polyhedron holds one face per
    entry of [faces]: the old faces in their places, the surplus ones
    destroyed from the last one down, and fresh faces (enabled, without
    vertexes) where the old ones run out.  Face [i] has been updated with
    entry [i]: when the entry gives [enabled], [vertexes] or
    [insidePlotArea], the face is visible exactly when it is enabled, by the
    entry or by what the face kept, and the area of its projected polygon
    is positive. *)
Theorem polyhedron_attr_faces (perspective : Perspective) (chart : Chart)
    (faces : list Face) (hf : list SVGAttributes) :
  let r := Polyhedron.attr perspective chart faces (Some hf) in
  length (fst r) = length hf /\
  snd r = rev (skipn (length hf) faces) /\
  (forall i h, nth_error hf i = Some h ->
     let old := nth i faces newFace in
     nth_error (fst r) i = Some (Renderer3D.attr perspective chart old h) /\
     (defined (a_enabled h) || defined (a_vertexes h)
      || defined (a_insidePlotArea h) = true ->
      let en := pick (a_enabled h) (enabled old) in
      let vs := pick (a_vertexes h) (vertexes old) in
      let ipa := pick (a_insidePlotArea h) (insidePlotArea old) in
      (visibility (Renderer3D.attr perspective chart old h) = Some visible
       <-> en = true /\ 0 < shapeArea (perspective vs chart ipa)))) /\
  (forall i, (length faces <= i)%nat -> nth i faces newFace = newFace).
Proof.
  intros r.
  destruct (setFaces_spec (Renderer3D.attr perspective chart) faces hf)
    as [Hl [Hn Hd]].
  fold (Polyhedron.attr perspective chart faces (Some hf)) in Hl, Hn, Hd.
  fold r in Hl, Hn, Hd.
  split; [exact Hl|]. split; [exact Hd|]. split.
  - intros i h Hh old. split; [apply Hn; exact Hh|].
    intros Hdef en vs ipa.
    destruct (attr_recomputes perspective chart old h Hdef)
      as [_ [_ [_ [Hv _]]]].
    fold en vs ipa in Hv. rewrite Hv.
    rewrite <- faceVisibility_visible.
    split; [intros H; injection H as H; exact H|intros ->; reflexivity].
  - intros i Hi. apply nth_overflow. exact Hi.
Qed.

(** A face that is disabled stays hidden: through any sequence of updates
    that give new vertexes and do not mention [enabled], the face stays
    disabled and every update leaves it hidden. *)
Theorem face3d_disabled_stays_hidden (perspective : Perspective)
    (chart : Chart) (this : Face) (updates : list SVGAttributes) :
  enabled this = false ->
  Forall (fun h => a_enabled h = None /\ defined (a_vertexes h) = true)
         updates ->
  let face := fold_left (Renderer3D.attr perspective chart) updates this in
  enabled face = false /\
  (updates <> [] -> visibility face = Some hidden).
Proof.
  intros Hen Hall. cbv zeta. revert this Hen.
  induction Hall as [|h updates [Hnone Hvs] _ IH]; intros this Hen.
  - split; [exact Hen|]. intros H. contradiction.
  - cbn [fold_left].
    assert (Hdef : defined (a_enabled h) || defined (a_vertexes h)
                   || defined (a_insidePlotArea h) = true)
      by (rewrite Hvs, orb_true_r; reflexivity).
    destruct (attr_recomputes perspective chart this h Hdef)
      as [He [_ [_ [Hv _]]]].
    rewrite Hnone in He, Hv. cbn [pick] in He, Hv. rewrite Hen in He, Hv.
    destruct (IH _ He) as [IH1 IH2]. split; [exact IH1|]. intros _.
    destruct updates as [|h' updates'].
    + cbn [fold_left]. exact Hv.
    + apply IH2. discriminate.
Qed.

End Polyhedron_theorems.

Section Cuboid_depth.

Import Renderer3D Orthographic SpecCuboid.
Local Open Scope Q_scope.

Lemma pickShape_flat (pArr : list Position3dObject) (path1 path2 : list nat) :
  shapeArea (map (mapPath pArr) path1) == 0 ->
  shapeArea (map (mapPath pArr) path2) == 0 ->
  pickShape pArr path1 path2 = ([], (-1)%Z).
Proof.
  intros H1 H2. unfold pickShape.
  assert (Hf : forall a, a == 0 -> negb (Qle_bool 0 a) = false).
  { intros a Ha. apply Bool.negb_false_iff. apply Qle_bool_iff.
    rewrite Ha. apply Qle_refl. }
  rewrite (Hf _ H1), (Hf _ H2). reflexivity.
Qed.

(** Without rotation the z-index of a cuboid of positive width and height
    is made of its [y] and its [z] alone. *)
Lemma cuboidPath_orthographic_zIndex (chart : Chart) (shapeArgs : CuboidArgs) :
  0 < c_width shapeArgs -> 0 < c_height shapeArgs ->
  zIndexGroup (cuboidPath orthographic chart shapeArgs)
  = JS.round (0 + 10 * yTerm chart (c_y shapeArgs)
              + 100 * (1000 - c_z shapeArgs)).
Proof.
  intros Hw Hh. unfold cuboidPath, orthographic.
  destruct shapeArgs as [x0 y0 z0 h w d ipa]. cbn [c_width c_height] in Hw, Hh.
  assert (Hwh : 0 < w * h).
  { rewrite <- (Qmult_0_l h). apply Qmult_lt_compat_r; assumption. }
  assert (Hfront : pickShape (corners (mkCuboidArgs x0 y0 z0 h w d ipa))
                     frontFace backFace
                   = (map (mapPath (corners (mkCuboidArgs x0 y0 z0 h w d ipa)))
                          frontFace, 0%Z)).
  { unfold pickShape.
    assert (Hneg : negb (Qle_bool 0 (shapeArea (map (mapPath (corners
                     (mkCuboidArgs x0 y0 z0 h w d ipa))) frontFace))) = true).
    { apply negative_area_test.
      assert (Harea : shapeArea (map (mapPath (corners
                        (mkCuboidArgs x0 y0 z0 h w d ipa))) frontFace)
                      == - (w * h)).
      { unfold shapeArea. simpl. field. }
      rewrite Harea. exact (Qopp_lt_compat 0 (w * h) Hwh). }
    rewrite Hneg. reflexivity. }
  assert (Htop : pickShape (corners (mkCuboidArgs x0 y0 z0 h w d ipa))
                   topFace bottomFace = ([], (-1)%Z)).
  { apply pickShape_flat; unfold shapeArea; simpl; field. }
  assert (Hside : pickShape (corners (mkCuboidArgs x0 y0 z0 h w d ipa))
                   rightFace leftFace = ([], (-1)%Z)).
  { apply pickShape_flat; unfold shapeArea; simpl; field. }
  rewrite Hfront, Htop, Hside.
  cbn [zIndexGroup c_x c_y c_z Z.eqb orb]. unfold yTerm. reflexivity.
Qed.

Lemma round_monotone (a b : Q) : a <= b -> (JS.round a <= JS.round b)%Z.
Proof.
  intros H. unfold JS.round. apply Qfloor_resp_le.
  apply Qplus_le_compat; [exact H|apply Qle_refl].
Qed.

Lemma round_plus_one (a : Q) : JS.round (a + 1) = (JS.round a + 1)%Z.
Proof.
  unfold JS.round.
  assert (H : a + 1 + (1 # 2) == a + (1 # 2) + inject_Z 1) by (simpl; ring).
  rewrite H. clear H.
  set (q := a + (1 # 2)).
  pose proof (Qfloor_le q) as Hlo. pose proof (Qlt_floor q) as Hhi.
  symmetry. apply Z.le_antisymm.
  - assert (Hle : inject_Z (Qfloor q + 1) <= q + inject_Z 1).
    { rewrite inject_Z_plus. apply Qplus_le_compat; [exact Hlo|apply Qle_refl]. }
    apply Qfloor_resp_le in Hle. rewrite Qfloor_Z in Hle. exact Hle.
  - assert (Hlt : q + inject_Z 1 < inject_Z (Qfloor q + 1 + 1)).
    { rewrite (inject_Z_plus (Qfloor q + 1) 1).
      apply Qplus_lt_le_compat; [exact Hhi|apply Qle_refl]. }
    pose proof (Qfloor_le (q + inject_Z 1)) as Hf.
    assert (Hz : inject_Z (Qfloor (q + inject_Z 1))
                 < inject_Z (Qfloor q + 1 + 1))
      by (eapply Qle_lt_trans; eassumption).
    rewrite <- Zlt_Qlt in Hz. lia.
Qed.

(** Seen without rotation, the z-index of a cuboid does not depend on its
    [x], its width, its height or its depth, and of two cuboids at the same
    [y] the one nearer to the viewer (the smaller [z]) is not drawn below
    the other; it is drawn above as soon as the two are a hundredth
    apart. *)
Theorem cuboidPath_depth_order (chart : Chart) (a b : CuboidArgs) :
  0 < c_width a -> 0 < c_height a ->
  0 < c_width b -> 0 < c_height b ->
  c_y a == c_y b ->
  c_z a <= c_z b ->
  let za := zIndexGroup (cuboidPath orthographic chart a) in
  let zb := zIndexGroup (cuboidPath orthographic chart b) in
  (zb <= za)%Z /\
  (c_z a + (1 # 100) <= c_z b -> (zb < za)%Z) /\
  (c_z a == c_z b -> zb = za).
Proof.
  intros Hwa Hha Hwb Hhb Hy Hz za zb.
  unfold za, zb.
  rewrite (cuboidPath_orthographic_zIndex chart a Hwa Hha).
  rewrite (cuboidPath_orthographic_zIndex chart b Hwb Hhb).
  assert (Hterm : yTerm chart (c_y a) == yTerm chart (c_y b)).
  { unfold yTerm. destruct (_ || _); rewrite Hy; reflexivity. }
  split; [|split].
  - apply round_monotone. rewrite Hterm.
    apply Qplus_le_compat; [apply Qle_refl|].
    apply Qmult_le_l; [reflexivity|].
    apply Qplus_le_compat; [apply Qle_refl|]. apply Qopp_le_compat. exact Hz.
  - intros Hfar.
    assert (Hstep : 0 + 10 * yTerm chart (c_y b) + 100 * (1000 - c_z b) + 1
                    <= 0 + 10 * yTerm chart (c_y a) + 100 * (1000 - c_z a)).
    { rewrite Hterm.
      setoid_replace (0 + 10 * yTerm chart (c_y b) + 100 * (1000 - c_z b) + 1)
        with (0 + 10 * yTerm chart (c_y b)
              + 100 * (1000 - (c_z b - (1 # 100)))) by ring.
      apply Qplus_le_compat; [apply Qle_refl|].
      apply Qmult_le_l; [reflexivity|].
      apply Qplus_le_compat; [apply Qle_refl|]. apply Qopp_le_compat.
      apply (Qplus_le_l _ _ (1 # 100)).
      setoid_replace (c_z b - (1 # 100) + (1 # 100)) with (c_z b) by ring.
      exact Hfar. }
    apply round_monotone in Hstep. rewrite round_plus_one in Hstep. lia.
  - intros Heq. apply Qfloor_comp. rewrite Hterm, Heq. reflexivity.
Qed.

End Cuboid_depth.

Section Renderer3D_witnesses.

Import Renderer3D Orthographic SpecCuboid.
Local Open Scope Q_scope.

(** The theorem at the disabled face, updated twice. *)
Lemma face3d_disabled_stays_hidden_witness :
  visibility (fold_left (Renderer3D.attr orthographic Spec3D.chart15)
                        [triangleUpdate; triangleUpdate] disabledFace)
  = Some hidden.
Proof.
  assert (Hupdates :
    Forall (fun h => a_enabled h = None /\ defined (a_vertexes h) = true)
           [triangleUpdate; triangleUpdate]) by (repeat constructor).
  destruct (face3d_disabled_stays_hidden orthographic Spec3D.chart15
              disabledFace [triangleUpdate; triangleUpdate] eq_refl Hupdates)
    as [_ H].
  apply H. discriminate.
Defined.

(** The theorem at the example cuboid and the one behind it. *)
Lemma cuboidPath_depth_order_witness :
  (zIndexGroup (cuboidPath orthographic Spec3D.chart15 boxBehind)
   < zIndexGroup (cuboidPath orthographic Spec3D.chart15 Spec3D.box))%Z.
Proof.
  assert (Hpos : 0 < 40 /\ 0 < 30) by (split; reflexivity).
  assert (Hy : 20 == 20) by reflexivity.
  assert (Hz : 0 <= 5) by discriminate.
  destruct (cuboidPath_depth_order Spec3D.chart15 Spec3D.box boxBehind
              (proj1 Hpos) (proj2 Hpos) (proj1 Hpos) (proj2 Hpos) Hy Hz)
    as [_ [H _]].
  apply H. discriminate.
Defined.

End Renderer3D_witnesses.

Section Curve_facts.

Import ArcPaths.
Local Open Scope R_scope.

Variables cx cy rx ry dx dy : R.

Lemma last_cons_default (a : R) (l : list R) (d1 d2 : R) :
  last (a :: l) d1 = last (a :: l) d2.
Proof.
  revert a. induction l as [|b l IH]; intros a; [reflexivity|].
  change (last (b :: l) d1 = last (b :: l) d2). apply IH.
Qed.

Lemma curveSegments_app (l1 l2 : list R) : forall from,
  curveSegments cx cy rx ry dx dy from (l1 ++ l2)
  = curveSegments cx cy rx ry dx dy from l1
    ++ curveSegments cx cy rx ry dx dy (last l1 from) l2.
Proof.
  induction l1 as [|a l1 IH]; intros from; [reflexivity|].
  cbn [app curveSegments]. rewrite IH, <- app_assoc. f_equal. f_equal.
  destruct l1 as [|b l1]; [reflexivity|].
  f_equal. change (last (a :: b :: l1) from) with (last (b :: l1) from).
  apply last_cons_default.
Qed.

(** An arc of at most a quarter turn and [1 / 10000] is not split. *)
Lemma curveToFuel_base (start end_ : R) (fuel : nat) :
  Rabs (end_ - start) <= PI / 2 + 1 / 10000 ->
  (0 < fuel)%nat ->
  curveToFuel fuel cx cy rx ry start end_ dx dy
  = Some (curveSegment cx cy rx ry start end_ dx dy).
Proof.
  intros H Hf. destruct fuel as [|f]; [lia|]. cbn [curveToFuel].
  destruct (Rlt_dec start end_) as [Hlt|Hge].
  - destruct (Rlt_dec (PI / 2 + 1 / 10000) (end_ - start)) as [Hbig|_];
      [|reflexivity].
    rewrite Rabs_right in H by lra. lra.
  - destruct (Rlt_dec end_ start) as [Hlt|_]; [|reflexivity].
    destruct (Rlt_dec (PI / 2 + 1 / 10000) (start - end_)) as [Hbig|_];
      [|reflexivity].
    rewrite Rabs_left in H by lra. lra.
Qed.

(** [n + 1] levels are enough for an arc of at most [n] quarter turns and
    one last step: the result is the chain of the segments over angles that
    end at [end_]. *)
Lemma curveToFuel_enough (n : nat) : forall start end_,
  Rabs (end_ - start) <= PI / 2 + 1 / 10000 + INR n * (PI / 2) ->
  exists angles,
    angles <> [] /\
    last angles start = end_ /\
    quarterSteps start angles /\
    forall fuel, (n < fuel)%nat ->
      curveToFuel fuel cx cy rx ry start end_ dx dy
      = Some (curveSegments cx cy rx ry dx dy start angles).
Proof.
  pose proof PI_RGT_0 as Hpi.
  assert (Hbase : forall start end_,
            Rabs (end_ - start) <= PI / 2 + 1 / 10000 ->
            exists angles,
              angles <> [] /\ last angles start = end_ /\
              quarterSteps start angles /\
              forall fuel, (0 < fuel)%nat ->
                curveToFuel fuel cx cy rx ry start end_ dx dy
                = Some (curveSegments cx cy rx ry dx dy start angles)).
  { intros start end_ H. exists [end_].
    split; [discriminate|]. split; [reflexivity|].
    split; [split; [exact H|exact I]|].
    intros fuel Hf. cbn [curveSegments]. rewrite app_nil_r.
    apply curveToFuel_base; assumption. }
  induction n as [|n IH]; intros start end_ H.
  - simpl in H. rewrite Rmult_0_l, Rplus_0_r in H.
    destruct (Hbase start end_ H) as [angles [H1 [H2 [H3 H4]]]].
    exists angles. repeat split; try assumption.
  - rewrite S_INR in H.
    destruct (Rle_dec (Rabs (end_ - start)) (PI / 2 + 1 / 10000)) as [Hs|Hl].
    + destruct (Hbase start end_ Hs) as [angles [H1 [H2 [H3 H4]]]].
      exists angles. repeat split; try assumption.
      intros fuel Hf. apply H4. lia.
    + apply Rnot_le_lt in Hl.
      destruct (Rlt_dec start end_) as [Hlt|Hge].
      * (* forwards *)
        rewrite Rabs_right in H, Hl by lra.
        destruct (IH (start + PI / 2) end_) as [angles [H1 [H2 [H3 H4]]]].
        { rewrite Rabs_right by lra. lra. }
        exists ((start + PI / 2) :: angles).
        split; [discriminate|]. split.
        { destruct angles as [|a angles]; [contradiction|].
          rewrite <- H2.
          match goal with
          | |- last (?h :: a :: angles) ?d1 = last (a :: angles) ?d2 =>
              change (last (a :: angles) d1 = last (a :: angles) d2)
          end.
          apply last_cons_default. }
        split.
        { cbn [quarterSteps]. split; [|exact H3].
          rewrite Rabs_right by lra. lra. }
        intros fuel Hf. destruct fuel as [|f]; [lia|]. cbn [curveToFuel].
        destruct (Rlt_dec start end_) as [_|Hc]; [|contradiction].
        destruct (Rlt_dec (PI / 2 + 1 / 10000) (end_ - start)) as [_|Hc];
          [|contradiction].
        rewrite (curveToFuel_base start (start + PI / 2) f)
          by (try lia; rewrite Rabs_right by lra; lra).
        rewrite (H4 f) by lia. reflexivity.
      * (* backwards *)
        assert (Hlt : end_ < start).
        { destruct (Rtotal_order start end_) as [Ho|[Ho|Ho]];
            [contradiction| |exact Ho].
          subst end_. rewrite Rminus_diag, Rabs_R0 in Hl. lra. }
        rewrite Rabs_left in H, Hl by lra.
        destruct (IH (start - PI / 2) end_) as [angles [H1 [H2 [H3 H4]]]].
        { rewrite Rabs_left by lra. lra. }
        exists ((start - PI / 2) :: angles).
        split; [discriminate|]. split.
        { destruct angles as [|a angles]; [contradiction|].
          rewrite <- H2.
          match goal with
          | |- last (?h :: a :: angles) ?d1 = last (a :: angles) ?d2 =>
              change (last (a :: angles) d1 = last (a :: angles) d2)
          end.
          apply last_cons_default. }
        split.
        { cbn [quarterSteps]. split; [|exact H3].
          rewrite Rabs_left by lra. lra. }
        intros fuel Hf. destruct fuel as [|f]; [lia|]. cbn [curveToFuel].
        destruct (Rlt_dec start end_) as [Hc|_]; [contradiction|].
        destruct (Rlt_dec end_ start) as [_|Hc]; [|contradiction].
        destruct (Rlt_dec (PI / 2 + 1 / 10000) (start - end_)) as [_|Hc];
          [|exfalso; apply Hc; lra].
        rewrite (curveToFuel_base start (start - PI / 2) f)
          by (try lia; rewrite Rabs_left by lra; lra).
        rewrite (H4 f) by lia. reflexivity.
Qed.

(** The depth [curveDepth] is never reached. *)
Lemma curveDepth_enough (start end_ : R) :
  Rabs (end_ - start)
  <= PI / 2 + 1 / 10000 + INR (Z.to_nat (up (Rabs (end_ - start) / (PI / 2))))
                          * (PI / 2).
Proof.
  pose proof PI_RGT_0 as Hpi.
  set (q := Rabs (end_ - start) / (PI / 2)).
  destruct (archimed q) as [Hup _].
  assert (Hq : 0 <= q).
  { unfold q. apply Rmult_le_pos; [apply Rabs_pos|].
    apply Rlt_le. apply Rinv_0_lt_compat. lra. }
  assert (Hz : (0 <= up q)%Z).
  { apply le_IZR. lra. }
  rewrite INR_IZR_INZ, Z2Nat.id by exact Hz.
  assert (Hm : Rabs (end_ - start) = q * (PI / 2)).
  { unfold q. field. lra. }
  rewrite Hm at 1.
  assert (q * (PI / 2) <= IZR (up q) * (PI / 2)).
  { apply Rmult_le_compat_r; lra. }
  lra.
Qed.

(** [curveTo] returns the chain of curve segments over a list of angles
    that leads from [start] to [end_] in steps of at most a quarter turn
    (and [1 / 10000]); the recursion ends for every pair of angles. *)
Lemma curveTo_chain (start end_ : R) :
  exists angles,
    angles <> [] /\
    last angles start = end_ /\
    quarterSteps start angles /\
    curveToFuel (curveDepth start end_) cx cy rx ry start end_ dx dy
    = Some (curveSegments cx cy rx ry dx dy start angles) /\
    curveTo cx cy rx ry start end_ dx dy
    = curveSegments cx cy rx ry dx dy start angles.
Proof.
  destruct (curveToFuel_enough _ start end_ (curveDepth_enough start end_))
    as [angles [H1 [H2 [H3 H4]]]].
  exists angles. split; [exact H1|]. split; [exact H2|]. split; [exact H3|].
  assert (H : curveToFuel (curveDepth start end_) cx cy rx ry start end_ dx dy
              = Some (curveSegments cx cy rx ry dx dy start angles)).
  { apply H4. unfold curveDepth. lia. }
  split; [exact H|]. unfold curveTo. rewrite H. reflexivity.
Qed.

End Curve_facts.

Section Arc_paths_claims.

Import Arc3D ArcPaths.
Local Open Scope R_scope.

Lemma isBody_curveSegments (cx cy rx ry dx dy : R) (angles : list R)
    (rest : list SVGPathItem) : forall from,
  isBody (curveSegments cx cy rx ry dx dy from angles ++ rest) = isBody rest.
Proof.
  induction angles as [|a angles IH]; intros from; [reflexivity|].
  cbn [curveSegments]. rewrite <- app_assoc.
  unfold curveSegment at 1. cbn [app isBody]. apply IH.
Qed.

Lemma isBody_curveTo (cx cy rx ry start end_ dx dy : R)
    (rest : list SVGPathItem) :
  isBody (curveTo cx cy rx ry start end_ dx dy ++ rest) = isBody rest.
Proof.
  destruct (curveTo_chain cx cy rx ry dx dy start end_)
    as [angles [_ [_ [_ [_ H]]]]].
  rewrite H. apply isBody_curveSegments.
Qed.

Lemma isBody_lineTo (px py : R) (rest : list SVGPathItem) :
  isBody (lineTo px py ++ rest) = isBody rest.
Proof. reflexivity. Qed.

Lemma curveSegments_length (cx cy rx ry dx dy : R) (angles : list R) :
  forall from,
  length (curveSegments cx cy rx ry dx dy from angles)
  = (7 * length angles)%nat.
Proof.
  induction angles as [|a angles IH]; intros from; [reflexivity|].
  cbn [curveSegments]. rewrite length_app, IH. cbn [length curveSegment]. lia.
Qed.

Lemma curveSegments_last (cx cy rx ry dx dy : R) (angles : list R) :
  forall from, angles <> [] ->
  exists front,
    curveSegments cx cy rx ry dx dy from angles
    = front ++ [Num (cx + (rx * cos (last angles from)) + dx);
                Num (cy + (ry * sin (last angles from)) + dy)].
Proof.
  induction angles as [|a angles IH]; intros from Hne; [contradiction|].
  destruct angles as [|b angles].
  - cbn [curveSegments last]. rewrite app_nil_r. unfold curveSegment.
    eexists [_; _; _; _; _]. reflexivity.
  - destruct (IH a ltac:(discriminate)) as [front Hf].
    change (curveSegments cx cy rx ry dx dy from (a :: b :: angles))
      with (curveSegment cx cy rx ry from a dx dy
            ++ curveSegments cx cy rx ry dx dy a (b :: angles)).
    rewrite Hf. exists (curveSegment cx cy rx ry from a dx dy ++ front).
    rewrite <- app_assoc.
    change (last (a :: b :: angles) from) with (last (b :: angles) from).
    rewrite (last_cons_default b angles from a). reflexivity.
Qed.

(** [curveTo] ends for every pair of angles, and its result is a chain of
    ['C'] commands, seven entries each, over angles that lead from [start]
    to [end_] in steps of at most a quarter turn and [1 / 10000]; the last
    point of the chain is the point of the ellipse at the angle [end_],
    shifted by [(dx, dy)]. *)
Theorem curveTo_quarter_turns (cx cy rx ry start end_ dx dy : R) :
  exists angles front,
    angles <> [] /\
    last angles start = end_ /\
    quarterSteps start angles /\
    curveToFuel (curveDepth start end_) cx cy rx ry start end_ dx dy
    = Some (curveTo cx cy rx ry start end_ dx dy) /\
    curveTo cx cy rx ry start end_ dx dy
    = curveSegments cx cy rx ry dx dy start angles /\
    length (curveTo cx cy rx ry start end_ dx dy) = (7 * length angles)%nat /\
    curveTo cx cy rx ry start end_ dx dy
    = front ++ [Num (cx + (rx * cos end_) + dx);
                Num (cy + (ry * sin end_) + dy)].
Proof.
  destruct (curveTo_chain cx cy rx ry dx dy start end_)
    as [angles [H1 [H2 [H3 [H4 H5]]]]].
  destruct (curveSegments_last cx cy rx ry dx dy angles start H1)
    as [front Hf].
  exists angles, front.
  split; [exact H1|]. split; [exact H2|]. split; [exact H3|].
  split; [rewrite H5; exact H4|]. split; [exact H5|].
  split; [rewrite H5; apply curveSegments_length|].
  rewrite H5, Hf, H2. reflexivity.
Qed.

Lemma outPath_closed (cx cy rx ry dx dy start end_ start2 end2 midEnd a : R) :
  isClosedPath (outPath cx cy rx ry dx dy start end_ start2 end2 midEnd a)
  = true.
Proof.
  unfold outPath.
  destruct (ltb midEnd end_ && ltb start midEnd);
    [|destruct (ltb (PI - a) end_ && ltb start (PI - a))];
    cbn [app isClosedPath]; rewrite <- ?app_assoc;
    repeat (rewrite ?isBody_curveTo, ?isBody_lineTo); reflexivity.
Qed.

(** The five paths of [arc3dPath] are closed subpaths: each starts with
    ['M'] and a point, goes on with ['C'] commands of six numbers and ['L']
    commands of two, and ends with ['Z'].  The top and the first side start
    at the outer point of the start angle, the inner path at its inner
    point, and the second side at the outer point of the end angle. *)
Theorem arc3dPath_paths_closed (shapeArgs : ArcArgs) :
  let paths := arc3dPaths shapeArgs in
  let end1 := end_ shapeArgs - 1 / 100000 in
  let rx := r shapeArgs * cos (beta shapeArgs) in
  let ry := r shapeArgs * cos (alpha shapeArgs) in
  let irx := orZero (innerR shapeArgs) * cos (beta shapeArgs) in
  let iry := orZero (innerR shapeArgs) * cos (alpha shapeArgs) in
  let outerStart := [M; Num (x shapeArgs + rx * cos (start shapeArgs));
                        Num (y shapeArgs + ry * sin (start shapeArgs))] in
  isClosedPath (top paths) = true /\
  isClosedPath (out paths) = true /\
  isClosedPath (inn paths) = true /\
  isClosedPath (side1 paths) = true /\
  isClosedPath (side2 paths) = true /\
  firstn 3 (top paths) = outerStart /\
  firstn 3 (side1 paths) = outerStart /\
  firstn 3 (inn paths)
  = [M; Num (x shapeArgs + irx * cos (start shapeArgs));
        Num (y shapeArgs + iry * sin (start shapeArgs))] /\
  firstn 3 (side2 paths)
  = [M; Num (x shapeArgs + rx * cos end1);
        Num (y shapeArgs + ry * sin end1)].
Proof.
  intros paths end1 rx ry irx iry outerStart.
  unfold paths, arc3dPaths. cbn [top out inn side1 side2].
  repeat split; try reflexivity.
  - cbn [app isClosedPath].
    rewrite isBody_curveTo, isBody_lineTo, isBody_curveTo. reflexivity.
  - apply outPath_closed.
  - cbn [app isClosedPath].
    rewrite isBody_curveTo, isBody_lineTo, isBody_curveTo. reflexivity.
Qed.

End Arc_paths_claims.

Section ArcAnimation_claims.

Import Arc3D ArcPaths ArcAnimation.
Local Open Scope R_scope.

Lemma interpolate_0 (from : R) (to : option R) : interpolate from to 0 = from.
Proof. unfold interpolate. ring. Qed.

Lemma interpolate_1 (from : R) (to : option R) :
  interpolate from to 1 = pickR to from.
Proof. unfold interpolate. ring. Qed.

Lemma interpolate_between (from : R) (to : option R) (pos : R) :
  0 <= pos <= 1 ->
  Rmin from (pickR to from) <= interpolate from to pos
  <= Rmax from (pickR to from).
Proof.
  intros [H0 H1]. unfold interpolate.
  set (t := pickR to from).
  destruct (Rle_dec from t) as [Hle|Hgt].
  - rewrite Rmin_left, Rmax_right by exact Hle.
    assert (0 <= (t - from) * pos) by (apply Rmult_le_pos; lra).
    assert ((t - from) * pos <= (t - from) * 1)
      by (apply Rmult_le_compat_l; lra).
    lra.
  - apply Rnot_le_lt in Hgt.
    rewrite Rmin_right, Rmax_left by lra.
    assert (0 <= (from - t) * pos) by (apply Rmult_le_pos; lra).
    assert ((from - t) * pos <= (from - t) * 1)
      by (apply Rmult_le_compat_l; lra).
    lra.
Qed.

Lemma interpolate_same (from pos : R) : interpolate from None pos = from.
Proof. unfold interpolate. cbn [pickR]. ring. Qed.

(** The animation step of an arc.  For an arc that has an inner radius
    the step at position 0 hands the current attributes to [setPaths], and
    the step at position 1 the attributes [attr] would set with the same
    parameters, so that the paths are those of the target; the z-indexes at
    position 1 are those of the target for every arc.  In between, each of
    [x], [y], [r], [start], [end] and an inner radius that is set lies
    between its value at the start and its target.  Each of the six
    attributes that is not given stays as it is; an arc without inner
    radius keeps none at every position, whatever [innerR] is given; and
    [depth], [alpha] and [beta] are never animated. *)
Theorem arc3d_animation_steps (atan2 : R -> R -> R) (from : ArcArgs)
    (to : CustomAttribs) :
  (forall f, innerR from = Some f ->
     step from to 0 = from /\
     step from to 1 = extendAttribs from to /\
     arc3dPaths (step from to 1) = arc3dPaths (extendAttribs from to)) /\
  arc3dPath atan2 (step from to 1) = arc3dPath atan2 (extendAttribs from to) /\
  (forall pos, 0 <= pos <= 1 ->
     Rmin (x from) (x (extendAttribs from to)) <= x (step from to pos)
       <= Rmax (x from) (x (extendAttribs from to)) /\
     Rmin (y from) (y (extendAttribs from to)) <= y (step from to pos)
       <= Rmax (y from) (y (extendAttribs from to)) /\
     Rmin (r from) (r (extendAttribs from to)) <= r (step from to pos)
       <= Rmax (r from) (r (extendAttribs from to)) /\
     Rmin (start from) (start (extendAttribs from to))
       <= start (step from to pos)
       <= Rmax (start from) (start (extendAttribs from to)) /\
     Rmin (end_ from) (end_ (extendAttribs from to))
       <= end_ (step from to pos)
       <= Rmax (end_ from) (end_ (extendAttribs from to)) /\
     (forall f, innerR from = Some f ->
        exists v, innerR (step from to pos) = Some v /\
          Rmin f (pickR (ca_innerR to) f) <= v
            <= Rmax f (pickR (ca_innerR to) f))) /\
  (forall pos,
     (ca_x to = None -> x (step from to pos) = x from) /\
     (ca_y to = None -> y (step from to pos) = y from) /\
     (ca_r to = None -> r (step from to pos) = r from) /\
     (ca_start to = None -> start (step from to pos) = start from) /\
     (ca_end to = None -> end_ (step from to pos) = end_ from) /\
     (ca_innerR to = None -> innerR (step from to pos) = innerR from)) /\
  (forall pos, innerR from = None -> innerR (step from to pos) = None) /\
  (forall pos, depth (step from to pos) = depth from
               /\ alpha (step from to pos) = alpha from
               /\ beta (step from to pos) = beta from).
Proof.
  assert (H1 : forall f, innerR from = Some f ->
                 step from to 1 = extendAttribs from to).
  { intros f Hf. destruct from as [x0 y0 s0 e0 r0 i0 d0 a0 b0].
    cbn [innerR] in Hf. subst i0. unfold step, extendAttribs. cbn.
    rewrite !interpolate_1. destruct (ca_innerR to); reflexivity. }
  split; [|split; [|split; [|split; [|split]]]].
  - intros f Hf. split; [|split].
    + destruct from as [x0 y0 s0 e0 r0 i0 d0 a0 b0].
      cbn [innerR] in Hf. subst i0. unfold step. cbn.
      rewrite !interpolate_0. reflexivity.
    + exact (H1 f Hf).
    + rewrite (H1 f Hf). reflexivity.
  - unfold arc3dPath, angleMid, angleStart, angleEnd, angleCorr.
    unfold step, extendAttribs. cbn [start end_ depth alpha beta].
    rewrite !interpolate_1. reflexivity.
  - intros pos Hpos. unfold step, extendAttribs.
    cbn [x y r start end_ innerR].
    repeat (split; [apply interpolate_between; exact Hpos|]).
    intros f Hf. rewrite Hf. cbn [interpolateOpt].
    eexists. split; [reflexivity|]. apply interpolate_between. exact Hpos.
  - intros pos. unfold step. cbn [x y r start end_ innerR].
    repeat split; intros H; rewrite H; try apply interpolate_same.
    destruct (innerR from) as [f|]; cbn [interpolateOpt]; [|reflexivity].
    rewrite interpolate_same. reflexivity.
  - intros pos H. unfold step. cbn [innerR]. rewrite H. reflexivity.
  - intros pos. repeat split.
Qed.

End ArcAnimation_claims.

Section Htmlencode_claims.

Import Ascii String ExportData SpecExport.
Local Open Scope string_scope.

Lemma string_append_assoc (s1 s2 s3 : string) :
  (s1 ++ s2) ++ s3 = s1 ++ (s2 ++ s3).
Proof.
  induction s1 as [|a s1 IH]; [reflexivity|].
  cbn [append]. rewrite IH. reflexivity.
Qed.

Lemma replaceAll_app (c : ascii) (by_ s1 s2 : string) :
  replaceAll c by_ (s1 ++ s2) = replaceAll c by_ s1 ++ replaceAll c by_ s2.
Proof.
  induction s1 as [|a s1 IH]; [reflexivity|].
  cbn [append replaceAll]. rewrite IH.
  destruct (Ascii.eqb a c); [|reflexivity].
  symmetry. apply string_append_assoc.
Qed.

Lemma htmlencode_cons (a : ascii) (rest : string) :
  htmlencode (String a rest) = escape a ++ htmlencode rest.
Proof.
  unfold htmlencode, escape. cbn [replaceAll].
  destruct (Ascii.eqb_spec a "&") as [->|N1].
  { rewrite !replaceAll_app. reflexivity. }
  cbn [replaceAll].
  destruct (Ascii.eqb_spec a "<") as [->|N2].
  { rewrite !replaceAll_app. reflexivity. }
  cbn [replaceAll].
  destruct (Ascii.eqb_spec a ">") as [->|N3].
  { rewrite !replaceAll_app. reflexivity. }
  cbn [replaceAll].
  destruct (Ascii.eqb_spec a doubleQuote) as [->|N4].
  { rewrite !replaceAll_app. reflexivity. }
  cbn [replaceAll].
  destruct (Ascii.eqb_spec a "'") as [->|N5].
  { rewrite !replaceAll_app. reflexivity. }
  cbn [replaceAll].
  destruct (Ascii.eqb_spec a "/") as [->|N6].
  { reflexivity. }
  reflexivity.
Qed.

Lemma htmlencode_app (s1 s2 : string) :
  htmlencode (s1 ++ s2) = htmlencode s1 ++ htmlencode s2.
Proof.
  induction s1 as [|a s1 IH]; [reflexivity|].
  cbn [append]. rewrite !htmlencode_cons, IH.
  symmetry. apply string_append_assoc.
Qed.

Lemma occurs_app (c : ascii) (s1 s2 : string) :
  occurs c (s1 ++ s2) = occurs c s1 || occurs c s2.
Proof.
  induction s1 as [|a s1 IH]; [reflexivity|].
  cbn [append occurs]. rewrite IH, orb_assoc. reflexivity.
Qed.

Lemma escape_clean (a c : ascii) :
  c = "<"%char \/ c = ">"%char \/ c = doubleQuote \/ c = "'"%char
  \/ c = "/"%char ->
  occurs c (escape a) = false.
Proof.
  intros Hc. unfold escape.
  destruct (Ascii.eqb_spec a "&") as [->|N1];
    [destruct Hc as [->|[->|[->|[->| ->]]]]; reflexivity|].
  destruct (Ascii.eqb_spec a "<") as [->|N2];
    [destruct Hc as [->|[->|[->|[->| ->]]]]; reflexivity|].
  destruct (Ascii.eqb_spec a ">") as [->|N3];
    [destruct Hc as [->|[->|[->|[->| ->]]]]; reflexivity|].
  destruct (Ascii.eqb_spec a doubleQuote) as [->|N4];
    [destruct Hc as [->|[->|[->|[->| ->]]]]; reflexivity|].
  destruct (Ascii.eqb_spec a "'") as [->|N5];
    [destruct Hc as [->|[->|[->|[->| ->]]]]; reflexivity|].
  destruct (Ascii.eqb_spec a "/") as [->|N6];
    [destruct Hc as [->|[->|[->|[->| ->]]]]; reflexivity|].
  cbn [occurs]. rewrite orb_false_r.
  apply Ascii.eqb_neq.
  destruct Hc as [->|[->|[->|[->| ->]]]]; assumption.
Qed.

Lemma htmlencode_clean (c : ascii) (html : string) :
  c = "<"%char \/ c = ">"%char \/ c = doubleQuote \/ c = "'"%char
  \/ c = "/"%char ->
  occurs c (htmlencode html) = false.
Proof.
  intros Hc. induction html as [|a html IH]; [reflexivity|].
  rewrite htmlencode_cons, occurs_app, IH, (escape_clean a c Hc).
  reflexivity.
Qed.

(** [htmlencode] rewrites its input character by character, so that it
    distributes over concatenation, and its result holds none of the
    characters [<], [>], [/], the double quote and the single quote; a text
    without these characters and without [&] is returned as it is. *)
Theorem htmlencode_escapes (html other : string) :
  occurs "<" (htmlencode html) = false /\
  occurs ">" (htmlencode html) = false /\
  occurs doubleQuote (htmlencode html) = false /\
  occurs "'" (htmlencode html) = false /\
  occurs "/" (htmlencode html) = false /\
  htmlencode (html ++ other) = htmlencode html ++ htmlencode other /\
  (occurs "&" html || occurs "<" html || occurs ">" html
   || occurs doubleQuote html || occurs "'" html || occurs "/" html = false
   -> htmlencode html = html).
Proof.
  repeat split; try (apply htmlencode_clean; tauto).
  - apply htmlencode_app.
  - induction html as [|a html IH]; [reflexivity|].
    cbn [occurs]. intros H.
    apply orb_false_iff in H. destruct H as [H H6].
    apply orb_false_iff in H. destruct H as [H H5].
    apply orb_false_iff in H. destruct H as [H H4].
    apply orb_false_iff in H. destruct H as [H H3].
    apply orb_false_iff in H. destruct H as [H1 H2].
    apply orb_false_iff in H1. destruct H1 as [E1 O1].
    apply orb_false_iff in H2. destruct H2 as [E2 O2].
    apply orb_false_iff in H3. destruct H3 as [E3 O3].
    apply orb_false_iff in H4. destruct H4 as [E4 O4].
    apply orb_false_iff in H5. destruct H5 as [E5 O5].
    apply orb_false_iff in H6. destruct H6 as [E6 O6].
    rewrite htmlencode_cons. unfold escape.
    rewrite E1, E2, E3, E4, E5, E6. cbn [append].
    rewrite IH; [reflexivity|].
    rewrite O1, O2, O3, O4, O5, O6. reflexivity.
Qed.

End Htmlencode_claims.

Section Htmlencode_injective.

Import Ascii String ExportData SpecExport.
Local Open Scope string_scope.

(** The seven shapes of [escape]. *)
Lemma escape_cases (a : ascii) :
  (a = "&"%char /\ escape a = "&amp;") \/
  (a = "<"%char /\ escape a = "&lt;") \/
  (a = ">"%char /\ escape a = "&gt;") \/
  (a = doubleQuote /\ escape a = "&quot;") \/
  (a = "'"%char /\ escape a = "&#x27;") \/
  (a = "/"%char /\ escape a = "&#x2F;") \/
  (a <> "&"%char /\ escape a = String a EmptyString).
Proof.
  unfold escape.
  destruct (Ascii.eqb_spec a "&") as [->|N1]; [tauto|].
  destruct (Ascii.eqb_spec a "<") as [->|N2]; [tauto|].
  destruct (Ascii.eqb_spec a ">") as [->|N3]; [tauto|].
  destruct (Ascii.eqb_spec a doubleQuote) as [->|N4]; [tauto|].
  destruct (Ascii.eqb_spec a "'") as [->|N5]; [tauto|].
  destruct (Ascii.eqb_spec a "/") as [->|N6]; [tauto|].
  repeat right. split; [exact N1|reflexivity].
Qed.

(** No escape is a prefix of another: the first escape of a text
    determines the character it stands for. *)
Lemma escape_prefix_free (a b : ascii) (x y : string) :
  escape a ++ x = escape b ++ y -> a = b /\ x = y.
Proof.
  destruct (escape_cases a)
    as [[Ha Ea]|[[Ha Ea]|[[Ha Ea]|[[Ha Ea]|[[Ha Ea]|[[Ha Ea]|[Ha Ea]]]]]]];
  destruct (escape_cases b)
    as [[Hb Eb]|[[Hb Eb]|[[Hb Eb]|[[Hb Eb]|[[Hb Eb]|[[Hb Eb]|[Hb Eb]]]]]]];
  rewrite Ea, Eb; cbn [append]; intros H;
  try discriminate H;
  try (injection H as H; subst; split; reflexivity);
  try (injection H as H1 H2; subst; contradiction);
  try (injection H as H1 H2; subst; split; reflexivity).
Qed.

Lemma escape_nonempty (a : ascii) (x : string) : escape a ++ x <> EmptyString.
Proof.
  destruct (escape_cases a)
    as [[_ E]|[[_ E]|[[_ E]|[[_ E]|[[_ E]|[[_ E]|[_ E]]]]]]];
    rewrite E; discriminate.
Qed.

(** [htmlencode] loses nothing: two texts have the same encoding only when
    they are the same text.  It is not idempotent: an encoded text that
    holds an escape is changed when it is encoded again. *)
Theorem htmlencode_injective (html1 html2 : string) :
  (htmlencode html1 = htmlencode html2 <-> html1 = html2) /\
  (htmlencode (htmlencode html1) = htmlencode html1
   <-> htmlencode html1 = html1).
Proof.
  assert (Hinj : forall s1 s2, htmlencode s1 = htmlencode s2 -> s1 = s2).
  { induction s1 as [|a s1 IH]; intros [|b s2] H.
    - reflexivity.
    - rewrite htmlencode_cons in H. symmetry in H.
      apply escape_nonempty in H. contradiction.
    - rewrite htmlencode_cons in H. apply escape_nonempty in H. contradiction.
    - rewrite !htmlencode_cons in H. apply escape_prefix_free in H.
      destruct H as [-> H]. f_equal. apply IH. exact H. }
  split.
  - split; [apply Hinj|intros ->; reflexivity].
  - split; [apply Hinj|intros H; rewrite H; exact H].
Qed.

End Htmlencode_injective.

Section CSV_claims.

Import Ascii String ExportData.
Local Open Scope string_scope.

Variable toString : Q -> string.

Lemma string_append_nil_r (s : string) : s ++ EmptyString = s.
Proof.
  induction s as [|a s IH]; [reflexivity|]. cbn [append]. rewrite IH.
  reflexivity.
Qed.

(** The rows added from index [k] on, to a text [csv]. *)
Lemma addRow_fold (dp sep line : string) (n : nat) (rows : list (list Cell)) :
  forall (k : nat) (csv : string),
  (k + List.length rows = n)%nat ->
  fold_left (addRow toString dp sep line n)
            (combine (seq k (List.length rows)) rows) csv
  = csv ++ join line (map (fun row => join sep (map (cellText toString dp) row))
                          rows).
Proof.
  induction rows as [|row rows IH]; intros k csv Hn.
  - cbn. symmetry. apply string_append_nil_r.
  - cbn [List.length seq combine fold_left addRow].
    cbn [List.length] in Hn.
    destruct rows as [|row' rows].
    + cbn [List.length] in Hn.
      destruct (Z.ltb_spec (Z.of_nat k) (Z.of_nat n - 1)) as [H|_]; [lia|].
      reflexivity.
    + destruct (Z.ltb_spec (Z.of_nat k) (Z.of_nat n - 1)) as [_|H];
        [|cbn [List.length] in Hn; lia].
      rewrite IH by (cbn [List.length] in *; lia).
      cbn [map join]. rewrite !string_append_assoc. reflexivity.
Qed.

(** The CSV is the rows joined by the line delimiter, each row being its
    cells joined by the item delimiter.  When no item delimiter is
    configured, the one chosen is [;] or [,] and differs from the decimal
    point, whatever the configured decimal point and the locale.  Strings
    are put between double quotes as they are: a cell whose text holds a
    double quote, the item delimiter and a double quote gives the same CSV
    as the two cells on either side of them. *)
Theorem getCSV_layout_and_delimiters (localePoint : string)
    (csvOptions : CsvOptions) (useLocalDecimalPoint : bool)
    (rows : list (list Cell)) :
  let dp := decimalPointOf csvOptions useLocalDecimalPoint localePoint in
  let sep := itemDelimiterOf csvOptions useLocalDecimalPoint localePoint in
  getCSV toString localePoint csvOptions useLocalDecimalPoint rows
  = join (lineDelimiter csvOptions)
         (map (fun row => join sep (map (cellText toString dp) row)) rows) /\
  (itemDelimiter csvOptions = None ->
   sep <> dp /\ (sep = ";" \/ sep = ",")) /\
  (forall s1 s2,
     getCSV toString localePoint csvOptions useLocalDecimalPoint
       [[CStr (s1 ++ String doubleQuote sep ++ String doubleQuote s2)]]
     = getCSV toString localePoint csvOptions useLocalDecimalPoint
         [[CStr s1; CStr s2]]).
Proof.
  intros dp sep. split; [|split].
  - unfold getCSV. fold dp sep.
    rewrite (addRow_fold dp sep (lineDelimiter csvOptions)
               (List.length rows) rows 0 EmptyString) by lia.
    reflexivity.
  - intros Hnone. unfold sep, itemDelimiterOf. rewrite Hnone.
    cbn [pickString]. fold dp.
    destruct (String.eqb_spec dp ",") as [E|N].
    + split; [rewrite E; discriminate|left; reflexivity].
    + split; [congruence|right; reflexivity].
  - intros s1 s2. unfold getCSV. fold dp sep.
    cbn [List.length seq combine fold_left]. unfold addRow.
    change (Z.of_nat 0 <? Z.of_nat 1 - 1)%Z with false.
    cbn [map join cellText append]. f_equal.
    rewrite !string_append_assoc. cbn [append].
    rewrite !string_append_assoc. reflexivity.
Qed.

End CSV_claims.
